(** * The gossip SyncManager (discovery/sync_manager.go)

    A shallow embedding of the SyncManager's event loop [syncerHandler] and
    of the helpers it calls, followed by the properties of the registry of
    active and inactive gossip syncers.

    The SyncManager is an event loop run by a single goroutine.  Every
    mutation of the two registry maps and of the bootstrap variables happens
    inside one iteration of that loop, so the embedding is a state
    transformer: one function per [select] case, threaded through a small
    state monad.  What the source leaves to chance or to other goroutines
    (the iteration order of a Go map, the answers of a GossipSyncer to the
    requests the manager sends it) is read from an environment, and the
    outcome of a [select] of the public API between a reply and the quit
    channel is an argument, so that every definition computes. *)

From Stdlib Require Import ZArith Lia.
From stdpp Require Import base option list gmap fin_maps.

Local Open Scope Z_scope.

(** ** Data of the GossipSyncer seen by the manager *)

(** [SyncerType]: the two sync types the manager assigns. *)
Inductive SyncerType := ActiveSync | PassiveSync.

(** Modelled from the spec: the type [syncerState] is declared in
    discovery/syncer.go, which is not part of the sources at hand.  The
    manager only ever compares a state with [chansSynced] ("at least
    {chansSynced, ...other...}"), so every other state is kept apart by a
    tag. *)
Inductive syncerState := chansSynced | otherSyncState (tag : nat).

(** Go [error] values.  [ErrSyncManagerExiting] is the manager's own; the
    errors a GossipSyncer returns are opaque to the manager. *)
Inductive error := ErrSyncManagerExiting | ErrSyncer (code : nat).

#[global] Instance SyncerType_eq_dec : EqDecision SyncerType.
Proof. solve_decision. Defined.
#[global] Instance syncerState_eq_dec : EqDecision syncerState.
Proof. solve_decision. Defined.
#[global] Instance error_eq_dec : EqDecision error.
Proof. solve_decision. Defined.

(** The mutable fields of a GossipSyncer the manager reads or writes. *)
Record syncerFields := SyncerFields {
  syncType : SyncerType;
  state : syncerState;
}.

(** ** The environment

    Answers to everything the manager cannot decide by itself, indexed by
    the number of questions asked so far ([calls] below), so that any
    sequence of answers can be supplied.
    - [rangeOrder n]: the order in which [for _, s := range syncers] visits
      the map (Go leaves it unspecified); see [shuffle].
    - [syncTransitionErr n]: what [ProcessSyncTransition] returns.
    - [historicalSyncErr n]: what [historicalSync] returns. *)
Record Env := {
  rangeOrder : nat → list nat;
  syncTransitionErr : nat → option error;
  historicalSyncErr : nat → option error;
}.

(** [shuffle seed l] permutes [l]: each number of the seed picks (modulo
    the number of elements left) the next element to visit; what the seed
    does not reach keeps its order. *)
Fixpoint shuffle {A} (seed : list nat) (l : list A) : list A :=
  match seed with
  | [] => l
  | i :: seed' =>
      match l !! (i mod length l)%nat with
      | Some x => x :: shuffle seed' (delete (i mod length l)%nat l)
      | None => l
      end
  end.

(** An environment in which every syncer accepts every request and every
    range visits its map in the canonical order. *)
Definition accepting : Env :=
  {| rangeOrder := λ _, [];
     syncTransitionErr := λ _, None;
     historicalSyncErr := λ _, None |}.

(** As [accepting], but [historicalSync] fails at the calls numbered in
    [l]. *)
Definition refusing (l : list nat) : Env :=
  {| rangeOrder := λ _, [];
     syncTransitionErr := λ _, None;
     historicalSyncErr := λ n,
       if bool_decide (n ∈ l) then Some (ErrSyncer 0) else None |}.

(** The cases of a two-way [select] between the quit channel and the other
    channel of the public API. *)
Inductive selectCase := caseQuit | caseProceed.

(** * The watchtower policy (watchtower/wtpolicy/policy.go) and the dust
    limit it uses (lnwallet) *)

Module lnwallet.

(** What [DefaultDustLimit] is computed from: [txrules.GetDustThreshold]
    and [txrules.DefaultRelayFeePerKb] belong to btcwallet and
    [input.P2WSHSize] to a package that is not among the sources. *)
Record txrules := {
  GetDustThreshold : Z → Z → Z;
  DefaultRelayFeePerKb : Z;
  P2WSHSize : Z;
}.

Definition DefaultDustLimit (r : txrules) : Z :=
  GetDustThreshold r (P2WSHSize r) (DefaultRelayFeePerKb r).

End lnwallet.

Module wtpolicy.

(** A Go [int64] ([btcutil.Amount]) after an arithmetic operation: the
    result wraps around. *)
Definition wrap64 (z : Z) : Z := (z + 2 ^ 63) mod 2 ^ 64 - 2 ^ 63.

Definition RewardScale : Z := 1000000.
Definition DefaultMaxUpdates : Z := 1024.
Definition DefaultRewardRate : Z := 10000.
Definition DefaultSweepFeeRate : Z := 3000.

Inductive error := ErrFeeExceedsInputs | ErrRewardExceedsInputs | ErrCreatesDust.

(** What the policy takes from other packages: the dust limit of
    lnwallet, [lnwallet.SatPerKWeight.FeeForWeight] and the flags of a
    [blob.Type]. *)
Record externals := {
  rules : lnwallet.txrules;
  FeeForWeight : Z → Z → Z;
  Has : Z → Z → bool;
  FlagReward : Z;
  TypeDefault : Z;
}.

Record Policy := {
  BlobType : Z;
  MaxUpdates : Z;
  RewardBase : Z;
  RewardRate : Z;
  SweepFeeRate : Z;
}.

Definition DefaultPolicy (x : externals) : Policy :=
  {| BlobType := TypeDefault x;
     MaxUpdates := DefaultMaxUpdates;
     RewardBase := 0;
     RewardRate := DefaultRewardRate;
     SweepFeeRate := DefaultSweepFeeRate |}.

Definition ComputeRewardAmount (total base rate : Z) : Z :=
  let rewardBase := base in
  let rewardRate := rate in
  if rewardBase >? total then rewardBase
  else
    let afterBase := wrap64 (total - rewardBase) in
    let proportional :=
      Z.quot (wrap64 (wrap64 (wrap64 (afterBase * rewardRate) + RewardScale) - 1))
             RewardScale in
    wrap64 (rewardBase + proportional).

Definition ComputeAltruistOutput (x : externals) (p : Policy)
    (totalAmt txWeight : Z) : Z * option error :=
  let txFee := FeeForWeight x (SweepFeeRate p) txWeight in
  if txFee >? totalAmt then (0, Some ErrFeeExceedsInputs)
  else
    let sweepAmt := wrap64 (totalAmt - txFee) in
    let dustLimit := lnwallet.DefaultDustLimit (rules x) in
    if sweepAmt <=? dustLimit then (0, Some ErrCreatesDust)
    else (sweepAmt, None).

Definition ComputeRewardOutputs (x : externals) (p : Policy)
    (totalAmt txWeight : Z) : Z * Z * option error :=
  let txFee := FeeForWeight x (SweepFeeRate p) txWeight in
  if txFee >? totalAmt then (0, 0, Some ErrFeeExceedsInputs)
  else
    let rewardAmt := ComputeRewardAmount totalAmt (RewardBase p) (RewardRate p) in
    if wrap64 (rewardAmt + txFee) >? totalAmt then (0, 0, Some ErrRewardExceedsInputs)
    else
      let sweepAmt := wrap64 (wrap64 (totalAmt - rewardAmt) - txFee) in
      let dustLimit := lnwallet.DefaultDustLimit (rules x) in
      if sweepAmt <=? dustLimit then (0, 0, Some ErrCreatesDust)
      else (sweepAmt, rewardAmt, None).

Record TxOut := { Value : Z; PkScript : list Byte.byte }.

Definition ComputeJusticeTxOuts (x : externals) (p : Policy)
    (totalAmt txWeight : Z) (sweepPkScript rewardPkScript : list Byte.byte)
  : list TxOut * option error :=
  let outputs := [] in
  if Has x (BlobType p) (FlagReward x) then
    let '(sweepAmt, rewardAmt, err) := ComputeRewardOutputs x p totalAmt txWeight in
    match err with
    | Some e => ([], Some e)
    | None =>
        let outputs := outputs ++ [{| PkScript := sweepPkScript; Value := sweepAmt |}] in
        let outputs := outputs ++ [{| PkScript := rewardPkScript; Value := rewardAmt |}] in
        (outputs, None)
    end
  else
    let '(sweepAmt, err) := ComputeAltruistOutput x p totalAmt txWeight in
    match err with
    | Some e => ([], Some e)
    | None =>
        let outputs := outputs ++ [{| PkScript := sweepPkScript; Value := sweepAmt |}] in
        (outputs, None)
    end.

(** The ranges of the Go types. *)
Definition int64 (z : Z) : Prop := - 2 ^ 63 <= z < 2 ^ 63.
Definition uint32 (z : Z) : Prop := 0 <= z < 2 ^ 32.

(** One instance of the externals, used to run the functions: a dust
    threshold of three times the relay fee of an output and the input
    spending it, a fee of [rate * weight / 1000], both with the division
    of Go's [int64], which truncates, and flags that are the bits of the
    blob type, [FlagReward] being the lowest. *)
Definition sampleExternals : externals :=
  {| rules :=
       {| lnwallet.GetDustThreshold :=
            λ size fee,
              wrap64 (3 * Z.quot (wrap64 ((size + 8 + 1 + 107) * fee)) 1000);
          lnwallet.DefaultRelayFeePerKb := 1000;
          lnwallet.P2WSHSize := 34 |};
     FeeForWeight := λ rate weight, Z.quot (wrap64 (rate * weight)) 1000;
     Has := λ t flag, Z.land t flag =? flag;
     FlagReward := 1;
     TypeDefault := 2 |}.

End wtpolicy.

(** * The SyncManager *)

Section SyncManager.

(** [route.Vertex], the 33-byte public key of a peer: the manager only
    compares vertices and uses them as map keys. *)
Context `{Countable Vertex}.

(** [gossipSyncerCfg]: of the configuration of a syncer only the peer's
    public key is read by the manager; it never changes. *)
Record gossipSyncerCfg := { peerPub : Vertex }.

(** A [*GossipSyncer]: the address of the syncer together with its
    immutable configuration.  The mutable fields live in the [heap] of the
    state, at index [addr]. *)
Record GossipSyncer := { addr : nat; cfg : gossipSyncerCfg }.

#[global] Instance gossipSyncerCfg_eq_dec : EqDecision gossipSyncerCfg.
Proof. solve_decision. Defined.
#[global] Instance GossipSyncer_eq_dec : EqDecision GossipSyncer.
Proof. solve_decision. Defined.

(** What the manager does to the outside world, in the order it does it. *)
Inductive Action :=
  | ActStart (s : GossipSyncer)
  | ActStop (s : GossipSyncer)
  | ActSyncTransition (s : GossipSyncer) (t : SyncerType) (err : option error)
  | ActHistoricalSync (s : GossipSyncer) (err : option error)
  | ActCloseDone.

#[global] Instance Action_eq_dec : EqDecision Action.
Proof. solve_decision. Defined.

(** The state: the fields of [SyncManager] guarded by [syncersMu], the
    local variables of [syncerHandler], and the world around them. *)
Record State := {
  activeSyncers : gmap Vertex GossipSyncer;
  inactiveSyncers : gmap Vertex GossipSyncer;
  attemptInitialHistoricalSync : bool;
  initialHistoricalSyncCompleted : bool;
  initialHistoricalSyncer : option GossipSyncer;
  initialHistoricalSyncSignal : option GossipSyncer;
  heap : list syncerFields;
  calls : nat;
  trace : list Action;
}.

Definition with_active (m : gmap Vertex GossipSyncer) (st : State) : State :=
  {| activeSyncers := m; inactiveSyncers := inactiveSyncers st;
     attemptInitialHistoricalSync := attemptInitialHistoricalSync st;
     initialHistoricalSyncCompleted := initialHistoricalSyncCompleted st;
     initialHistoricalSyncer := initialHistoricalSyncer st;
     initialHistoricalSyncSignal := initialHistoricalSyncSignal st;
     heap := heap st; calls := calls st; trace := trace st |}.

Definition with_inactive (m : gmap Vertex GossipSyncer) (st : State) : State :=
  {| activeSyncers := activeSyncers st; inactiveSyncers := m;
     attemptInitialHistoricalSync := attemptInitialHistoricalSync st;
     initialHistoricalSyncCompleted := initialHistoricalSyncCompleted st;
     initialHistoricalSyncer := initialHistoricalSyncer st;
     initialHistoricalSyncSignal := initialHistoricalSyncSignal st;
     heap := heap st; calls := calls st; trace := trace st |}.

Definition with_attempt (b : bool) (st : State) : State :=
  {| activeSyncers := activeSyncers st; inactiveSyncers := inactiveSyncers st;
     attemptInitialHistoricalSync := b;
     initialHistoricalSyncCompleted := initialHistoricalSyncCompleted st;
     initialHistoricalSyncer := initialHistoricalSyncer st;
     initialHistoricalSyncSignal := initialHistoricalSyncSignal st;
     heap := heap st; calls := calls st; trace := trace st |}.

Definition with_completed (b : bool) (st : State) : State :=
  {| activeSyncers := activeSyncers st; inactiveSyncers := inactiveSyncers st;
     attemptInitialHistoricalSync := attemptInitialHistoricalSync st;
     initialHistoricalSyncCompleted := b;
     initialHistoricalSyncer := initialHistoricalSyncer st;
     initialHistoricalSyncSignal := initialHistoricalSyncSignal st;
     heap := heap st; calls := calls st; trace := trace st |}.

Definition with_syncer (s : option GossipSyncer) (st : State) : State :=
  {| activeSyncers := activeSyncers st; inactiveSyncers := inactiveSyncers st;
     attemptInitialHistoricalSync := attemptInitialHistoricalSync st;
     initialHistoricalSyncCompleted := initialHistoricalSyncCompleted st;
     initialHistoricalSyncer := s;
     initialHistoricalSyncSignal := initialHistoricalSyncSignal st;
     heap := heap st; calls := calls st; trace := trace st |}.

Definition with_signal (s : option GossipSyncer) (st : State) : State :=
  {| activeSyncers := activeSyncers st; inactiveSyncers := inactiveSyncers st;
     attemptInitialHistoricalSync := attemptInitialHistoricalSync st;
     initialHistoricalSyncCompleted := initialHistoricalSyncCompleted st;
     initialHistoricalSyncer := initialHistoricalSyncer st;
     initialHistoricalSyncSignal := s;
     heap := heap st; calls := calls st; trace := trace st |}.

Definition with_heap (h : list syncerFields) (st : State) : State :=
  {| activeSyncers := activeSyncers st; inactiveSyncers := inactiveSyncers st;
     attemptInitialHistoricalSync := attemptInitialHistoricalSync st;
     initialHistoricalSyncCompleted := initialHistoricalSyncCompleted st;
     initialHistoricalSyncer := initialHistoricalSyncer st;
     initialHistoricalSyncSignal := initialHistoricalSyncSignal st;
     heap := h; calls := calls st; trace := trace st |}.

Definition with_calls (n : nat) (st : State) : State :=
  {| activeSyncers := activeSyncers st; inactiveSyncers := inactiveSyncers st;
     attemptInitialHistoricalSync := attemptInitialHistoricalSync st;
     initialHistoricalSyncCompleted := initialHistoricalSyncCompleted st;
     initialHistoricalSyncer := initialHistoricalSyncer st;
     initialHistoricalSyncSignal := initialHistoricalSyncSignal st;
     heap := heap st; calls := n; trace := trace st |}.

Definition with_trace (t : list Action) (st : State) : State :=
  {| activeSyncers := activeSyncers st; inactiveSyncers := inactiveSyncers st;
     attemptInitialHistoricalSync := attemptInitialHistoricalSync st;
     initialHistoricalSyncCompleted := initialHistoricalSyncCompleted st;
     initialHistoricalSyncer := initialHistoricalSyncer st;
     initialHistoricalSyncSignal := initialHistoricalSyncSignal st;
     heap := heap st; calls := calls st; trace := t |}.

(** ** The state monad *)

Abbreviation M A := (State → A * State)%type.

Definition ret {A} (a : A) : M A := λ st, (a, st).

Definition bind {A B} (m : M A) (k : A → M B) : M B :=
  λ st, let r := m st in k r.1 r.2.

Notation "'let*' x ':=' m 'in' k" := (bind m (λ x, k))
  (at level 10, x name, m at level 100, k at level 200).
Notation "m '>>' k" := (bind m (λ _, k))
  (at level 100, k at level 200, right associativity).

Definition gets {A} (f : State → A) : M A := λ st, (f st, st).
Definition modify (f : State → State) : M unit := λ st, (tt, f st).

(** The next answer of the environment is the one numbered [calls]. *)
Definition nextCall : M nat := λ st, (calls st, with_calls (S (calls st)) st).

Definition emit (a : Action) : M unit :=
  modify (λ st, with_trace (trace st ++ [a]) st).

(** ** The GossipSyncer, as far as the manager uses it *)

Variable env : Env.

(** [m.cfg.NumActiveSyncers], a Go [int]. *)
Variable NumActiveSyncers : Z.

(** Modelled from the spec: [newGossipSyncer] is defined in
    discovery/syncer.go, which is not part of the sources at hand.  It
    allocates a syncer with the given configuration; the sync type and the
    sync state it leaves there are overwritten by [createGossipSyncer]
    before anyone reads them. *)
Definition newGossipSyncer (c : gossipSyncerCfg) : M GossipSyncer :=
  λ st, ({| addr := length (heap st); cfg := c |},
         with_heap (heap st ++ [SyncerFields ActiveSync (otherSyncState 0)]) st).

(** Modelled from the spec: the setters and getters of the two mutable
    fields ("Mutable attributes: sync-type, sync-state"). *)
Definition setSyncState (s : GossipSyncer) (x : syncerState) : M unit :=
  modify (λ st, with_heap
    (alter (λ f, SyncerFields (syncType f) x) (addr s) (heap st)) st).

Definition setSyncType (s : GossipSyncer) (t : SyncerType) : M unit :=
  modify (λ st, with_heap
    (alter (λ f, SyncerFields t (state f)) (addr s) (heap st)) st).

Definition syncStateOf (st : State) (s : GossipSyncer) : option syncerState :=
  state <$> heap st !! addr s.

Definition syncTypeOf (st : State) (s : GossipSyncer) : option SyncerType :=
  syncType <$> heap st !! addr s.

Definition syncState (s : GossipSyncer) : M (option syncerState) :=
  gets (λ st, syncStateOf st s).

(** [s.Start()] and [go s.Stop()]: seen from the manager, calls that it
    makes and whose effect stays inside the syncer. *)
Definition Start (s : GossipSyncer) : M unit := emit (ActStart s).
Definition Stop (s : GossipSyncer) : M unit := emit (ActStop s).

(** Modelled from the spec: [ProcessSyncTransition] asks the syncer to
    change its sync type.  The syncer may refuse ("TransitionFailed: the
    syncer refuses a sync-type transition"), which the environment decides;
    when it accepts, the syncer has the new sync type. *)
Definition ProcessSyncTransition (s : GossipSyncer) (t : SyncerType)
  : M (option error) :=
  let* n := nextCall in
  match syncTransitionErr env n with
  | Some e => emit (ActSyncTransition s t (Some e)) >> ret (Some e)
  | None => setSyncType s t >> emit (ActSyncTransition s t None) >> ret None
  end.

(** Modelled from the spec: [historicalSync] asks the syncer to perform a
    historical sync; it may refuse or fail ("HistoricalSyncFailed"), which
    the environment decides.  The change of its sync state that follows is
    the syncer's own doing (see [EvSyncerState]). *)
Definition historicalSync (s : GossipSyncer) : M (option error) :=
  let* n := nextCall in
  emit (ActHistoricalSync s (historicalSyncErr env n)) >>
  ret (historicalSyncErr env n).

(** Modelled from the spec: [ResetSyncedSignal] returns the one-shot
    "synced" signal of the syncer; a signal is named by its syncer. *)
Definition ResetSyncedSignal (s : GossipSyncer) : M GossipSyncer := ret s.

(** ** Helpers of the manager *)

(** The loop of [chooseRandomSyncer] over the syncers in the order
    visited.  A syncer that is not in the [chansSynced] state is skipped; a
    nil action makes the first viable syncer the result; otherwise the
    first viable syncer on which the action succeeds.

    The Go loop ranges over the live map while [transitionPassiveSyncer]
    may delete from it; since the function returns right after the first
    successful action, and a failed action leaves the maps alone, the loop
    sees the map as it was on entry. *)
Fixpoint chooseFrom (action : option (GossipSyncer → M (option error)))
    (l : list GossipSyncer) : M (option GossipSyncer) :=
  match l with
  | [] => ret None
  | s :: l' =>
      let* x := syncState s in
      if decide (x = Some chansSynced) then
        match action with
        | Some act =>
            let* err := act s in
            match err with
            | Some _ => chooseFrom action l'
            | None => ret (Some s)
            end
        | None => ret (Some s)
        end
      else chooseFrom action l'
  end.

Definition chooseRandomSyncer (syncers : gmap Vertex GossipSyncer)
    (action : option (GossipSyncer → M (option error)))
  : M (option GossipSyncer) :=
  let* n := nextCall in
  chooseFrom action (shuffle (rangeOrder env n) (map_to_list syncers).*2).

Definition transitionActiveSyncer (s : GossipSyncer) : M (option error) :=
  let* err := ProcessSyncTransition s PassiveSync in
  match err with
  | Some e => ret (Some e)
  | None =>
      modify (λ st, with_active (delete (peerPub (cfg s)) (activeSyncers st)) st) >>
      modify (λ st, with_inactive (<[peerPub (cfg s) := s]> (inactiveSyncers st)) st) >>
      ret None
  end.

Definition transitionPassiveSyncer (s : GossipSyncer) : M (option error) :=
  let* err := ProcessSyncTransition s ActiveSync in
  match err with
  | Some e => ret (Some e)
  | None =>
      modify (λ st, with_inactive (delete (peerPub (cfg s)) (inactiveSyncers st)) st) >>
      modify (λ st, with_active (<[peerPub (cfg s) := s]> (activeSyncers st)) st) >>
      ret None
  end.

(** [gossipSyncer]: the pair (syncer, ok) of the source is an option. *)
Definition gossipSyncer (peer : Vertex) (st : State) : option GossipSyncer :=
  match inactiveSyncers st !! peer with
  | Some syncer => Some syncer
  | None =>
      match activeSyncers st !! peer with
      | Some syncer => Some syncer
      | None => None
      end
  end.

(** [gossipSyncers]: a fresh map filled from the inactive syncers and then
    from the active ones, each under its own [peerPub].  The two loops
    visit the maps in their canonical order; the result does not depend on
    it as long as no two syncers of one map have the same [peerPub]. *)
Definition gossipSyncers (st : State) : gmap Vertex GossipSyncer :=
  let fill := foldl (λ syncers syncer, <[peerPub (cfg syncer) := syncer]> syncers) in
  fill (fill ∅ (map_to_list (inactiveSyncers st)).*2)
       (map_to_list (activeSyncers st)).*2.

Definition createGossipSyncer (peer : Vertex) : M GossipSyncer :=
  let* s := newGossipSyncer {| peerPub := peer |} in
  setSyncState s chansSynced >>
  setSyncType s PassiveSync >>
  ret s.

Definition removeGossipSyncer (peer : Vertex) : M unit :=
  let* found := gets (gossipSyncer peer) in
  match found with
  | None => ret tt
  | Some s =>
      Stop s >>
      let* inactive := gets inactiveSyncers in
      match inactive !! peer with
      | Some _ =>
          modify (λ st, with_inactive (delete peer (inactiveSyncers st)) st)
      | None =>
          modify (λ st, with_active (delete peer (activeSyncers st)) st) >>
          let* inactive := gets inactiveSyncers in
          let* newActiveSyncer :=
            chooseRandomSyncer inactive (Some transitionPassiveSyncer) in
          ret tt
      end
  end.

Definition rotateActiveSyncerCandidate : M unit :=
  let* active := gets activeSyncers in
  let* activeSyncer := chooseRandomSyncer active None in
  match activeSyncer with
  | None => ret tt
  | Some activeSyncer =>
      let* inactive := gets inactiveSyncers in
      let* candidate := chooseRandomSyncer inactive None in
      match candidate with
      | None => ret tt
      | Some candidate =>
          let* err := transitionActiveSyncer activeSyncer in
          match err with
          | Some _ => ret tt
          | None =>
              let* err := transitionPassiveSyncer candidate in
              ret tt
          end
      end
  end.

Definition forceHistoricalSync : M (option GossipSyncer) :=
  let* syncers := gets gossipSyncers in
  chooseRandomSyncer syncers (Some historicalSync).

(** ** The event loop [syncerHandler] *)

(** The cases of the [select], and [EvSyncerState]: a step of the goroutine
    of a syncer, which changes its own sync state between two iterations of
    the loop.  The quit case ends the loop and has no handler. *)
Inductive Event :=
  | EvNewSyncer (peer : Vertex)
  | EvStaleSyncer (peer : Vertex)
  | EvInitialHistoricalSyncSignal
  | EvRotateTick
  | EvHistoricalSyncTick
  | EvSyncerState (s : GossipSyncer) (x : syncerState).

#[global] Instance Event_eq_dec : EqDecision Event.
Proof. solve_decision. Defined.

(** [case newSyncer := <-m.newSyncers], after the early exit for a known
    peer: lines up to [s.Start()]. *)
Definition initSyncer (peer : Vertex) : M GossipSyncer :=
  let* s := createGossipSyncer peer in
  let* active := gets activeSyncers in
  let* completed := gets initialHistoricalSyncCompleted in
  (if decide (Z.of_nat (size active) >= NumActiveSyncers) then
     setSyncType s PassiveSync >>
     modify (λ st, with_inactive (<[peerPub (cfg s) := s]> (inactiveSyncers st)) st)
   else if negb completed then
     setSyncType s PassiveSync >>
     modify (λ st, with_inactive (<[peerPub (cfg s) := s]> (inactiveSyncers st)) st)
   else
     setSyncType s ActiveSync >>
     modify (λ st, with_active (<[peerPub (cfg s) := s]> (activeSyncers st)) st)) >>
  Start s >>
  ret s.

(** The rest of the case, after [close(newSyncer.doneChan)]: the initial
    historical sync with the first peer that accepts it. *)
Definition attemptInitialSync (s : GossipSyncer) : M unit :=
  let* attempt := gets attemptInitialHistoricalSync in
  if negb attempt then ret tt
  else
    let* err := historicalSync s in
    match err with
    | Some _ => ret tt
    | None =>
        modify (with_attempt false) >>
        modify (with_syncer (Some s)) >>
        let* signal := ResetSyncedSignal s in
        modify (with_signal (Some signal))
    end.

Definition handleNewSyncer (peer : Vertex) : M unit :=
  let* known := gets (gossipSyncer peer) in
  match known with
  | Some _ => emit ActCloseDone
  | None =>
      let* s := initSyncer peer in
      emit ActCloseDone >>
      attemptInitialSync s
  end.

(** ** The [newSyncers] case, statement by statement

    The loop runs beside its callers: the goroutine that waits in
    [InitSyncState] goes on as soon as the done channel is closed, and a
    [GossipSyncer] lookup may come between any two statements of a
    handler.  A [Thread] is a handler cut into the statements it runs one
    after the other; [points] are the states it leaves after each of them,
    [run] is the handler run to its end. *)
Inductive Thread (A : Type) : Type :=
| Finished (a : A)
| Atomic (effect : State → State) (next : State → Thread A).

Arguments Finished {A} a.
Arguments Atomic {A} effect next.

(** The statement [m], then what [k] makes of its result. *)
Definition step {A B} (m : M A) (k : A → Thread B) : Thread B :=
  Atomic (λ st, (m st).2) (λ st, k (m st).1).

Notation "'step*' x ':=' m 'in' k" := (step m (λ x, k))
  (at level 10, x name, m at level 100, k at level 200).

Fixpoint run {A} (t : Thread A) : M A :=
  match t with
  | Finished a => ret a
  | Atomic effect next => λ st, run (next st) (effect st)
  end.

Fixpoint points {A} (t : Thread A) (st : State) : list State :=
  match t with
  | Finished _ => []
  | Atomic effect next => effect st :: points (next st) (effect st)
  end.

(** From [s.Start()] to the end of the case. *)
Definition startAndSignal (s : GossipSyncer) : Thread unit :=
  step* _ := Start s in
  step* _ := emit ActCloseDone in
  step* attempt := gets attemptInitialHistoricalSync in
  if negb attempt then Finished tt
  else
    step* err := historicalSync s in
    match err with
    | Some _ => Finished tt
    | None =>
        step* _ := modify (with_attempt false) in
        step* _ := modify (with_syncer (Some s)) in
        step* signal := ResetSyncedSignal s in
        step* _ := modify (with_signal (Some signal)) in
        Finished tt
    end.

(** [case newSyncer := <-m.newSyncers]: the lookup of the peer, the early
    exit, [createGossipSyncer], the [switch] between [Lock] and [Unlock]
    with its two statements per case, and the rest. *)
Definition newSyncerCase (peer : Vertex) : Thread unit :=
  step* known := gets (gossipSyncer peer) in
  match known with
  | Some _ =>
      step* _ := emit ActCloseDone in
      Finished tt
  | None =>
      step* s := createGossipSyncer peer in
      step* active := gets activeSyncers in
      step* completed := gets initialHistoricalSyncCompleted in
      if decide (Z.of_nat (size active) >= NumActiveSyncers) then
        step* _ := setSyncType s PassiveSync in
        step* _ := modify (λ st, with_inactive
                     (<[peerPub (cfg s) := s]> (inactiveSyncers st)) st) in
        startAndSignal s
      else if negb completed then
        step* _ := setSyncType s PassiveSync in
        step* _ := modify (λ st, with_inactive
                     (<[peerPub (cfg s) := s]> (inactiveSyncers st)) st) in
        startAndSignal s
      else
        step* _ := setSyncType s ActiveSync in
        step* _ := modify (λ st, with_active
                     (<[peerPub (cfg s) := s]> (activeSyncers st)) st) in
        startAndSignal s
  end.

Definition handleStaleSyncer (peer : Vertex) : M unit :=
  removeGossipSyncer peer >>
  emit ActCloseDone >>
  let* current := gets initialHistoricalSyncer in
  match current with
  | None => ret tt
  | Some initial =>
      if decide (peer ≠ peerPub (cfg initial)) then ret tt
      else
        let* s := forceHistoricalSync in
        match s with
        | None => modify (with_attempt true)
        | Some s =>
            modify (with_syncer (Some s)) >>
            let* signal := ResetSyncedSignal s in
            modify (with_signal (Some signal))
        end
  end.

(** [for i := 0; i < numActiveLeft; i++ { chooseRandomSyncer(...) }] *)
Fixpoint promoteLoop (n : nat) : M unit :=
  match n with
  | O => ret tt
  | S n' =>
      let* inactive := gets inactiveSyncers in
      let* chosen := chooseRandomSyncer inactive (Some transitionPassiveSyncer) in
      promoteLoop n'
  end.

(** [case <-initialHistoricalSyncSignal]: receiving from a nil channel
    blocks for ever, so the case is taken only while a signal is set. *)
Definition handleInitialHistoricalSyncSignal : M unit :=
  let* signal := gets initialHistoricalSyncSignal in
  match signal with
  | None => ret tt
  | Some _ =>
      modify (with_syncer None) >>
      modify (with_signal None) >>
      modify (with_completed true) >>
      let* active := gets activeSyncers in
      let numActiveLeft := NumActiveSyncers - Z.of_nat (size active) in
      if decide (numActiveLeft <= 0) then ret tt
      else promoteLoop (Z.to_nat numActiveLeft)
  end.

Definition handleEvent (ev : Event) : M unit :=
  match ev with
  | EvNewSyncer peer => handleNewSyncer peer
  | EvStaleSyncer peer => handleStaleSyncer peer
  | EvInitialHistoricalSyncSignal => handleInitialHistoricalSyncSignal
  | EvRotateTick => rotateActiveSyncerCandidate
  | EvHistoricalSyncTick => let* s := forceHistoricalSync in ret tt
  | EvSyncerState s x => setSyncState s x
  end.

(** The loop over the events it receives, in the order it receives them. *)
Definition syncerHandler (evs : list Event) (st : State) : State :=
  foldl (λ st ev, (handleEvent ev st).2) st evs.

(** [newSyncManager] with the local variables of [syncerHandler] as the
    loop finds them on entry. *)
Definition newSyncManager : State :=
  {| activeSyncers := ∅; inactiveSyncers := ∅;
     attemptInitialHistoricalSync := true;
     initialHistoricalSyncCompleted := false;
     initialHistoricalSyncer := None;
     initialHistoricalSyncSignal := None;
     heap := []; calls := 0%nat; trace := [] |}.

Definition reachable (st : State) : Prop :=
  ∃ evs, st = syncerHandler evs newSyncManager.

(** ** The public API

    A call hands a request to the loop and waits for its done channel; both
    steps are a [select] with the quit channel, whose outcome is an
    argument.  [Returns err] is the value returned; [Blocks] stands for a
    call that waits for a done channel nobody closes. *)
Inductive apiResult := Returns (err : option error) | Blocks.

(** What the handler of a request did, to tell whether it closed the done
    channel of the request. *)
Definition doneClosed (before after : list Action) : bool :=
  bool_decide (ActCloseDone ∈ drop (length before) after).

Definition InitSyncState (first second : selectCase) (peer : Vertex)
  : M apiResult :=
  match first with
  | caseQuit => ret (Returns (Some ErrSyncManagerExiting))
  | caseProceed =>
      let* before := gets trace in
      handleNewSyncer peer >>
      let* after := gets trace in
      match second with
      | caseQuit => ret (Returns (Some ErrSyncManagerExiting))
      | caseProceed =>
          if doneClosed before after then ret (Returns None) else ret Blocks
      end
  end.

(** [PruneSyncState] returns nothing: [Returns None] is its return. *)
Definition PruneSyncState (first second : selectCase) (peer : Vertex)
  : M apiResult :=
  match first with
  | caseQuit => ret (Returns None)
  | caseProceed =>
      let* before := gets trace in
      handleStaleSyncer peer >>
      let* after := gets trace in
      match second with
      | caseQuit => ret (Returns None)
      | caseProceed =>
          if doneClosed before after then ret (Returns None) else ret Blocks
      end
  end.

(** ** Predicates used in the statements *)

(** Both registry maps are the same in the two states. *)
Definition same_registry (st st' : State) : Prop :=
  activeSyncers st' = activeSyncers st ∧
  inactiveSyncers st' = inactiveSyncers st.

(** The local variables of [syncerHandler] are the same in the two states. *)
Definition same_vars (st st' : State) : Prop :=
  attemptInitialHistoricalSync st' = attemptInitialHistoricalSync st ∧
  initialHistoricalSyncCompleted st' = initialHistoricalSyncCompleted st ∧
  initialHistoricalSyncer st' = initialHistoricalSyncer st ∧
  initialHistoricalSyncSignal st' = initialHistoricalSyncSignal st.

(** The second state has done what the first had done, and after that only
    actions that satisfy [Q]. *)
Definition trace_grows (Q : Action → Prop) (st st' : State) : Prop :=
  ∃ d, trace st' = trace st ++ d ∧ Forall Q d.

(** Every lookup in the registry gives the same syncer in the two states. *)
Definition same_lookup (st st' : State) : Prop :=
  ∀ peer, gossipSyncer peer st' = gossipSyncer peer st.

(** The mutable fields of every syncer are the same in the two states. *)
Definition same_heap (st st' : State) : Prop := heap st' = heap st.

Definition preserves (I : State → Prop) (st st' : State) : Prop := I st → I st'.

(** Every syncer of a map is stored under its own [peerPub]. *)
Definition own_key (m : gmap Vertex GossipSyncer) : Prop :=
  map_Forall (λ k s, peerPub (cfg s) = k) m.

Definition registry_wf (st : State) : Prop :=
  own_key (activeSyncers st) ∧ own_key (inactiveSyncers st) ∧
  activeSyncers st ##ₘ inactiveSyncers st.

(** The syncers of a map that are in the [chansSynced] state: the ones
    [chooseRandomSyncer] can return. *)
Definition viable (st : State) (m : gmap Vertex GossipSyncer) (s : GossipSyncer) : Prop :=
  (∃ k, m !! k = Some s) ∧ syncStateOf st s = Some chansSynced.

(** What the bootstrap variables satisfy in every state the loop reaches:
    the signal is set exactly when the syncer is, and with no syncer set
    and the initial historical sync not completed, the next peer is to be
    asked for it. *)
Definition bootstrap_wf (st : State) : Prop :=
  (initialHistoricalSyncer st = None ↔ initialHistoricalSyncSignal st = None) ∧
  (initialHistoricalSyncer st = None →
   initialHistoricalSyncCompleted st = false →
   attemptInitialHistoricalSync st = true).

Definition is_historicalSync (a : Action) : Prop :=
  match a with ActHistoricalSync _ _ => True | _ => False end.

Definition is_syncTransition (a : Action) : Prop :=
  match a with ActSyncTransition _ _ _ => True | _ => False end.

(** ** Counting what has been done to a syncer *)

(** How often [s.Start()] and [s.Stop()] have been called. *)
Definition starts (s : GossipSyncer) (tr : list Action) : nat :=
  length (filter (λ a, a = ActStart s) tr).

Definition stops (s : GossipSyncer) (tr : list Action) : nat :=
  length (filter (λ a, a = ActStop s) tr).

(** The actions that are neither a start nor a stop of a syncer. *)
Definition quiet (a : Action) : Prop :=
  match a with
  | ActStart _ | ActStop _ => False
  | _ => True
  end.

(** [s] is the syncer the registry holds for its peer. *)
Definition registered (st : State) (s : GossipSyncer) : Prop :=
  gossipSyncer (peerPub (cfg s)) st = Some s.

(** Every syncer of the registry has been started once and never stopped;
    every other syncer has been stopped as often as it has been started,
    which is at most once; and a syncer that has been started has been
    allocated. *)
Definition lifecycle_wf (st : State) : Prop :=
  ∀ s,
    (registered st s → starts s (trace st) = 1%nat ∧ stops s (trace st) = 0%nat) ∧
    (¬ registered st s → stops s (trace st) = starts s (trace st)) ∧
    (starts s (trace st) ≤ 1)%nat ∧
    (0 < starts s (trace st) → addr s < length (heap st))%nat.

(** A request for a historical sync that the syncer refused. *)
Definition is_refused (a : Action) : Prop :=
  match a with
  | ActHistoricalSync _ (Some _) => True
  | _ => False
  end.

(** The number of syncers of a map that are in the [chansSynced] state. *)
Definition viableCount (st : State) (m : gmap Vertex GossipSyncer) : nat :=
  size (filter (λ ks, syncStateOf st ks.2 = Some chansSynced) m).

(** No syncer has been created. *)
Definition same_heap_length (st st' : State) : Prop :=
  length (heap st') = length (heap st).

(** Whether the last register or deregister event for [peer] among [evs]
    is a register event. *)
Definition connected (evs : list Event) (peer : Vertex) : bool :=
  foldl (λ b ev,
           match ev with
           | EvNewSyncer q => if decide (q = peer) then true else b
           | EvStaleSyncer q => if decide (q = peer) then false else b
           | _ => b
           end) false evs.

(** ** [SyncManager.Stop]

    The function passed to [m.stop.Do]: after [close(m.quit)] and
    [m.wg.Wait()] the loop has ended, and every syncer of the inactive map
    and then of the active map is stopped, each map in the order of its
    range. *)
Fixpoint stopEach (l : list GossipSyncer) : M unit :=
  match l with
  | [] => ret tt
  | syncer :: l' => Stop syncer >> stopEach l'
  end.

Definition stopSyncers : M unit :=
  let* n := nextCall in
  let* inactive := gets inactiveSyncers in
  stopEach (shuffle (rangeOrder env n) (map_to_list inactive).*2) >>
  let* n := nextCall in
  let* active := gets activeSyncers in
  stopEach (shuffle (rangeOrder env n) (map_to_list active).*2).

(** The manager once its loop has ended: [stopped] is the [sync.Once]
    named [stop], [quit] tells whether the quit channel is closed, and
    [loop] is the state the loop has left. *)
Record Manager := {
  stopped : bool;
  quit : bool;
  loop : State;
}.

Definition SyncManager_Stop (m : Manager) : Manager :=
  if stopped m then m
  else {| stopped := true; quit := true; loop := (stopSyncers (loop m)).2 |}.

(** * Properties of the event loop *)

(** ** The order of a [range] and the loop of [chooseRandomSyncer] *)

Ltac st_simpl :=
  unfold emit in *; unfold bind, ret, gets, modify, nextCall in *;
  cbn [fst snd negb orb addr cfg peerPub
       activeSyncers inactiveSyncers attemptInitialHistoricalSync
       initialHistoricalSyncCompleted initialHistoricalSyncer
       initialHistoricalSyncSignal heap calls trace
       with_active with_inactive with_attempt with_completed with_syncer
       with_signal with_heap with_calls with_trace] in *.

Lemma shuffle_Permutation {A} (seed : list nat) (l : list A) :
  shuffle seed l ≡ₚ l.
Proof.
  revert l. induction seed as [|i seed IH]; intros l; simpl; [done|].
  destruct (l !! _) as [x|] eqn:E; [|done].
  rewrite IH. symmetry. by apply delete_Permutation.
Qed.

(** Every order of visit is the shuffle of some seed, so the environment
    can make a [range] visit a map in any order. *)
Lemma shuffle_complete {A} (l l' : list A) :
  l ≡ₚ l' → ∃ seed, shuffle seed l = l'.
Proof.
  revert l. induction l' as [|x l' IH]; intros l Hp.
  - apply Permutation_nil_r in Hp as ->. by exists [].
  - assert (x ∈ l) as Hx by (rewrite Hp; left).
    apply list_elem_of_lookup in Hx as [i Hi].
    pose proof (lookup_lt_Some _ _ _ Hi) as Hlt.
    destruct (IH (delete i l)) as [seed Hs].
    { apply (Permutation_cons_inv (a := x)).
      by rewrite <-(delete_Permutation l i x Hi). }
    exists (i :: seed). cbn [shuffle].
    rewrite Nat.mod_small by done. by rewrite Hi, Hs.
Qed.

Lemma elem_of_range (m : gmap Vertex GossipSyncer) seed s :
  s ∈ shuffle seed (map_to_list m).*2 ↔ ∃ k, m !! k = Some s.
Proof.
  rewrite shuffle_Permutation, list_elem_of_fmap. split.
  - intros [[k s'] [-> Hin]]. exists k. by apply elem_of_map_to_list.
  - intros [k Hk]. exists (k, s). split; [done|]. by apply elem_of_map_to_list.
Qed.

(** With a nil action the loop reads and changes nothing: it returns the
    first syncer in the [chansSynced] state, if there is one. *)
Lemma chooseFrom_nil_action l st :
  (chooseFrom None l st).2 = st ∧
  match (chooseFrom None l st).1 with
  | Some s => s ∈ l ∧ syncStateOf st s = Some chansSynced
  | None => ∀ s, s ∈ l → syncStateOf st s ≠ Some chansSynced
  end.
Proof.
  induction l as [|s l IH]; cbn [chooseFrom]; st_simpl.
  - split; [done|]. intros s Hs. by apply elem_of_nil in Hs.
  - unfold syncState. st_simpl. case_decide as Hs.
    + st_simpl. split; [done|]. split; [left|done].
    + destruct IH as [IH1 IH2]. split; [done|].
      destruct (chooseFrom None l st).1 as [s'|].
      * destruct IH2. split; [by right|done].
      * intros s' [->|Hin]%elem_of_cons; [done|by apply IH2].
Qed.

(** A relation between the states before and after that contains every
    call of the action contains the whole loop. *)
Lemma chooseFrom_frame (P : relation State) `{!PreOrder P}
    (act : GossipSyncer → M (option error)) :
  (∀ s st, P st (act s st).2) →
  ∀ l st, P st (chooseFrom (Some act) l st).2.
Proof.
  intros Hact l. induction l as [|s l IH]; intros st; cbn [chooseFrom]; st_simpl.
  - reflexivity.
  - unfold syncState. st_simpl. case_decide as Hs; [|apply IH].
    specialize (Hact s st). destruct (act s st) as [[e|] st1]; simpl in *.
    + etrans; [exact Hact|apply IH].
    + exact Hact.
Qed.

(** The loop returns a syncer exactly when the action succeeded on it,
    after calls that all failed; it returns nil after nothing but failed
    calls. *)
Lemma chooseFrom_inv (P : relation State) `{!PreOrder P}
    (act : GossipSyncer → M (option error)) :
  (∀ s st, is_Some (act s st).1 → P st (act s st).2) →
  ∀ l st,
    match (chooseFrom (Some act) l st).1 with
    | None => P st (chooseFrom (Some act) l st).2
    | Some s => ∃ st1, P st st1 ∧ s ∈ l ∧
        syncStateOf st1 s = Some chansSynced ∧
        act s st1 = (None, (chooseFrom (Some act) l st).2)
    end.
Proof.
  intros Hact l. induction l as [|s l IH]; intros st; cbn [chooseFrom]; st_simpl.
  - reflexivity.
  - unfold syncState. st_simpl. case_decide as Hs.
    + specialize (Hact s st). destruct (act s st) as [[e|] st1] eqn:E; simpl in *.
      * specialize (IH st1).
        destruct (chooseFrom (Some act) l st1).1 as [s'|].
        -- destruct IH as (st2 & ? & ? & ? & ?). exists st2.
           split_and!; [by etrans; [apply Hact|]|by right|done|done].
        -- etrans; [by apply Hact|done].
      * exists st. split_and!; [reflexivity|left|done|done].
    + specialize (IH st).
      destruct (chooseFrom (Some act) l st).1 as [s'|]; [|done].
      destruct IH as (st2 & ? & ? & ? & ?). exists st2.
      split_and!; [done|by right|done|done].
Qed.

(** ** Frames *)

#[local] Instance same_registry_preorder : PreOrder same_registry.
Proof.
  split; [by intros st|]. intros st1 st2 st3 [? ?] [? ?]. split; congruence.
Qed.

#[local] Instance same_vars_preorder : PreOrder same_vars.
Proof.
  split; [by intros st|].
  intros st1 st2 st3 (? & ? & ? & ?) (? & ? & ? & ?). repeat split; congruence.
Qed.

#[local] Instance same_heap_preorder : PreOrder same_heap.
Proof.
  split; [by intros st|]. unfold same_heap. intros st1 st2 st3 ??. congruence.
Qed.

#[local] Instance same_lookup_preorder : PreOrder same_lookup.
Proof.
  split; [by intros st|]. unfold same_lookup. intros st1 st2 st3 H1 H2 peer.
  by rewrite H2, H1.
Qed.

#[local] Instance trace_grows_preorder Q : PreOrder (trace_grows Q).
Proof.
  split.
  - intros st. exists []. split; [by rewrite app_nil_r|constructor].
  - intros st1 st2 st3 (d1 & E1 & F1) (d2 & E2 & F2). exists (d1 ++ d2).
    split; [by rewrite E2, E1, app_assoc|by apply Forall_app].
Qed.

#[local] Instance preserves_preorder I : PreOrder (preserves I).
Proof. split; unfold preserves; [by intros st|intros st1 st2 st3; tauto]. Qed.

Lemma same_registry_lookup st st' : same_registry st st' → same_lookup st st'.
Proof. intros [Ha Hi] peer. unfold gossipSyncer. by rewrite Ha, Hi. Qed.

Lemma same_registry_wf st st' :
  same_registry st st' → registry_wf st → registry_wf st'.
Proof. intros [Ha Hi]. unfold registry_wf. by rewrite Ha, Hi. Qed.

(** ** The union of the two maps *)

Lemma fill_own_key (l : list (Vertex * GossipSyncer)) (acc : gmap Vertex GossipSyncer) :
  NoDup l.*1 →
  Forall (λ ks, peerPub (cfg ks.2) = ks.1) l →
  foldl (λ syncers syncer, <[peerPub (cfg syncer) := syncer]> syncers) acc l.*2
  = list_to_map l ∪ acc.
Proof.
  revert acc. induction l as [|[k s] l IH]; intros acc Hnd Hk; cbn.
  - by rewrite (left_id_L ∅ (∪)).
  - apply NoDup_cons in Hnd as [Hnk Hnd]. apply Forall_cons in Hk as [Hks Hk].
    cbn in Hks, Hnk. rewrite Hks, IH by done.
    rewrite <-insert_union_r by by apply not_elem_of_list_to_map_1.
    by rewrite insert_union_l.
Qed.

(** In a registry where every syncer sits under its own key, the map built
    by [gossipSyncers] is the union of the two maps, whatever the order in
    which they are visited. *)
Lemma gossipSyncers_union st :
  own_key (activeSyncers st) → own_key (inactiveSyncers st) →
  gossipSyncers st = activeSyncers st ∪ inactiveSyncers st.
Proof.
  intros Ha Hi. unfold gossipSyncers.
  assert (∀ m : gmap Vertex GossipSyncer, own_key m →
    Forall (λ ks, peerPub (cfg ks.2) = ks.1) (map_to_list m)) as Hown.
  { intros m Hm. apply Forall_forall. intros [k s] Hin.
    apply elem_of_map_to_list in Hin. by apply (Hm k s). }
  rewrite !fill_own_key by (by apply NoDup_fst_map_to_list || by apply Hown).
  rewrite !list_to_map_to_list. by rewrite (right_id_L ∅ (∪)).
Qed.

(** ** The two transitions *)

Ltac tr_unfold :=
  unfold transitionPassiveSyncer, transitionActiveSyncer,
    ProcessSyncTransition, historicalSync, setSyncType, setSyncState in *;
  st_simpl.

Lemma transitionPassiveSyncer_spec s st :
  let r := transitionPassiveSyncer s st in
  r.1 = syncTransitionErr env (calls st) ∧
  same_vars st r.2 ∧
  trace r.2 = trace st ++ [ActSyncTransition s ActiveSync r.1] ∧
  calls r.2 = S (calls st) ∧
  match r.1 with
  | Some _ => same_registry st r.2 ∧ heap r.2 = heap st
  | None =>
      activeSyncers r.2 = <[peerPub (cfg s) := s]> (activeSyncers st) ∧
      inactiveSyncers r.2 = delete (peerPub (cfg s)) (inactiveSyncers st) ∧
      heap r.2 = alter (λ f, SyncerFields ActiveSync (state f)) (addr s) (heap st)
  end.
Proof.
  tr_unfold. destruct (syncTransitionErr env (calls st)); st_simpl; done.
Qed.

Lemma transitionActiveSyncer_spec s st :
  let r := transitionActiveSyncer s st in
  r.1 = syncTransitionErr env (calls st) ∧
  same_vars st r.2 ∧
  trace r.2 = trace st ++ [ActSyncTransition s PassiveSync r.1] ∧
  calls r.2 = S (calls st) ∧
  match r.1 with
  | Some _ => same_registry st r.2 ∧ heap r.2 = heap st
  | None =>
      activeSyncers r.2 = delete (peerPub (cfg s)) (activeSyncers st) ∧
      inactiveSyncers r.2 = <[peerPub (cfg s) := s]> (inactiveSyncers st) ∧
      heap r.2 = alter (λ f, SyncerFields PassiveSync (state f)) (addr s) (heap st)
  end.
Proof.
  tr_unfold. destruct (syncTransitionErr env (calls st)); st_simpl; done.
Qed.

Lemma move_wf (a i : gmap Vertex GossipSyncer) s :
  own_key a → own_key i → a ##ₘ i →
  own_key (<[peerPub (cfg s) := s]> a) ∧ own_key (delete (peerPub (cfg s)) i) ∧
  <[peerPub (cfg s) := s]> a ##ₘ delete (peerPub (cfg s)) i.
Proof.
  intros Ha Hi Hd. split_and!.
  - by apply map_Forall_insert_2.
  - by apply map_Forall_delete.
  - apply map_disjoint_insert_l. split; [apply lookup_delete_eq|].
    by apply map_disjoint_delete_r.
Qed.

Lemma transitionPassiveSyncer_wf s st :
  preserves registry_wf st (transitionPassiveSyncer s st).2.
Proof.
  intros (Ha & Hi & Hd).
  destruct (transitionPassiveSyncer_spec s st) as (_ & _ & _ & _ & Hr).
  destruct (transitionPassiveSyncer s st).1.
  - destruct Hr as [Hr _]. by apply (same_registry_wf st).
  - destruct Hr as (Ea & Ei & _). unfold registry_wf. rewrite Ea, Ei.
    by apply move_wf.
Qed.

Lemma transitionActiveSyncer_wf s st :
  preserves registry_wf st (transitionActiveSyncer s st).2.
Proof.
  intros (Ha & Hi & Hd).
  destruct (transitionActiveSyncer_spec s st) as (_ & _ & _ & _ & Hr).
  destruct (transitionActiveSyncer s st).1.
  - destruct Hr as [Hr _]. by apply (same_registry_wf st).
  - destruct Hr as (Ea & Ei & _). unfold registry_wf. rewrite Ea, Ei.
    destruct (move_wf (inactiveSyncers st) (activeSyncers st) s)
      as (? & ? & ?); [done|done|by symmetry|].
    split_and!; [done|done|by symmetry].
Qed.

(** ** [chooseRandomSyncer] *)

Lemma chooseRandomSyncer_nil_action m st :
  let r := chooseRandomSyncer m None st in
  r.2 = with_calls (S (calls st)) st ∧
  match r.1 with
  | Some s => viable st m s
  | None => ∀ s, ¬ viable st m s
  end.
Proof.
  unfold chooseRandomSyncer. st_simpl.
  pose proof (chooseFrom_nil_action
    (shuffle (rangeOrder env (calls st)) (map_to_list m).*2)
    (with_calls (S (calls st)) st)) as [E Hr].
  split; [done|].
  destruct (chooseFrom None _ _).1 as [s|].
  - destruct Hr as [Hin Hs]. split; [by apply elem_of_range in Hin|done].
  - intros s [Hin Hs]. apply (Hr s); [by apply elem_of_range|done].
Qed.

Lemma chooseRandomSyncer_frame (P : relation State) `{!PreOrder P} m act st :
  (∀ st n, P st (with_calls n st)) →
  (∀ s st, P st (act s st).2) →
  P st (chooseRandomSyncer m (Some act) st).2.
Proof.
  intros Hc Hact. unfold chooseRandomSyncer. st_simpl.
  etrans; [apply Hc|]. by apply chooseFrom_frame.
Qed.

Lemma chooseRandomSyncer_inv (P : relation State) `{!PreOrder P} m act st :
  (∀ st n, P st (with_calls n st)) →
  (∀ s st, is_Some (act s st).1 → P st (act s st).2) →
  let r := chooseRandomSyncer m (Some act) st in
  match r.1 with
  | None => P st r.2
  | Some s => ∃ st1, P st st1 ∧ (∃ k, m !! k = Some s) ∧
      syncStateOf st1 s = Some chansSynced ∧ act s st1 = (None, r.2)
  end.
Proof.
  intros Hc Hact. unfold chooseRandomSyncer. st_simpl.
  pose proof (chooseFrom_inv P act Hact
    (shuffle (rangeOrder env (calls st)) (map_to_list m).*2)
    (with_calls (S (calls st)) st)) as Hr.
  st_simpl.
  destruct (chooseFrom (Some act) _ _) as [[s|] st']; cbn [fst snd] in *.
  - destruct Hr as (st1 & ? & Hin & ? & ?). exists st1.
    split_and!; [by etrans; [apply Hc|]|by apply elem_of_range in Hin|done|done].
  - by etrans; [apply Hc|].
Qed.

(** ** Promotion of a passive syncer

    [chooseRandomSyncer(m.inactiveSyncers, m.transitionPassiveSyncer)] moves
    at most one syncer, from the inactive map to the active one. *)
Lemma promote_spec st :
  let r := chooseRandomSyncer (inactiveSyncers st)
             (Some transitionPassiveSyncer) st in
  same_vars st r.2 ∧
  preserves registry_wf st r.2 ∧
  trace_grows is_syncTransition st r.2 ∧
  match r.1 with
  | None => same_registry st r.2
  | Some s =>
      (∃ k, inactiveSyncers st !! k = Some s) ∧
      activeSyncers r.2 = <[peerPub (cfg s) := s]> (activeSyncers st) ∧
      inactiveSyncers r.2 = delete (peerPub (cfg s)) (inactiveSyncers st)
  end.
Proof.
  intros r. split_and!.
  - apply chooseRandomSyncer_frame; [apply _|by intros ??; repeat split|].
    intros s st0. apply transitionPassiveSyncer_spec.
  - apply chooseRandomSyncer_frame; [apply _|by intros ?? ?|].
    apply transitionPassiveSyncer_wf.
  - apply chooseRandomSyncer_frame; [apply _| |].
    + intros st0 n. exists []. split; [by rewrite app_nil_r|constructor].
    + intros s st0.
      destruct (transitionPassiveSyncer_spec s st0) as (_ & _ & Ht & _).
      eexists. split; [exact Ht|]. by repeat constructor.
  - assert (∀ s st0, is_Some (transitionPassiveSyncer s st0).1 →
      same_registry st0 (transitionPassiveSyncer s st0).2) as Hfail.
    { intros s st0 Hs.
      destruct (transitionPassiveSyncer_spec s st0) as (_ & _ & _ & _ & Hx).
      destruct (transitionPassiveSyncer s st0).1; [tauto|by destruct Hs]. }
    pose proof (chooseRandomSyncer_inv same_registry (inactiveSyncers st)
      transitionPassiveSyncer st (λ st0 n, conj eq_refl eq_refl) Hfail) as Hr.
    simpl in Hr. fold r in Hr.
    destruct r.1 as [s|]; [|done].
    destruct Hr as (st1 & [Ea Ei] & Hin & _ & Hact).
    destruct (transitionPassiveSyncer_spec s st1) as (_ & _ & _ & _ & Hx).
    rewrite Hact in Hx. simpl in Hx. destruct Hx as (Hx1 & Hx2 & _).
    rewrite Hx1, Hx2, Ea, Ei. done.
Qed.

(** ** Forced historical syncs *)

Lemma historicalSync_spec s st :
  let r := historicalSync s st in
  r.1 = historicalSyncErr env (calls st) ∧
  same_registry st r.2 ∧ same_vars st r.2 ∧ same_heap st r.2 ∧
  calls r.2 = S (calls st) ∧
  trace r.2 = trace st ++ [ActHistoricalSync s r.1].
Proof. tr_unfold. by repeat split. Qed.

Lemma historicalSync_grows s st :
  trace_grows is_historicalSync st (historicalSync s st).2.
Proof.
  destruct (historicalSync_spec s st) as (_ & _ & _ & _ & _ & Ht).
  eexists. split; [exact Ht|]. by repeat constructor.
Qed.

Lemma trace_grows_calls Q st n : trace_grows Q st (with_calls n st).
Proof. exists []. split; [by rewrite app_nil_r|constructor]. Qed.

Lemma forceHistoricalSync_spec st :
  let r := forceHistoricalSync st in
  same_registry st r.2 ∧ same_vars st r.2 ∧ same_heap st r.2 ∧
  trace_grows is_historicalSync st r.2.
Proof.
  unfold forceHistoricalSync. st_simpl. split_and!.
  - apply chooseRandomSyncer_frame; [apply _|by intros ??; split|].
    intros s st0. apply historicalSync_spec.
  - apply chooseRandomSyncer_frame; [apply _|by intros ??; repeat split|].
    intros s st0. apply historicalSync_spec.
  - apply chooseRandomSyncer_frame; [apply _|by intros ??|].
    intros s st0. apply historicalSync_spec.
  - apply chooseRandomSyncer_frame; [apply _|apply trace_grows_calls|].
    apply historicalSync_grows.
Qed.

(** ** Registration *)

Lemma alter_snoc {A} (f : A → A) (l : list A) x :
  alter f (length l) (l ++ [x]) = l ++ [f x].
Proof.
  rewrite alter_app_r_alt by lia. by rewrite Nat.sub_diag.
Qed.

Lemma handleNewSyncer_known peer s st :
  gossipSyncer peer st = Some s →
  handleNewSyncer peer st = (tt, with_trace (trace st ++ [ActCloseDone]) st).
Proof. intros Hk. unfold handleNewSyncer. st_simpl. by rewrite Hk. Qed.

Lemma initSyncer_spec peer st :
  let r := initSyncer peer st in
  let passive := orb (bool_decide (Z.of_nat (size (activeSyncers st)) >= NumActiveSyncers))
                     (negb (initialHistoricalSyncCompleted st)) in
  r.1 = {| addr := length (heap st); cfg := {| peerPub := peer |} |} ∧
  same_vars st r.2 ∧
  calls r.2 = calls st ∧
  trace r.2 = trace st ++ [ActStart r.1] ∧
  heap r.2 = heap st ++
    [SyncerFields (if passive then PassiveSync else ActiveSync) chansSynced] ∧
  activeSyncers r.2 =
    (if passive then activeSyncers st else <[peer := r.1]> (activeSyncers st)) ∧
  inactiveSyncers r.2 =
    (if passive then <[peer := r.1]> (inactiveSyncers st) else inactiveSyncers st).
Proof.
  unfold initSyncer, createGossipSyncer, newGossipSyncer, setSyncState,
    setSyncType, Start. st_simpl.
  case_decide as Hk.
  - rewrite bool_decide_eq_true_2 by done. st_simpl.
    rewrite !alter_snoc. by cbn.
  - rewrite bool_decide_eq_false_2 by done. cbn [orb].
    destruct (initialHistoricalSyncCompleted st); st_simpl;
      rewrite !alter_snoc; by cbn.
Qed.

Lemma attemptInitialSync_spec s st :
  let r := attemptInitialSync s st in
  same_registry st r.2 ∧ same_heap st r.2 ∧
  trace_grows is_historicalSync st r.2 ∧
  initialHistoricalSyncCompleted r.2 = initialHistoricalSyncCompleted st.
Proof.
  unfold attemptInitialSync, ResetSyncedSignal. st_simpl.
  destruct (attemptInitialHistoricalSync st); cbn [negb]; st_simpl.
  - destruct (historicalSync_spec s st) as (_ & Hr & Hv & Hh & _ & _).
    pose proof (historicalSync_grows s st) as Ht.
    destruct (historicalSync s st) as [[e|] st1]; st_simpl;
      split_and!; try done; apply Hv.
  - by split_and!.
Qed.

(** ** Lookups and sizes under the two moves *)

Lemma gossipSyncer_None peer st :
  gossipSyncer peer st = None ↔
  inactiveSyncers st !! peer = None ∧ activeSyncers st !! peer = None.
Proof.
  unfold gossipSyncer.
  destruct (inactiveSyncers st !! peer), (activeSyncers st !! peer);
    intuition congruence.
Qed.

Lemma gossipSyncer_Some peer s st :
  gossipSyncer peer st = Some s ↔
  inactiveSyncers st !! peer = Some s ∨
  (inactiveSyncers st !! peer = None ∧ activeSyncers st !! peer = Some s).
Proof.
  unfold gossipSyncer.
  destruct (inactiveSyncers st !! peer), (activeSyncers st !! peer);
    intuition congruence.
Qed.

Lemma gossipSyncer_ext peer st st' :
  inactiveSyncers st' !! peer = inactiveSyncers st !! peer →
  activeSyncers st' !! peer = activeSyncers st !! peer →
  gossipSyncer peer st' = gossipSyncer peer st.
Proof. unfold gossipSyncer. by intros -> ->. Qed.

(** Moving an inactive syncer to the active map keeps every lookup. *)
Lemma promotion_lookup s st st' :
  registry_wf st →
  (∃ k, inactiveSyncers st !! k = Some s) →
  activeSyncers st' = <[peerPub (cfg s) := s]> (activeSyncers st) →
  inactiveSyncers st' = delete (peerPub (cfg s)) (inactiveSyncers st) →
  same_lookup st st'.
Proof.
  intros (Ha & Hi & Hd) [k Hk] Ea Ei peer.
  assert (peerPub (cfg s) = k) as <- by by apply (Hi k s).
  destruct (decide (peer = peerPub (cfg s))) as [->|Hne].
  - transitivity (Some s); [|symmetry]; apply gossipSyncer_Some.
    + right. rewrite Ea, Ei. by rewrite lookup_delete_eq, lookup_insert_eq.
    + by left.
  - apply gossipSyncer_ext; rewrite ?Ea, ?Ei.
    + by rewrite lookup_delete_ne.
    + by rewrite lookup_insert_ne.
Qed.

(** Moving an active syncer to the inactive map keeps every lookup. *)
Lemma demotion_lookup s st st' :
  registry_wf st →
  (∃ k, activeSyncers st !! k = Some s) →
  activeSyncers st' = delete (peerPub (cfg s)) (activeSyncers st) →
  inactiveSyncers st' = <[peerPub (cfg s) := s]> (inactiveSyncers st) →
  same_lookup st st'.
Proof.
  intros (Ha & Hi & Hd) [k Hk] Ea Ei peer.
  assert (peerPub (cfg s) = k) as <- by by apply (Ha k s).
  destruct (decide (peer = peerPub (cfg s))) as [->|Hne].
  - transitivity (Some s); [|symmetry]; apply gossipSyncer_Some.
    + left. rewrite Ei. by rewrite lookup_insert_eq.
    + right. split; [|done]. by eapply map_disjoint_Some_l.
  - apply gossipSyncer_ext; rewrite ?Ea, ?Ei.
    + by rewrite lookup_insert_ne.
    + by rewrite lookup_delete_ne.
Qed.

Lemma size_insert_le (m : gmap Vertex GossipSyncer) k s :
  (size (<[k := s]> m) ≤ S (size m))%nat.
Proof. rewrite map_size_insert. destruct (m !! k); simpl; lia. Qed.

Lemma size_delete_Some (m : gmap Vertex GossipSyncer) k s :
  m !! k = Some s → S (size (delete k m)) = size m.
Proof.
  intros Hk. rewrite map_size_delete, Hk. simpl.
  assert (size m ≠ 0%nat); [|lia].
  intros E. apply map_size_empty_inv in E. by rewrite E, lookup_empty in Hk.
Qed.

Lemma promote_lookup st :
  registry_wf st →
  same_lookup st (chooseRandomSyncer (inactiveSyncers st)
                    (Some transitionPassiveSyncer) st).2.
Proof.
  intros Hwf. destruct (promote_spec st) as (_ & _ & _ & Hr).
  destruct (chooseRandomSyncer _ _ st).1 as [s|].
  - destruct Hr as (Hin & Ea & Ei). by eapply promotion_lookup.
  - by apply same_registry_lookup.
Qed.

Lemma promote_size st :
  (size (activeSyncers (chooseRandomSyncer (inactiveSyncers st)
          (Some transitionPassiveSyncer) st).2) ≤ S (size (activeSyncers st)))%nat.
Proof.
  destruct (promote_spec st) as (_ & _ & _ & Hr).
  destruct (chooseRandomSyncer _ _ st).1 as [s|].
  - destruct Hr as (_ & -> & _). apply size_insert_le.
  - destruct Hr as [-> _]. lia.
Qed.

(** ** Removal *)

Lemma removeGossipSyncer_unknown peer st :
  gossipSyncer peer st = None → removeGossipSyncer peer st = (tt, st).
Proof. intros Hg. unfold removeGossipSyncer. st_simpl. by rewrite Hg. Qed.

Lemma removeGossipSyncer_vars peer st :
  same_vars st (removeGossipSyncer peer st).2.
Proof.
  unfold removeGossipSyncer, Stop. st_simpl.
  destruct (gossipSyncer peer st) as [s|]; [|done]. st_simpl.
  destruct (inactiveSyncers st !! peer); st_simpl; [done|].
  set (st1 := with_active _ _).
  apply (promote_spec st1).
Qed.

Lemma removeGossipSyncer_registry peer st :
  registry_wf st →
  let st' := (removeGossipSyncer peer st).2 in
  registry_wf st' ∧
  (size (activeSyncers st') ≤ size (activeSyncers st))%nat ∧
  gossipSyncer peer st' = None ∧
  ∀ p, p ≠ peer → gossipSyncer p st' = gossipSyncer p st.
Proof.
  intros Hwf. pose proof Hwf as (Ha & Hi & Hd).
  unfold removeGossipSyncer, Stop. st_simpl.
  destruct (gossipSyncer peer st) as [s|] eqn:Hg; st_simpl.
  2:{ split_and!; [done|lia|done|done]. }
  destruct (inactiveSyncers st !! peer) as [s'|] eqn:Hin; st_simpl.
  - split_and!.
    + split_and!; [done|by apply map_Forall_delete|by apply map_disjoint_delete_r].
    + lia.
    + apply gossipSyncer_None. st_simpl. split; [apply lookup_delete_eq|].
      by eapply map_disjoint_Some_r.
    + intros p Hp. apply gossipSyncer_ext; st_simpl; [|done].
      by rewrite lookup_delete_ne.
  - apply gossipSyncer_Some in Hg as [Hg|[_ Hg]]; [congruence|].
    set (st1 := with_active _ _).
    assert (registry_wf st1) as Hwf1.
    { split_and!; [by apply map_Forall_delete|done|by apply map_disjoint_delete_l]. }
    pose proof (promote_spec st1) as (_ & Hp & _ & _).
    pose proof (promote_lookup st1 Hwf1) as Hl.
    pose proof (promote_size st1) as Hs.
    change (inactiveSyncers st1) with (inactiveSyncers st) in *.
    split_and!.
    + by apply Hp.
    + etrans; [exact Hs|]. unfold st1. st_simpl.
      by rewrite (size_delete_Some _ _ s).
    + rewrite Hl. apply gossipSyncer_None. unfold st1. st_simpl.
      split; [done|apply lookup_delete_eq].
    + intros p Hne. rewrite Hl. apply gossipSyncer_ext; unfold st1; st_simpl; [done|].
      by rewrite lookup_delete_ne.
Qed.

(** ** Promotion after the initial historical sync *)

Lemma promoteLoop_spec n st :
  let st' := (promoteLoop n st).2 in
  same_vars st st' ∧ preserves registry_wf st st' ∧
  (registry_wf st → same_lookup st st') ∧
  (size (activeSyncers st') ≤ size (activeSyncers st) + n)%nat ∧
  trace_grows is_syncTransition st st'.
Proof.
  revert st. induction n as [|n IH]; intros st; cbn [promoteLoop]; st_simpl.
  - split_and!; [done|done|done|lia|done].
  - pose proof (promote_spec st) as (Hv & Hw & Ht & _).
    pose proof (promote_lookup st) as Hl.
    pose proof (promote_size st) as Hs.
    set (st1 := (chooseRandomSyncer _ _ st).2) in *.
    destruct (IH st1) as (Hv' & Hw' & Hl' & Hs' & Ht').
    split_and!.
    + by etrans.
    + by etrans.
    + intros Hwf. etrans; [by apply Hl|]. apply Hl'. by apply Hw.
    + lia.
    + by etrans.
Qed.

Lemma handleInitialHistoricalSyncSignal_registry st :
  let st' := (handleInitialHistoricalSyncSignal st).2 in
  preserves registry_wf st st' ∧
  (registry_wf st → same_lookup st st') ∧
  (0 <= NumActiveSyncers →
   Z.of_nat (size (activeSyncers st)) <= NumActiveSyncers →
   Z.of_nat (size (activeSyncers st')) <= NumActiveSyncers).
Proof.
  unfold handleInitialHistoricalSyncSignal. st_simpl.
  destruct (initialHistoricalSyncSignal st); st_simpl; [|done].
  case_decide as Hn; st_simpl.
  { split_and!; [intros Hwf; exact Hwf|intros _ peer; reflexivity|done]. }
  set (st1 := with_completed _ _).
  destruct (promoteLoop_spec
    (Z.to_nat (NumActiveSyncers - Z.of_nat (size (activeSyncers st)))) st1)
    as (_ & Hw & Hl & Hs & _).
  split_and!.
  - intros Hwf. apply Hw. exact Hwf.
  - intros Hwf peer. rewrite Hl; [reflexivity|exact Hwf].
  - intros HK Hb. change (activeSyncers st1) with (activeSyncers st) in Hs. lia.
Qed.

(** ** Rotation *)

Lemma rotate_cases st :
  let st' := (rotateActiveSyncerCandidate st).2 in
  same_vars st st' ∧
  ((((∀ s, ¬ viable st (activeSyncers st) s) ∨
     (∀ s, ¬ viable st (inactiveSyncers st) s)) ∧
    same_registry st st' ∧ same_heap st st' ∧ trace st' = trace st) ∨
   (∃ A B, viable st (activeSyncers st) A ∧ viable st (inactiveSyncers st) B ∧
      match syncTransitionErr env (S (S (calls st))) with
      | Some e =>
          same_registry st st' ∧ same_heap st st' ∧
          trace st' = trace st ++ [ActSyncTransition A PassiveSync (Some e)]
      | None =>
          match syncTransitionErr env (S (S (S (calls st)))) with
          | Some e =>
              activeSyncers st' = delete (peerPub (cfg A)) (activeSyncers st) ∧
              inactiveSyncers st' =
                <[peerPub (cfg A) := A]> (inactiveSyncers st) ∧
              trace st' = trace st ++
                [ActSyncTransition A PassiveSync None;
                 ActSyncTransition B ActiveSync (Some e)]
          | None =>
              activeSyncers st' =
                <[peerPub (cfg B) := B]>
                  (delete (peerPub (cfg A)) (activeSyncers st)) ∧
              inactiveSyncers st' =
                delete (peerPub (cfg B))
                  (<[peerPub (cfg A) := A]> (inactiveSyncers st)) ∧
              trace st' = trace st ++
                [ActSyncTransition A PassiveSync None;
                 ActSyncTransition B ActiveSync None]
          end
      end)).
Proof.
  unfold rotateActiveSyncerCandidate. st_simpl.
  pose proof (chooseRandomSyncer_nil_action (activeSyncers st) st) as [E1 V1].
  cbn zeta in E1, V1.
  destruct (chooseRandomSyncer (activeSyncers st) None st) as [[A|] st1];
    cbn [fst snd] in *; subst st1; st_simpl.
  2:{ split; [done|]. left. split_and!; [by left|done|done|done]. }
  pose proof (chooseRandomSyncer_nil_action (inactiveSyncers st)
    (with_calls (S (calls st)) st)) as [E2 V2].
  cbn zeta in E2, V2.
  destruct (chooseRandomSyncer (inactiveSyncers st) None _) as [[B|] st2];
    cbn [fst snd] in *; subst st2; st_simpl.
  2:{ split; [done|]. left. split_and!; [by right|done|done|done]. }
  tr_unfold.
  destruct (syncTransitionErr env (S (S (calls st)))) as [e|]; st_simpl.
  { split; [done|]. right. exists A, B. by split_and!. }
  destruct (syncTransitionErr env (S (S (S (calls st))))) as [e|]; st_simpl.
  { split; [done|]. right. exists A, B. by rewrite <-app_assoc. }
  split; [done|]. right. exists A, B. by rewrite <-app_assoc.
Qed.

Lemma promotion_wf s st st' :
  registry_wf st →
  activeSyncers st' = <[peerPub (cfg s) := s]> (activeSyncers st) →
  inactiveSyncers st' = delete (peerPub (cfg s)) (inactiveSyncers st) →
  registry_wf st'.
Proof.
  intros (Ha & Hi & Hd) Ea Ei. unfold registry_wf. rewrite Ea, Ei.
  by apply move_wf.
Qed.

Lemma demotion_wf s st st' :
  registry_wf st →
  activeSyncers st' = delete (peerPub (cfg s)) (activeSyncers st) →
  inactiveSyncers st' = <[peerPub (cfg s) := s]> (inactiveSyncers st) →
  registry_wf st'.
Proof.
  intros (Ha & Hi & Hd) Ea Ei. unfold registry_wf. rewrite Ea, Ei.
  destruct (move_wf (inactiveSyncers st) (activeSyncers st) s)
    as (? & ? & ?); [done|done|by symmetry|].
  split_and!; [done|done|by symmetry].
Qed.

(** In a well-formed registry a syncer of a map sits under its own key,
    and that key is free in the other map. *)
Lemma viable_active_key st s :
  registry_wf st → (∃ k, activeSyncers st !! k = Some s) →
  activeSyncers st !! peerPub (cfg s) = Some s ∧
  inactiveSyncers st !! peerPub (cfg s) = None.
Proof.
  intros (Ha & Hi & Hd) [k Hk].
  assert (peerPub (cfg s) = k) as <- by by apply (Ha k s).
  split; [done|]. by eapply map_disjoint_Some_l.
Qed.

Lemma viable_inactive_key st s :
  registry_wf st → (∃ k, inactiveSyncers st !! k = Some s) →
  inactiveSyncers st !! peerPub (cfg s) = Some s ∧
  activeSyncers st !! peerPub (cfg s) = None.
Proof.
  intros (Ha & Hi & Hd) [k Hk].
  assert (peerPub (cfg s) = k) as <- by by apply (Hi k s).
  split; [done|]. by eapply map_disjoint_Some_r.
Qed.

Lemma rotate_registry st :
  registry_wf st →
  let st' := (rotateActiveSyncerCandidate st).2 in
  registry_wf st' ∧ same_lookup st st' ∧
  (size (activeSyncers st') ≤ size (activeSyncers st))%nat.
Proof.
  intros Hwf st'. destruct (rotate_cases st) as [_ Hc]. fold st' in Hc.
  destruct Hc as [(_ & Hr & _)|(A & B & [HA _] & [HB _] & Hc)].
  { split_and!; [by eapply same_registry_wf|by apply same_registry_lookup|].
    destruct Hr as [-> _]. lia. }
  destruct (viable_active_key st A Hwf HA) as [HA1 HA2].
  destruct (viable_inactive_key st B Hwf HB) as [HB1 HB2].
  destruct (syncTransitionErr env (S (S (calls st)))) as [e|].
  { destruct Hc as (Hr & _).
    split_and!; [by eapply same_registry_wf|by apply same_registry_lookup|].
    destruct Hr as [-> _]. lia. }
  assert (size (delete (peerPub (cfg A)) (activeSyncers st)) < size (activeSyncers st))%nat
    as Hlt by (rewrite <-(size_delete_Some _ _ _ HA1); lia).
  destruct (syncTransitionErr env (S (S (S (calls st))))) as [e|].
  { destruct Hc as (Ea & Ei & _).
    split_and!; [by eapply demotion_wf|by eapply demotion_lookup|].
    rewrite Ea. lia. }
  destruct Hc as (Ea & Ei & _).
  set (mid := with_active (delete (peerPub (cfg A)) (activeSyncers st))
               (with_inactive (<[peerPub (cfg A) := A]> (inactiveSyncers st)) st)).
  assert (registry_wf mid) as Hmid by by eapply (demotion_wf A st).
  assert (same_lookup st mid) as Hl by by eapply (demotion_lookup A st).
  split_and!.
  - by eapply (promotion_wf B mid).
  - etrans; [exact Hl|]. eapply (promotion_lookup B mid); [done| |done|done].
    exists (peerPub (cfg B)). unfold mid. st_simpl.
    rewrite lookup_insert_ne; [done|]. intros E. congruence.
  - rewrite Ea. pose proof (size_insert_le (delete (peerPub (cfg A)) (activeSyncers st))
      (peerPub (cfg B)) B). lia.
Qed.

(** ** The handlers, one by one *)

Lemma handleNewSyncer_unknown peer st :
  gossipSyncer peer st = None →
  let st' := (handleNewSyncer peer st).2 in
  let s := {| addr := length (heap st); cfg := {| peerPub := peer |} |} in
  let passive := orb (bool_decide (Z.of_nat (size (activeSyncers st)) >= NumActiveSyncers))
                     (negb (initialHistoricalSyncCompleted st)) in
  heap st' = heap st ++
    [SyncerFields (if passive then PassiveSync else ActiveSync) chansSynced] ∧
  activeSyncers st' =
    (if passive then activeSyncers st else <[peer := s]> (activeSyncers st)) ∧
  inactiveSyncers st' =
    (if passive then <[peer := s]> (inactiveSyncers st) else inactiveSyncers st) ∧
  initialHistoricalSyncCompleted st' = initialHistoricalSyncCompleted st ∧
  ∃ d, trace st' = trace st ++ ActStart s :: ActCloseDone :: d ∧
       Forall is_historicalSync d.
Proof.
  intros Hg. unfold handleNewSyncer. st_simpl. rewrite Hg. st_simpl.
  destruct (initSyncer_spec peer st) as (Hs & Hv & _ & Ht & Hh & Ha & Hi).
  destruct (initSyncer peer st) as [s1 st1]. cbn [fst snd] in *. subst s1.
  set (st2 := with_trace _ st1).
  destruct (attemptInitialSync_spec
    {| addr := length (heap st); cfg := {| peerPub := peer |} |} st2)
    as ([Ea Ei] & Eh & (d & Ed & Hd) & Ec).
  rewrite Ea, Ei, Eh, Ec, Ed. unfold st2. st_simpl. rewrite Ht.
  split_and!; [done|done|done|apply Hv|].
  exists d. by rewrite <-!app_assoc.
Qed.

Lemma handleNewSyncer_registry peer st :
  registry_wf st →
  let st' := (handleNewSyncer peer st).2 in
  registry_wf st' ∧
  (∀ p, p ≠ peer ∨ is_Some (gossipSyncer p st) →
        gossipSyncer p st' = gossipSyncer p st) ∧
  (Z.of_nat (size (activeSyncers st)) <= NumActiveSyncers →
   Z.of_nat (size (activeSyncers st')) <= NumActiveSyncers).
Proof.
  intros Hwf st'. pose proof Hwf as (Ha & Hi & Hd).
  destruct (gossipSyncer peer st) as [s|] eqn:Hg.
  { unfold st'. rewrite (handleNewSyncer_known peer s st Hg).
    split_and!; [exact Hwf|done|done]. }
  destruct (handleNewSyncer_unknown peer st Hg) as (_ & Ea & Ei & _).
  fold st' in Ea, Ei. apply gossipSyncer_None in Hg as [Hgi Hga].
  assert (∀ p, p ≠ peer ∨ is_Some (gossipSyncer p st) → p ≠ peer) as Hne.
  { intros p [Hp|[x Hx]]; [done|]. intros ->.
    apply gossipSyncer_Some in Hx. intuition congruence. }
  destruct (orb _ _) eqn:Hp.
  - split_and!.
    + unfold registry_wf. rewrite Ea, Ei. split_and!; [done| |].
      * by apply map_Forall_insert_2.
      * by apply map_disjoint_insert_r.
    + intros p Hp'. apply gossipSyncer_ext; rewrite ?Ea, ?Ei; [|done].
      rewrite lookup_insert_ne; [done|]. intros E. by apply (Hne p).
    + by rewrite Ea.
  - apply orb_false_iff in Hp as [Hk _].
    apply bool_decide_eq_false in Hk. split_and!.
    + unfold registry_wf. rewrite Ea, Ei. split_and!; [|done|].
      * by apply map_Forall_insert_2.
      * by apply map_disjoint_insert_l.
    + intros p Hp'. apply gossipSyncer_ext; rewrite ?Ea, ?Ei; [done|].
      rewrite lookup_insert_ne; [done|]. intros E. by apply (Hne p).
    + intros _. rewrite Ea, map_size_insert_None by done. lia.
Qed.

Lemma handleStaleSyncer_registry peer st :
  registry_wf st →
  let st' := (handleStaleSyncer peer st).2 in
  registry_wf st' ∧
  (size (activeSyncers st') ≤ size (activeSyncers st))%nat ∧
  gossipSyncer peer st' = None ∧
  ∀ p, p ≠ peer → gossipSyncer p st' = gossipSyncer p st.
Proof.
  intros Hwf. unfold handleStaleSyncer, ResetSyncedSignal. st_simpl.
  destruct (removeGossipSyncer_registry peer st Hwf) as (Hw & Hs & Hn & Hl).
  set (st1 := (removeGossipSyncer peer st).2) in *.
  assert (∀ st2, same_registry st1 st2 →
    registry_wf st2 ∧
    (size (activeSyncers st2) ≤ size (activeSyncers st))%nat ∧
    gossipSyncer peer st2 = None ∧
    ∀ p, p ≠ peer → gossipSyncer p st2 = gossipSyncer p st) as Hsame.
  { intros st2 Hr. pose proof (same_registry_lookup _ _ Hr) as Hl2.
    split_and!; [by eapply same_registry_wf| |by rewrite Hl2|].
    - destruct Hr as [-> _]. done.
    - intros p Hp. rewrite Hl2. by apply Hl. }
  destruct (initialHistoricalSyncer st1) as [initial|].
  2:{ apply Hsame. by split. }
  case_decide; [apply Hsame; by split|].
  set (st2 := with_trace _ st1).
  destruct (forceHistoricalSync_spec st2) as (Hr & _).
  destruct (forceHistoricalSync st2) as [[s|] st3];
    apply Hsame; destruct Hr as [Ea Ei]; split; st_simpl; by rewrite ?Ea, ?Ei.
Qed.

(** ** One iteration of the loop *)

Lemma handleEvent_registry ev st :
  registry_wf st →
  let st' := (handleEvent ev st).2 in
  registry_wf st' ∧
  (0 <= NumActiveSyncers →
   Z.of_nat (size (activeSyncers st)) <= NumActiveSyncers →
   Z.of_nat (size (activeSyncers st')) <= NumActiveSyncers) ∧
  (∀ p, ev ≠ EvStaleSyncer p → is_Some (gossipSyncer p st) →
        gossipSyncer p st' = gossipSyncer p st).
Proof.
  intros Hwf. destruct ev as [peer|peer| | | |s x]; cbn [handleEvent].
  - destruct (handleNewSyncer_registry peer st Hwf) as (? & ? & ?).
    split_and!; [done|auto|auto].
  - destruct (handleStaleSyncer_registry peer st Hwf) as (? & ? & ? & Hl).
    split_and!; [done|lia|]. intros p Hp _. apply Hl. congruence.
  - destruct (handleInitialHistoricalSyncSignal_registry st) as (Hw & Hl & Hb).
    split_and!; [by apply Hw|done|]. intros p _ _. by apply Hl.
  - destruct (rotate_registry st Hwf) as (? & Hl & ?).
    split_and!; [done|lia|]. intros p _ _. by apply Hl.
  - st_simpl. destruct (forceHistoricalSync_spec st) as (Hr & _).
    pose proof Hr as [Ea _].
    split_and!; [by eapply same_registry_wf|by rewrite Ea|].
    intros p _ _. by apply same_registry_lookup.
  - unfold setSyncState. st_simpl. split_and!; [exact Hwf|done|done].
Qed.

Lemma syncerHandler_snoc evs ev st :
  syncerHandler (evs ++ [ev]) st = (handleEvent ev (syncerHandler evs st)).2.
Proof. unfold syncerHandler. by rewrite foldl_snoc. Qed.

Lemma reachable_step ev st : reachable st → reachable (handleEvent ev st).2.
Proof.
  intros [evs ->]. exists (evs ++ [ev]). by rewrite syncerHandler_snoc.
Qed.

(** Induction over the iterations of the loop. *)
Lemma reachable_ind (P : State → Prop) :
  P newSyncManager →
  (∀ ev st, reachable st → P st → P (handleEvent ev st).2) →
  ∀ st, reachable st → P st.
Proof.
  intros H0 Hstep st [evs ->]. induction evs as [|ev evs IH] using rev_ind.
  - exact H0.
  - rewrite syncerHandler_snoc. apply Hstep; [by exists evs|exact IH].
Qed.

Lemma newSyncManager_wf : registry_wf newSyncManager.
Proof.
  split_and!; [apply map_Forall_empty|apply map_Forall_empty|].
  apply map_disjoint_empty_l.
Qed.

Lemma reachable_wf st : reachable st → registry_wf st.
Proof.
  apply reachable_ind; [apply newSyncManager_wf|].
  intros ev st0 _ Hwf. by apply handleEvent_registry.
Qed.

(** * The properties of the specification *)

(** C2.  For every number [NumActiveSyncers] of active syncers the
    configuration asks for (a natural number: [0 <= NumActiveSyncers]) and
    every finite sequence of events processed by the event loop, the
    [activeSyncers] map never has more than [NumActiveSyncers] entries:
    registration, the promotion loop after the initial historical sync, the
    replacement of a deregistered active syncer and rotation all keep the
    bound. *)
Theorem active_syncers_bounded (evs : list Event) :
  0 <= NumActiveSyncers →
  Z.of_nat (size (activeSyncers (syncerHandler evs newSyncManager)))
    <= NumActiveSyncers.
Proof.
  intros HK.
  assert (∀ st, reachable st →
    Z.of_nat (size (activeSyncers st)) <= NumActiveSyncers) as Hall.
  { apply reachable_ind.
    - cbn [newSyncManager activeSyncers]. by rewrite map_size_empty.
    - intros ev st Hr Hb. apply handleEvent_registry; [by apply reachable_wf|done|done]. }
  apply Hall. by exists evs.
Qed.

(** C3.  After every iteration of the event loop, and hence whenever
    [InitSyncState] or [PruneSyncState] returns, the [activeSyncers] and
    [inactiveSyncers] maps are disjoint: no peer is a key of both, so each
    peer appears in at most one map. *)
Theorem registry_maps_disjoint (evs : list Event) :
  let st := syncerHandler evs newSyncManager in
  activeSyncers st ##ₘ inactiveSyncers st ∧
  (∀ peer, activeSyncers st !! peer = None ∨ inactiveSyncers st !! peer = None) ∧
  (∀ first second peer,
     let st' := (InitSyncState first second peer st).2 in
     activeSyncers st' ##ₘ inactiveSyncers st') ∧
  (∀ first second peer,
     let st' := (PruneSyncState first second peer st).2 in
     activeSyncers st' ##ₘ inactiveSyncers st').
Proof.
  intros st. assert (reachable st) as Hr by by exists evs.
  pose proof (reachable_wf st Hr) as (_ & _ & Hd).
  split_and!; [done| | |].
  - intros peer. destruct (activeSyncers st !! peer) eqn:E; [right|by left].
    by eapply map_disjoint_Some_l.
  - intros first second peer. unfold InitSyncState.
    destruct first; st_simpl; [done|].
    assert (registry_wf (handleNewSyncer peer st).2) as (_ & _ & Hd')
      by apply (reachable_wf _ (reachable_step (EvNewSyncer peer) st Hr)).
    destruct second; st_simpl; [done|]. by destruct (doneClosed _ _).
  - intros first second peer. unfold PruneSyncState.
    destruct first; st_simpl; [done|].
    assert (registry_wf (handleStaleSyncer peer st).2) as (_ & _ & Hd')
      by apply (reachable_wf _ (reachable_step (EvStaleSyncer peer) st Hr)).
    destruct second; st_simpl; [done|]. by destruct (doneClosed _ _).
Qed.

(** C4.  A register-peer event for a peer that is in neither map creates a
    syncer [s] and classifies it:
    - while the initial historical sync has not completed, [s] gets the
      sync type [PassiveSync] and is inserted into [inactiveSyncers],
      however many active slots are free;
    - once it has completed and fewer than [NumActiveSyncers] syncers are
      active, [s] gets [ActiveSync] and is inserted into [activeSyncers];
    - when [NumActiveSyncers] or more syncers are active, [s] is passive. *)
Theorem new_syncer_classification (peer : Vertex) (st : State) :
  activeSyncers st !! peer = None →
  inactiveSyncers st !! peer = None →
  let st' := (handleEvent (EvNewSyncer peer) st).2 in
  let s := {| addr := length (heap st); cfg := {| peerPub := peer |} |} in
  syncStateOf st' s = Some chansSynced ∧
  (initialHistoricalSyncCompleted st = false →
     syncTypeOf st' s = Some PassiveSync ∧
     inactiveSyncers st' = <[peer := s]> (inactiveSyncers st) ∧
     activeSyncers st' = activeSyncers st) ∧
  (initialHistoricalSyncCompleted st = true →
   Z.of_nat (size (activeSyncers st)) < NumActiveSyncers →
     syncTypeOf st' s = Some ActiveSync ∧
     activeSyncers st' = <[peer := s]> (activeSyncers st) ∧
     inactiveSyncers st' = inactiveSyncers st) ∧
  (Z.of_nat (size (activeSyncers st)) >= NumActiveSyncers →
     syncTypeOf st' s = Some PassiveSync ∧
     inactiveSyncers st' = <[peer := s]> (inactiveSyncers st) ∧
     activeSyncers st' = activeSyncers st).
Proof.
  intros Ha Hi st' s.
  assert (gossipSyncer peer st = None) as Hg by by apply gossipSyncer_None.
  destruct (handleNewSyncer_unknown peer st Hg) as (Eh & Ea & Ei & _).
  subst st' s. cbn [handleEvent]. unfold syncTypeOf, syncStateOf.
  rewrite Eh, Ea, Ei. cbn [addr].
  rewrite !list_lookup_middle by done. cbn.
  split_and!; [done| | |].
  - intros ->. by rewrite orb_true_r.
  - intros -> Hlt. rewrite bool_decide_eq_false_2 by lia. done.
  - intros Hge. rewrite bool_decide_eq_true_2 by done. done.
Qed.

(** C6.  [transitionActiveSyncer] and [transitionPassiveSyncer] return what
    [ProcessSyncTransition] returned.  When that is an error, both registry
    maps are exactly as they were: the syncer stays in its map and the
    other map is untouched.  The maps change only when the transition
    succeeded, and then the syncer moves from one map to the other. *)
Theorem failed_transition_leaves_registry (s : GossipSyncer) (st : State) :
  let a := transitionActiveSyncer s st in
  let p := transitionPassiveSyncer s st in
  a.1 = (ProcessSyncTransition s PassiveSync st).1 ∧
  p.1 = (ProcessSyncTransition s ActiveSync st).1 ∧
  match a.1 with
  | Some _ =>
      activeSyncers a.2 = activeSyncers st ∧
      inactiveSyncers a.2 = inactiveSyncers st
  | None =>
      activeSyncers a.2 = delete (peerPub (cfg s)) (activeSyncers st) ∧
      inactiveSyncers a.2 = <[peerPub (cfg s) := s]> (inactiveSyncers st)
  end ∧
  match p.1 with
  | Some _ =>
      activeSyncers p.2 = activeSyncers st ∧
      inactiveSyncers p.2 = inactiveSyncers st
  | None =>
      inactiveSyncers p.2 = delete (peerPub (cfg s)) (inactiveSyncers st) ∧
      activeSyncers p.2 = <[peerPub (cfg s) := s]> (activeSyncers st)
  end.
Proof.
  tr_unfold. destruct (syncTransitionErr env (calls st)); st_simpl; done.
Qed.

(** C10.  A historical-sync tick never changes the registry: whatever the
    syncers answer to [historicalSync], both maps, the sync type and state
    of every syncer and the bootstrap variables are the same before and
    after, and the manager has done nothing but ask for historical syncs. *)
Theorem historical_tick_keeps_registry (st : State) :
  let st' := (handleEvent EvHistoricalSyncTick st).2 in
  activeSyncers st' = activeSyncers st ∧
  inactiveSyncers st' = inactiveSyncers st ∧
  (∀ s, syncTypeOf st' s = syncTypeOf st s) ∧
  heap st' = heap st ∧
  same_vars st st' ∧
  ∃ d, trace st' = trace st ++ d ∧ Forall is_historicalSync d.
Proof.
  cbn [handleEvent]. st_simpl.
  destruct (forceHistoricalSync_spec st) as ([Ea Ei] & Hv & Hh & Ht).
  split_and!; [done|done| |done|done|done].
  intros s. unfold syncTypeOf. by rewrite Hh.
Qed.

Lemma doneClosed_app t d :
  ActCloseDone ∈ d → doneClosed t (t ++ d) = true.
Proof.
  intros Hd. unfold doneClosed. rewrite drop_app_length.
  by apply bool_decide_eq_true.
Qed.

(** C7.  A register-peer event for a peer that already has a syncer in
    either map closes the done channel, so that [InitSyncState] returns nil
    rather than an error, and does nothing else: no syncer is created or
    started, both maps are unchanged, and so are
    [attemptInitialHistoricalSync], [initialHistoricalSyncer],
    [initialHistoricalSyncSignal] and [initialHistoricalSyncCompleted]. *)
Theorem known_peer_registration_is_idempotent (peer : Vertex) (st : State) :
  is_Some (activeSyncers st !! peer) ∨ is_Some (inactiveSyncers st !! peer) →
  let st' := (handleEvent (EvNewSyncer peer) st).2 in
  trace st' = trace st ++ [ActCloseDone] ∧
  activeSyncers st' = activeSyncers st ∧
  inactiveSyncers st' = inactiveSyncers st ∧
  heap st' = heap st ∧
  attemptInitialHistoricalSync st' = attemptInitialHistoricalSync st ∧
  initialHistoricalSyncer st' = initialHistoricalSyncer st ∧
  initialHistoricalSyncSignal st' = initialHistoricalSyncSignal st ∧
  initialHistoricalSyncCompleted st' = initialHistoricalSyncCompleted st ∧
  calls st' = calls st ∧
  InitSyncState caseProceed caseProceed peer st = (Returns None, st').
Proof.
  intros Hk.
  assert (∃ s, gossipSyncer peer st = Some s) as [s Hs].
  { destruct (gossipSyncer peer st) as [s|] eqn:Hg; [by exists s|].
    apply gossipSyncer_None in Hg as [Hi Ha]. rewrite Ha, Hi in Hk.
    destruct Hk as [[? ?]|[? ?]]; done. }
  cbn [handleEvent]. unfold InitSyncState. st_simpl.
  rewrite (handleNewSyncer_known peer s st Hs). st_simpl.
  rewrite doneClosed_app by by left. by split_and!.
Qed.

(** C9.  A deregister event for a peer that is in neither map leaves both
    maps and every syncer as they were, calls [Stop] on no syncer, asks for
    no sync transition (so promotes nobody), and still closes the done
    channel, so that [PruneSyncState] returns. *)
Theorem unknown_peer_deregistration_is_noop (peer : Vertex) (st : State) :
  activeSyncers st !! peer = None →
  inactiveSyncers st !! peer = None →
  let st' := (handleEvent (EvStaleSyncer peer) st).2 in
  activeSyncers st' = activeSyncers st ∧
  inactiveSyncers st' = inactiveSyncers st ∧
  heap st' = heap st ∧
  (∃ d, trace st' = trace st ++ ActCloseDone :: d ∧
        (∀ s, ActStop s ∉ d) ∧
        (∀ s t e, ActSyncTransition s t e ∉ d) ∧
        Forall is_historicalSync d) ∧
  PruneSyncState caseProceed caseProceed peer st = (Returns None, st').
Proof.
  intros Ha Hi.
  assert (gossipSyncer peer st = None) as Hg by by apply gossipSyncer_None.
  assert (∀ d, Forall is_historicalSync d →
    (∀ s, ActStop s ∉ d) ∧ (∀ s t e, ActSyncTransition s t e ∉ d) ∧
    Forall is_historicalSync d) as Hd.
  { intros d Hd. split_and!; [| |done].
    - intros s Hin. by apply (proj1 (Forall_forall _ _) Hd) in Hin.
    - intros s t e Hin. by apply (proj1 (Forall_forall _ _) Hd) in Hin. }
  cbn [handleEvent]. unfold PruneSyncState, handleStaleSyncer, ResetSyncedSignal.
  st_simpl. rewrite (removeGossipSyncer_unknown peer st Hg). st_simpl.
  destruct (initialHistoricalSyncer st) as [initial|]; st_simpl.
  2:{ rewrite doneClosed_app by by left.
      split_and!; [done|done|done| |done].
      exists []. split; [done|]. by apply Hd. }
  case_decide; st_simpl.
  { rewrite doneClosed_app by by left.
    split_and!; [done|done|done| |done].
    exists []. split; [done|]. by apply Hd. }
  set (st1 := with_trace _ st).
  destruct (forceHistoricalSync_spec st1) as ([Ea Ei] & _ & Eh & (d & Ed & Hf)).
  unfold same_heap in Eh.
  destruct (forceHistoricalSync st1) as [[s|] st2]; subst st1; st_simpl;
    rewrite Ed, <-app_assoc; cbn [app];
    rewrite doneClosed_app by (by left);
    (split_and!; [done|done|done| |done]); exists d; (split; [done|by apply Hd]).
Qed.

(** C5.  [rotateActiveSyncerCandidate], in a state the loop can reach.
    - When no active syncer or no inactive syncer is in the [chansSynced]
      state, the registry is left alone: both maps and every syncer are as
      before and the manager has asked nothing of any syncer.
    - When both exist, a viable active syncer [A] and a viable inactive
      syncer [B] are chosen.  [A] is asked first to become passive; the
      answer is the one numbered [calls st + 2], the two ranges having used
      two.  If [A] refuses, that request is all that happened: nothing is
      asked of [B] and the maps are as before.  Otherwise [B] is asked to
      become active.  When both accept, [A] alone has moved from the active
      to the inactive map and [B] alone from the inactive to the active
      one, and both maps have the size they had. *)
Theorem rotation_swaps_one_pair (st : State) :
  reachable st →
  let st' := (handleEvent EvRotateTick st).2 in
  (((∀ s, ¬ viable st (activeSyncers st) s) ∨
    (∀ s, ¬ viable st (inactiveSyncers st) s)) →
     activeSyncers st' = activeSyncers st ∧
     inactiveSyncers st' = inactiveSyncers st ∧
     heap st' = heap st ∧ trace st' = trace st) ∧
  ((∃ a, viable st (activeSyncers st) a) →
   (∃ b, viable st (inactiveSyncers st) b) →
   ∃ A B,
     viable st (activeSyncers st) A ∧ viable st (inactiveSyncers st) B ∧
     activeSyncers st !! peerPub (cfg A) = Some A ∧
     inactiveSyncers st !! peerPub (cfg B) = Some B ∧
     peerPub (cfg A) ≠ peerPub (cfg B) ∧
     match syncTransitionErr env (2 + calls st)%nat with
     | Some e =>
         trace st' = trace st ++ [ActSyncTransition A PassiveSync (Some e)] ∧
         activeSyncers st' = activeSyncers st ∧
         inactiveSyncers st' = inactiveSyncers st
     | None =>
         match syncTransitionErr env (3 + calls st)%nat with
         | Some e =>
             trace st' = trace st ++
               [ActSyncTransition A PassiveSync None;
                ActSyncTransition B ActiveSync (Some e)] ∧
             activeSyncers st' = delete (peerPub (cfg A)) (activeSyncers st) ∧
             inactiveSyncers st' =
               <[peerPub (cfg A) := A]> (inactiveSyncers st)
         | None =>
             trace st' = trace st ++
               [ActSyncTransition A PassiveSync None;
                ActSyncTransition B ActiveSync None] ∧
             activeSyncers st' =
               <[peerPub (cfg B) := B]>
                 (delete (peerPub (cfg A)) (activeSyncers st)) ∧
             inactiveSyncers st' =
               delete (peerPub (cfg B))
                 (<[peerPub (cfg A) := A]> (inactiveSyncers st)) ∧
             size (activeSyncers st') = size (activeSyncers st) ∧
             size (inactiveSyncers st') = size (inactiveSyncers st)
         end
     end).
Proof.
  intros Hr st'. pose proof (reachable_wf st Hr) as Hwf.
  subst st'. cbn [handleEvent Nat.add].
  destruct (rotate_cases st) as [_ Hc]. split.
  - intros Hno. destruct Hc as [(_ & [Ea Ei] & Eh & Et)|(A & B & HA & HB & _)].
    + done.
    + destruct Hno as [Hno|Hno]; [by destruct (Hno A)|by destruct (Hno B)].
  - intros [a Hva] [b Hvb].
    destruct Hc as [([Hno|Hno] & _)|(A & B & HA & HB & Hc)];
      [by destruct (Hno a)|by destruct (Hno b)|].
    exists A, B.
    destruct (viable_active_key st A Hwf (proj1 HA)) as [HA1 HA2].
    destruct (viable_inactive_key st B Hwf (proj1 HB)) as [HB1 HB2].
    assert (peerPub (cfg A) ≠ peerPub (cfg B)) as Hne by (intros E; congruence).
    split_and!; [done|done|done|done|done|].
    destruct (syncTransitionErr env (S (S (calls st)))) as [e|].
    { destruct Hc as ([Ea Ei] & _ & Et). done. }
    destruct (syncTransitionErr env (S (S (S (calls st))))) as [e|].
    { destruct Hc as (Ea & Ei & Et). done. }
    destruct Hc as (Ea & Ei & Et). split_and!; [done|done|done| |].
    + rewrite Ea, map_size_insert_None.
      * by apply (size_delete_Some _ _ A).
      * by rewrite lookup_delete_ne.
    + rewrite Ei.
      assert (<[peerPub (cfg A) := A]> (inactiveSyncers st) !! peerPub (cfg B)
              = Some B) as HB3 by by rewrite lookup_insert_ne.
      pose proof (size_delete_Some _ _ _ HB3) as Hs.
      rewrite map_size_insert_None in Hs by done. lia.
Qed.

(** ** What has been done stays done *)

Lemma trace_grows_weaken Q st st' :
  trace_grows Q st st' → trace_grows (λ _, True) st st'.
Proof.
  intros (d & Ed & _). exists d. split; [done|]. by apply Forall_true.
Qed.

Lemma trace_grows_same Q st st' : trace st' = trace st → trace_grows Q st st'.
Proof. intros E. exists []. split; [by rewrite app_nil_r|constructor]. Qed.

Lemma trace_grows_snoc st a :
  trace_grows (λ _, True) st (with_trace (trace st ++ [a]) st).
Proof. exists [a]. split; [done|]. by apply Forall_true. Qed.

Lemma removeGossipSyncer_trace peer st :
  trace_grows (λ _, True) st (removeGossipSyncer peer st).2.
Proof.
  unfold removeGossipSyncer, Stop. st_simpl.
  destruct (gossipSyncer peer st) as [s|]; st_simpl; [|reflexivity].
  destruct (inactiveSyncers st !! peer); st_simpl.
  - apply (trace_grows_snoc st).
  - set (st1 := with_active _ _).
    etrans; [apply (trace_grows_snoc st (ActStop s))|].
    destruct (promote_spec st1) as (_ & _ & Ht & _).
    apply trace_grows_weaken in Ht. exact Ht.
Qed.

Lemma handleEvent_trace ev st :
  trace_grows (λ _, True) st (handleEvent ev st).2.
Proof.
  destruct ev as [peer|peer| | | |s x]; cbn [handleEvent].
  - destruct (gossipSyncer peer st) as [s|] eqn:Hg.
    + rewrite (handleNewSyncer_known peer s st Hg). apply trace_grows_snoc.
    + destruct (handleNewSyncer_unknown peer st Hg) as (_ & _ & _ & _ & d & Ed & _).
      eexists. split; [exact Ed|]. by apply Forall_true.
  - unfold handleStaleSyncer, ResetSyncedSignal. st_simpl.
    etrans; [apply removeGossipSyncer_trace|].
    set (st1 := (removeGossipSyncer peer st).2).
    etrans; [apply (trace_grows_snoc st1 ActCloseDone)|].
    set (st2 := with_trace _ st1).
    destruct (initialHistoricalSyncer st1) as [initial|]; [|reflexivity].
    case_decide; [reflexivity|].
    destruct (forceHistoricalSync_spec st2) as (_ & _ & _ & Ht).
    apply trace_grows_weaken in Ht.
    destruct (forceHistoricalSync st2) as [[s|] st3];
      (etrans; [exact Ht|by apply trace_grows_same]).
  - unfold handleInitialHistoricalSyncSignal. st_simpl.
    destruct (initialHistoricalSyncSignal st); st_simpl; [|reflexivity].
    case_decide; st_simpl; [by apply trace_grows_same|].
    set (st1 := with_completed _ _).
    destruct (promoteLoop_spec
      (Z.to_nat (NumActiveSyncers - Z.of_nat (size (activeSyncers st)))) st1)
      as (_ & _ & _ & _ & Ht).
    apply trace_grows_weaken in Ht.
    etrans; [|exact Ht]. by apply trace_grows_same.
  - destruct (rotate_cases st) as [_ [(_ & _ & _ & Et)|(A & B & _ & _ & Hc)]].
    + exists []. split; [by rewrite app_nil_r|constructor].
    + destruct (syncTransitionErr env (S (S (calls st)))).
      { destruct Hc as (_ & _ & Et). eexists. split; [exact Et|by apply Forall_true]. }
      destruct (syncTransitionErr env (S (S (S (calls st))))).
      { destruct Hc as (_ & _ & Et). eexists. split; [exact Et|by apply Forall_true]. }
      destruct Hc as (_ & _ & Et). eexists. split; [exact Et|by apply Forall_true].
  - st_simpl. destruct (forceHistoricalSync_spec st) as (_ & _ & _ & Ht).
    by apply trace_grows_weaken in Ht.
  - unfold setSyncState. st_simpl. by apply trace_grows_same.
Qed.

Lemma trace_grows_elem st st' a :
  trace_grows (λ _, True) st st' → a ∈ trace st → a ∈ trace st'.
Proof. intros (d & -> & _) Ha. apply elem_of_app. by left. Qed.

(** ** Lookups across one iteration *)

Lemma handleEvent_lookup_None ev st p :
  registry_wf st →
  gossipSyncer p st = None →
  let st' := (handleEvent ev st).2 in
  gossipSyncer p st' = None ∨
  (ev = EvNewSyncer p ∧
   ∃ s, gossipSyncer p st' = Some s ∧ ActStart s ∈ trace st').
Proof.
  intros Hwf Hn. destruct ev as [peer|peer| | | |s x]; cbn [handleEvent].
  - destruct (decide (p = peer)) as [->|Hne].
    + right. split; [done|].
      destruct (handleNewSyncer_unknown peer st Hn) as (_ & Ea & Ei & _ & d & Ed & _).
      apply gossipSyncer_None in Hn as [Hi Ha].
      exists {| addr := length (heap st); cfg := {| peerPub := peer |} |}. split.
      * apply gossipSyncer_Some. rewrite Ea, Ei. destruct (orb _ _).
        -- left. apply lookup_insert_eq.
        -- right. split; [done|apply lookup_insert_eq].
      * rewrite Ed. apply elem_of_app. right. left.
    + left. destruct (handleNewSyncer_registry peer st Hwf) as (_ & Hl & _).
      rewrite Hl; [done|by left].
  - left. destruct (handleStaleSyncer_registry peer st Hwf) as (_ & _ & Hx & Hl).
    destruct (decide (p = peer)) as [->|Hne]; [done|]. by rewrite Hl.
  - left. destruct (handleInitialHistoricalSyncSignal_registry st) as (_ & Hl & _).
    by rewrite Hl.
  - left. destruct (rotate_registry st Hwf) as (_ & Hl & _). by rewrite Hl.
  - left. st_simpl. destruct (forceHistoricalSync_spec st) as (Hr & _).
    by rewrite (same_registry_lookup _ _ Hr).
  - left. unfold setSyncState. st_simpl. exact Hn.
Qed.

(** Every syncer of the registry has been started, and is stored under the
    public key of its peer. *)
Lemma reachable_started st :
  reachable st →
  ∀ p s, gossipSyncer p st = Some s →
         ActStart s ∈ trace st ∧ peerPub (cfg s) = p.
Proof.
  intros Hr p s Hps. split.
  - revert p s Hps. revert st Hr. apply (reachable_ind
      (λ st, ∀ p s, gossipSyncer p st = Some s → ActStart s ∈ trace st)).
    + intros p s Hs. by apply gossipSyncer_Some in Hs as [Hs|[_ Hs]].
    + intros ev st Hr IH p s Hs. pose proof (reachable_wf st Hr) as Hwf.
      destruct (gossipSyncer p st) as [s0|] eqn:Hg.
      * destruct (decide (ev = EvStaleSyncer p)) as [->|Hne].
        -- cbn [handleEvent] in Hs.
           destruct (handleStaleSyncer_registry p st Hwf) as (_ & _ & Hx & _).
           congruence.
        -- destruct (handleEvent_registry ev st Hwf) as (_ & _ & Hl).
           rewrite Hl, Hg in Hs by done. simplify_eq.
           eapply trace_grows_elem; [apply handleEvent_trace|by eapply IH].
      * destruct (handleEvent_lookup_None ev st p Hwf Hg) as [Hx|(_ & s1 & Hx & Hin)];
          [congruence|]. by simplify_eq.
  - destruct (reachable_wf st Hr) as (Ha & Hi & _).
    apply gossipSyncer_Some in Hps as [Hs|[_ Hs]];
      [by apply (Hi p s)|by apply (Ha p s)].
Qed.

(** A registered peer stays registered, with the same syncer, until it is
    deregistered. *)
Lemma lookup_persists evs st p s :
  registry_wf st →
  gossipSyncer p st = Some s →
  EvStaleSyncer p ∉ evs →
  gossipSyncer p (syncerHandler evs st) = Some s.
Proof.
  revert st. induction evs as [|ev evs IH]; intros st Hwf Hs Hno; [done|].
  cbn [syncerHandler foldl]. apply not_elem_of_cons in Hno as [Hne Hno].
  destruct (handleEvent_registry ev st Hwf) as (Hwf' & _ & Hl).
  apply IH; [done| |done]. rewrite Hl; [done|congruence|by rewrite Hs].
Qed.

Lemma gossipSyncer_registered (passive : bool) peer s st st' :
  inactiveSyncers st !! peer = None →
  activeSyncers st' =
    (if passive then activeSyncers st else <[peer := s]> (activeSyncers st)) →
  inactiveSyncers st' =
    (if passive then <[peer := s]> (inactiveSyncers st) else inactiveSyncers st) →
  gossipSyncer peer st' = Some s.
Proof.
  intros Hi Ea Ei. apply gossipSyncer_Some. rewrite Ea, Ei. destruct passive.
  - left. apply lookup_insert_eq.
  - right. split; [done|apply lookup_insert_eq].
Qed.

Lemma last_points {A} (t : Thread A) st :
  last (st :: points t st) = Some (run t st).2.
Proof.
  revert st. induction t as [a|effect next IH]; intros st; [done|].
  cbn [points run]. rewrite <-IH. done.
Qed.

Lemma newSyncerCase_run peer st :
  run (newSyncerCase peer) st = handleNewSyncer peer st.
Proof.
  unfold newSyncerCase, handleNewSyncer, initSyncer, attemptInitialSync,
    startAndSignal, step.
  cbn [run]. st_simpl.
  destruct (gossipSyncer peer st); [done|]. cbn [run]. st_simpl.
  case_decide; [|destruct (initialHistoricalSyncCompleted _)];
    cbn [run negb]; st_simpl;
    (destruct (attemptInitialHistoricalSync _); cbn [run negb]; st_simpl;
     [|done]);
    unfold historicalSync; st_simpl;
    by destruct (historicalSyncErr env _).
Qed.

Lemma doneClosed_app_false t d :
  ActCloseDone ∉ d → doneClosed t (t ++ d) = false.
Proof.
  intros Hd. unfold doneClosed. rewrite drop_app_length.
  by apply bool_decide_eq_false.
Qed.

Lemma doneClosed_refl t : doneClosed t t = false.
Proof.
  rewrite <-(app_nil_r t) at 2. apply doneClosed_app_false.
  apply not_elem_of_nil.
Qed.

Lemma startAndSignal_points s st :
  let before := with_trace (trace st ++ [ActStart s]) st in
  let closed := with_trace (trace before ++ [ActCloseDone]) before in
  ∃ rest post,
    points (startAndSignal s) st = before :: closed :: rest ∧
    Forall (same_registry st) (closed :: rest) ∧
    (∀ st', last (closed :: rest) = Some st' →
            trace st' = trace closed ++ post) ∧
    Forall is_historicalSync post.
Proof.
  cbv zeta.
  unfold startAndSignal, step, Start, historicalSync, ResetSyncedSignal.
  cbn [points]. st_simpl.
  destruct (attemptInitialHistoricalSync st); cbn [points negb]; st_simpl.
  - destruct (historicalSyncErr env (calls st)) as [e|] eqn:E;
      cbn [points]; st_simpl.
    + eexists _, [ActHistoricalSync s (Some e)]. split; [reflexivity|].
      split_and!.
      * by repeat constructor.
      * intros st' [= <-]. done.
      * by repeat constructor.
    + eexists _, [ActHistoricalSync s None]. split; [reflexivity|].
      split_and!.
      * by repeat constructor.
      * intros st' [= <-]. done.
      * by repeat constructor.
  - eexists [_], []. split; [reflexivity|]. split_and!.
    + by repeat constructor.
    + intros st' [= <-]. by rewrite app_nil_r.
    + constructor.
Qed.

Lemma newSyncerCase_points peer st :
  gossipSyncer peer st = None →
  let s := {| addr := length (heap st); cfg := {| peerPub := peer |} |} in
  ∃ open inserted,
    points (newSyncerCase peer) st =
      open ++ inserted :: points (startAndSignal s) inserted ∧
    Forall (λ mid, trace mid = trace st) (open ++ [inserted]) ∧
    gossipSyncer peer inserted = Some s.
Proof.
  intros Hg s. pose proof Hg as [Hi Ha]%gossipSyncer_None.
  unfold newSyncerCase, step. cbn [points]. st_simpl. rewrite Hg.
  cbn [points]. st_simpl.
  assert ((createGossipSyncer peer st).1 = s) as Es by done.
  assert (trace (createGossipSyncer peer st).2 = trace st) as Et by done.
  assert (activeSyncers (createGossipSyncer peer st).2 = activeSyncers st)
    as Eact by done.
  assert (inactiveSyncers (createGossipSyncer peer st).2 = inactiveSyncers st)
    as Einact by done.
  assert (initialHistoricalSyncCompleted (createGossipSyncer peer st).2 =
          initialHistoricalSyncCompleted st) as Ec by done.
  rewrite Es, Eact, Ec. clear Es.
  set (created := (createGossipSyncer peer st).2) in *.
  assert (∀ t, let typed := (setSyncType s t created).2 in
     trace typed = trace st ∧ activeSyncers typed = activeSyncers st ∧
     inactiveSyncers typed = inactiveSyncers st) as Htyped.
  { intros t. unfold setSyncType. st_simpl. done. }
  case_decide; [|destruct (initialHistoricalSyncCompleted st)];
    cbn [points negb]; st_simpl.
  - destruct (Htyped PassiveSync) as (Ett & Eta & Eti).
    eexists [st; created; created; created; _], _. split; [reflexivity|].
    split.
    + by repeat constructor.
    + eapply (gossipSyncer_registered true); [exact Hi|..]; st_simpl;
        by rewrite ?Eta, ?Eti.
  - destruct (Htyped ActiveSync) as (Ett & Eta & Eti).
    eexists [st; created; created; created; _], _. split; [reflexivity|].
    split.
    + by repeat constructor.
    + eapply (gossipSyncer_registered false); [exact Hi|..]; st_simpl;
        by rewrite ?Eta, ?Eti.
  - destruct (Htyped PassiveSync) as (Ett & Eta & Eti).
    eexists [st; created; created; created; _], _. split; [reflexivity|].
    split.
    + by repeat constructor.
    + eapply (gossipSyncer_registered true); [exact Hi|..]; st_simpl;
        by rewrite ?Eta, ?Eti.
Qed.

(** C8.  Whenever [InitSyncState] returns nil, called in a state the loop
    can reach, the peer has a syncer [s], and the states the handler goes
    through, statement by statement, are such that:
    - the done channel is closed by one statement, which takes the
      handler from the state [before] to the state [closed]; in no state
      up to [before] is it closed;
    - in [before] already [s] has been started and a lookup of the peer
      returns [s];
    - in [closed] and in every state the handler goes through after it,
      down to the state [st'] it leaves, a lookup of the peer returns [s];
      what the handler does after the close is nothing but a request for a
      historical sync;
    - after any further events a lookup of the peer still returns [s], as
      long as none of them deregisters the peer. *)
Theorem registered_peer_is_observable
    (first second : selectCase) (peer : Vertex) (st : State) :
  reachable st →
  (InitSyncState first second peer st).1 = Returns None →
  let st' := (InitSyncState first second peer st).2 in
  ∃ s open before closed rest post,
    peerPub (cfg s) = peer ∧
    st :: points (newSyncerCase peer) st = open ++ before :: closed :: rest ∧
    last (closed :: rest) = Some st' ∧
    Forall (λ mid, doneClosed (trace st) (trace mid) = false)
           (open ++ [before]) ∧
    trace closed = trace before ++ [ActCloseDone] ∧
    ActStart s ∈ trace before ∧
    gossipSyncer peer before = Some s ∧
    Forall (λ mid, gossipSyncer peer mid = Some s) (closed :: rest) ∧
    trace st' = trace closed ++ post ∧
    Forall is_historicalSync post ∧
    ∀ evs, EvStaleSyncer peer ∉ evs →
           gossipSyncer peer (syncerHandler evs st') = Some s.
Proof.
  intros Hr Hret st'. subst st'. unfold InitSyncState in *.
  destruct first; st_simpl; [done|]. destruct second; st_simpl; [done|].
  destruct (doneClosed _ _); st_simpl; [clear Hret|done].
  pose proof (reachable_wf _ (reachable_step (EvNewSyncer peer) st Hr)) as Hwf'.
  cbn [handleEvent] in Hwf'.
  pose proof (last_points (newSyncerCase peer) st) as Hlast.
  rewrite newSyncerCase_run in Hlast.
  destruct (gossipSyncer peer st) as [s|] eqn:Hg.
  - destruct (reachable_started st Hr peer s Hg) as [Hstarted Hpub].
    rewrite (handleNewSyncer_known peer s st Hg) in *. st_simpl.
    exists s, [st], st, (with_trace (trace st ++ [ActCloseDone]) st), [], [].
    unfold newSyncerCase, step. cbn [points]. st_simpl. rewrite Hg.
    cbn [points]. st_simpl.
    split_and!; try done.
    + repeat constructor; apply doneClosed_refl.
    + by repeat constructor.
    + by rewrite app_nil_r.
    + intros evs Hno. by apply lookup_persists.
  - set (s := {| addr := length (heap st); cfg := {| peerPub := peer |} |}).
    destruct (newSyncerCase_points peer st Hg)
      as (open & inserted & Hp & Ht & Hl).
    destruct (startAndSignal_points s inserted)
      as (rest & post & Hp2 & Hreg & Hpost & Hh).
    set (before := with_trace (trace inserted ++ [ActStart s]) inserted) in *.
    set (closed := with_trace (trace before ++ [ActCloseDone]) before) in *.
    fold s in Hp. rewrite Hp2 in Hp. rewrite Hp in Hlast |- *.
    assert (last (closed :: rest) = Some (handleNewSyncer peer st).2) as Hend.
    { rewrite <-Hlast.
      replace (st :: open ++ inserted :: before :: closed :: rest)
        with ((st :: open ++ [inserted; before]) ++ closed :: rest)
        by (cbn [app]; by rewrite <-app_assoc).
      by rewrite last_app_cons. }
    assert (Forall (λ mid, gossipSyncer peer mid = Some s) (closed :: rest))
      as Hlookups.
    { eapply Forall_impl; [exact Hreg|]. intros mid Hmid. cbn beta in *.
      by rewrite (same_registry_lookup inserted mid Hmid peer). }
    assert (gossipSyncer peer (handleNewSyncer peer st).2 = Some s) as Hl'.
    { apply last_Some_elem_of in Hend.
      by apply (proj1 (Forall_forall _ _) Hlookups). }
    apply Forall_app in Ht as [Hopen Hins]. apply (proj1 (Forall_singleton _ _)) in Hins.
    cbn beta in Hins.
    exists s, (st :: open ++ [inserted]), before, closed, rest, post.
    split_and!.
    + done.
    + cbn [app]. by rewrite <-app_assoc.
    + done.
    + cbn [app]. constructor; [apply doneClosed_refl|].
      rewrite <-app_assoc. apply Forall_app. split.
      * eapply Forall_impl; [exact Hopen|]. intros mid ->.
        apply doneClosed_refl.
      * repeat constructor.
        -- rewrite Hins. apply doneClosed_refl.
        -- unfold before. st_simpl. rewrite Hins.
           apply doneClosed_app_false. by intros [=]%list_elem_of_singleton.
    + done.
    + unfold before. st_simpl. apply elem_of_app. right. left.
    + done.
    + done.
    + by apply Hpost.
    + done.
    + intros evs Hno. by apply lookup_persists.
Qed.

(** ** The bootstrap variables *)

Lemma same_vars_bootstrap st st' :
  same_vars st st' → bootstrap_wf st → bootstrap_wf st'.
Proof.
  intros (Ea & Ec & Es & Eg). unfold bootstrap_wf. by rewrite Ea, Ec, Es, Eg.
Qed.

Lemma handleEvent_bootstrap ev st :
  bootstrap_wf st → bootstrap_wf (handleEvent ev st).2.
Proof.
  intros Hb. destruct ev as [peer|peer| | | |s x]; cbn [handleEvent].
  - unfold handleNewSyncer. st_simpl.
    destruct (gossipSyncer peer st); st_simpl; [exact Hb|].
    destruct (initSyncer_spec peer st) as (_ & Hv & _).
    destruct (initSyncer peer st) as [s st1]. cbn [fst snd] in *.
    pose proof (same_vars_bootstrap _ _ Hv Hb) as Hb1.
    unfold attemptInitialSync, ResetSyncedSignal. st_simpl.
    destruct (attemptInitialHistoricalSync st1); st_simpl; [|exact Hb1].
    set (st2 := with_trace _ st1).
    destruct (historicalSync_spec s st2) as (_ & _ & Hv2 & _).
    destruct (historicalSync s st2) as [[e|] st3]; st_simpl.
    + by apply (same_vars_bootstrap st2).
    + by split.
  - unfold handleStaleSyncer, ResetSyncedSignal. st_simpl.
    pose proof (same_vars_bootstrap _ _ (removeGossipSyncer_vars peer st) Hb) as Hb1.
    set (st1 := (removeGossipSyncer peer st).2) in *.
    destruct (initialHistoricalSyncer st1) as [initial|] eqn:Hi; [|exact Hb1].
    case_decide; [exact Hb1|].
    set (st2 := with_trace _ st1).
    destruct (forceHistoricalSync_spec st2) as (_ & (Ea & Ec & Es & Eg) & _).
    destruct (forceHistoricalSync st2) as [[s|] st3]; st_simpl.
    + by split.
    + split; st_simpl.
      * rewrite Es, Eg. apply Hb1.
      * rewrite Es. cbn. by rewrite Hi.
  - unfold handleInitialHistoricalSyncSignal. st_simpl.
    destruct (initialHistoricalSyncSignal st); [|exact Hb].
    st_simpl. set (st1 := with_completed _ _).
    assert (bootstrap_wf st1) as Hb1 by by split.
    case_decide; [exact Hb1|].
    eapply same_vars_bootstrap; [|exact Hb1]. apply promoteLoop_spec.
  - eapply same_vars_bootstrap; [|exact Hb]. apply rotate_cases.
  - st_simpl. eapply same_vars_bootstrap; [|exact Hb].
    apply forceHistoricalSync_spec.
  - unfold setSyncState. st_simpl. exact Hb.
Qed.

(** The half of I6 that the loop maintains. *)
Lemma reachable_bootstrap st : reachable st → bootstrap_wf st.
Proof.
  apply reachable_ind; [by split|].
  intros ev st0 _ Hb. by apply handleEvent_bootstrap.
Qed.

(** * Further properties of the manager *)

(** ** Which peers the registry holds *)

Lemma connected_snoc evs ev peer :
  connected (evs ++ [ev]) peer =
  match ev with
  | EvNewSyncer q => if decide (q = peer) then true else connected evs peer
  | EvStaleSyncer q => if decide (q = peer) then false else connected evs peer
  | _ => connected evs peer
  end.
Proof. unfold connected. by rewrite foldl_snoc. Qed.

Lemma handleEvent_lookup_other ev st peer :
  registry_wf st →
  ev ≠ EvNewSyncer peer → ev ≠ EvStaleSyncer peer →
  is_Some (gossipSyncer peer (handleEvent ev st).2) ↔
  is_Some (gossipSyncer peer st).
Proof.
  intros Hwf Hn Hs. destruct (gossipSyncer peer st) as [s|] eqn:Hg.
  - destruct (handleEvent_registry ev st Hwf) as (_ & _ & Hl).
    rewrite Hl, Hg by (done || by rewrite Hg). done.
  - destruct (handleEvent_lookup_None ev st peer Hwf Hg) as [->|[? _]]; done.
Qed.

(** X1.  The registry holds a syncer for exactly the peers that are
    connected: a lookup of a peer succeeds if and only if the last register
    or deregister event for that peer was a register event, whatever the
    syncers answered and whatever else happened in between. *)
Theorem registry_tracks_connected_peers (evs : list Event) (peer : Vertex) :
  is_Some (gossipSyncer peer (syncerHandler evs newSyncManager)) ↔
  connected evs peer = true.
Proof.
  induction evs as [|ev evs IH] using rev_ind.
  - cbn. split; [intros [s Hs]; done|done].
  - rewrite syncerHandler_snoc, connected_snoc.
    set (st := syncerHandler evs newSyncManager) in *.
    assert (reachable st) as Hr by by exists evs.
    pose proof (reachable_wf st Hr) as Hwf.
    destruct ev as [q|q| | | |s x].
    + case_decide as Hq.
      * subst q. split; [done|intros _]. cbn [handleEvent].
        destruct (gossipSyncer peer st) as [s|] eqn:Hg.
        -- rewrite (handleNewSyncer_known peer s st Hg). st_simpl.
           change (is_Some (gossipSyncer peer st)). by rewrite Hg.
        -- destruct (handleNewSyncer_unknown peer st Hg) as (_ & Ea & Ei & _).
           apply gossipSyncer_None in Hg as [Hi _].
           erewrite gossipSyncer_registered; done.
      * rewrite handleEvent_lookup_other by (done || congruence). done.
    + case_decide as Hq.
      * subst q. cbn [handleEvent].
        destruct (handleStaleSyncer_registry peer st Hwf) as (_ & _ & -> & _).
        split; [intros [? ?]; done|done].
      * rewrite handleEvent_lookup_other by (done || congruence). done.
    + by rewrite handleEvent_lookup_other.
    + by rewrite handleEvent_lookup_other.
    + by rewrite handleEvent_lookup_other.
    + by rewrite handleEvent_lookup_other.
Qed.

(** ** The snapshot of [GossipSyncers] *)

(** X2.  In every state the loop can reach, the map returned by
    [GossipSyncers] holds, for every peer, the syncer that [GossipSyncer]
    returns for it, and nothing else: it is the union of the two maps and
    has as many entries as both together. *)
Theorem gossipSyncers_is_the_registry (st : State) :
  reachable st →
  (∀ peer, gossipSyncers st !! peer = gossipSyncer peer st) ∧
  size (gossipSyncers st) =
    (size (activeSyncers st) + size (inactiveSyncers st))%nat.
Proof.
  intros Hr. destruct (reachable_wf st Hr) as (Ha & Hi & Hd).
  rewrite gossipSyncers_union by done. split.
  - intros peer. unfold gossipSyncer. rewrite lookup_union.
    destruct (activeSyncers st !! peer) as [s|] eqn:Ea.
    + rewrite (map_disjoint_Some_l _ _ _ _ Hd Ea). done.
    + destruct (inactiveSyncers st !! peer); done.
  - by apply map_size_disj_union.
Qed.

(** ** The barrier of the initial historical sync *)

Lemma handleEvent_completed ev st :
  initialHistoricalSyncCompleted (handleEvent ev st).2 =
    initialHistoricalSyncCompleted st ∨
  (ev = EvInitialHistoricalSyncSignal ∧
   is_Some (initialHistoricalSyncSignal st) ∧
   initialHistoricalSyncCompleted (handleEvent ev st).2 = true).
Proof.
  destruct ev as [peer|peer| | | |s x]; cbn [handleEvent].
  - left. destruct (gossipSyncer peer st) as [s|] eqn:Hg.
    + by rewrite (handleNewSyncer_known peer s st Hg).
    + by destruct (handleNewSyncer_unknown peer st Hg) as (_ & _ & _ & Ec & _).
  - left. unfold handleStaleSyncer, ResetSyncedSignal. st_simpl.
    destruct (removeGossipSyncer_vars peer st) as (_ & Ec & _).
    set (st1 := (removeGossipSyncer peer st).2) in *.
    destruct (initialHistoricalSyncer st1) as [initial|]; [|exact Ec].
    case_decide; [exact Ec|].
    set (st2 := with_trace _ st1).
    destruct (forceHistoricalSync_spec st2) as (_ & (_ & Ec2 & _) & _).
    destruct (forceHistoricalSync st2) as [[s|] st3]; st_simpl;
      by rewrite Ec2.
  - unfold handleInitialHistoricalSyncSignal. st_simpl.
    destruct (initialHistoricalSyncSignal st) as [g|]; [|by left].
    right. split; [done|]. split; [done|]. st_simpl.
    case_decide; [done|].
    set (st1 := with_completed _ _).
    destruct (promoteLoop_spec
      (Z.to_nat (NumActiveSyncers - Z.of_nat (size (activeSyncers st)))) st1)
      as ((_ & Ec & _) & _).
    by rewrite Ec.
  - left. apply rotate_cases.
  - left. st_simpl. apply forceHistoricalSync_spec.
  - left. by unfold setSyncState.
Qed.

(** X3.  [initialHistoricalSyncCompleted] never goes back: once the
    initial historical sync has completed it stays completed, whatever
    events follow. *)
Theorem initial_sync_stays_completed (evs : list Event) (st : State) :
  initialHistoricalSyncCompleted st = true →
  initialHistoricalSyncCompleted (syncerHandler evs st) = true.
Proof.
  revert st. induction evs as [|ev evs IH]; intros st Hc; [done|].
  cbn [syncerHandler foldl]. apply IH.
  destruct (handleEvent_completed ev st) as [->|(_ & _ & ?)]; done.
Qed.

Lemma handleEvent_no_active ev st :
  activeSyncers st = ∅ →
  initialHistoricalSyncCompleted st = false →
  activeSyncers (handleEvent ev st).2 = ∅ ∨
  initialHistoricalSyncCompleted (handleEvent ev st).2 = true.
Proof.
  intros Ha Hc. destruct ev as [peer|peer| | | |s x]; cbn [handleEvent].
  - left. destruct (gossipSyncer peer st) as [s|] eqn:Hg.
    + by rewrite (handleNewSyncer_known peer s st Hg).
    + destruct (handleNewSyncer_unknown peer st Hg) as (_ & Ea & _).
      rewrite Ea, Hc, orb_true_r. done.
  - left. unfold handleStaleSyncer, ResetSyncedSignal. st_simpl.
    assert (activeSyncers (removeGossipSyncer peer st).2 = ∅) as Ha1.
    { unfold removeGossipSyncer, Stop. st_simpl.
      destruct (gossipSyncer peer st) as [s|] eqn:Hg; st_simpl; [|done].
      destruct (inactiveSyncers st !! peer) eqn:Hi; st_simpl; [done|].
      apply gossipSyncer_Some in Hg as [Hg|[_ Hg]]; [congruence|].
      by rewrite Ha, lookup_empty in Hg. }
    set (st1 := (removeGossipSyncer peer st).2) in *.
    destruct (initialHistoricalSyncer st1) as [initial|]; [|exact Ha1].
    case_decide; [exact Ha1|].
    set (st2 := with_trace _ st1).
    destruct (forceHistoricalSync_spec st2) as ((Ea2 & _) & _).
    destruct (forceHistoricalSync st2) as [[s|] st3]; st_simpl;
      by rewrite Ea2.
  - destruct (handleEvent_completed EvInitialHistoricalSyncSignal st)
      as [Hs|(_ & _ & Hs)]; [|by right].
    left. cbn [handleEvent] in Hs. revert Hs.
    unfold handleInitialHistoricalSyncSignal. st_simpl.
    destruct (initialHistoricalSyncSignal st) as [g|]; [|done].
    st_simpl. case_decide; st_simpl; [by rewrite Hc|].
    set (st1 := with_completed _ _).
    destruct (promoteLoop_spec
      (Z.to_nat (NumActiveSyncers - Z.of_nat (size (activeSyncers st)))) st1)
      as ((_ & Ec & _) & _).
    rewrite Ec, Hc. done.
  - left. destruct (rotate_cases st) as [_ [(_ & [Ea _] & _)|(A & B & [[k HA] _] & _)]].
    + by rewrite Ea.
    + by rewrite Ha, lookup_empty in HA.
  - left. st_simpl. destruct (forceHistoricalSync_spec st) as ((Ea & _) & _).
    by rewrite Ea.
  - left. by unfold setSyncState.
Qed.

(** X4.  As long as the initial historical sync has not completed, no
    syncer is active: in every state the loop can reach with
    [initialHistoricalSyncCompleted] false, the [activeSyncers] map is
    empty, so that every registered syncer is in [inactiveSyncers]. *)
Theorem no_active_syncer_before_completion (st : State) :
  reachable st →
  initialHistoricalSyncCompleted st = false →
  activeSyncers st = ∅ ∧
  ∀ peer s, gossipSyncer peer st = Some s → inactiveSyncers st !! peer = Some s.
Proof.
  intros Hr Hc.
  assert (activeSyncers st = ∅) as Ha.
  { revert st Hr Hc. apply (reachable_ind
      (λ st, initialHistoricalSyncCompleted st = false → activeSyncers st = ∅)).
    - done.
    - intros ev st Hr IH Hc.
      destruct (handleEvent_completed ev st) as [Ec|(_ & _ & Ec)]; [|congruence].
      rewrite Ec in Hc.
      destruct (handleEvent_no_active ev st (IH Hc) Hc); [done|congruence]. }
  split; [done|]. intros peer s [Hs|[_ Hs]]%gossipSyncer_Some; [done|].
  by rewrite Ha, lookup_empty in Hs.
Qed.

(** ** Starts and stops *)

#[local] Instance same_heap_length_preorder : PreOrder same_heap_length.
Proof.
  split; [by intros st|]. unfold same_heap_length.
  intros st1 st2 st3 ??. congruence.
Qed.

Lemma starts_app s t d : starts s (t ++ d) = (starts s t + starts s d)%nat.
Proof. unfold starts. by rewrite filter_app, length_app. Qed.

Lemma stops_app s t d : stops s (t ++ d) = (stops s t + stops s d)%nat.
Proof. unfold stops. by rewrite filter_app, length_app. Qed.

Lemma quiet_counts s d :
  Forall quiet d → starts s d = 0%nat ∧ stops s d = 0%nat.
Proof.
  unfold starts, stops. induction 1 as [|a d Ha _ [IH1 IH2]]; [done|].
  rewrite !filter_cons. destruct a; try done; repeat case_decide; done.
Qed.

Lemma counts_cons_start s s' d :
  starts s (ActStart s' :: d) =
    ((if decide (s' = s) then 1 else 0) + starts s d)%nat ∧
  stops s (ActStart s' :: d) = stops s d.
Proof.
  unfold starts, stops. rewrite !filter_cons.
  repeat case_decide; simplify_eq; done.
Qed.

Lemma counts_cons_stop s s' d :
  stops s (ActStop s' :: d) =
    ((if decide (s' = s) then 1 else 0) + stops s d)%nat ∧
  starts s (ActStop s' :: d) = starts s d.
Proof.
  unfold starts, stops. rewrite !filter_cons.
  repeat case_decide; simplify_eq; done.
Qed.

Lemma trace_grows_impl (Q Q' : Action → Prop) st st' :
  (∀ a, Q a → Q' a) → trace_grows Q st st' → trace_grows Q' st st'.
Proof.
  intros HQ (d & Ed & Hd). exists d. split; [done|].
  by eapply Forall_impl.
Qed.

Lemma syncTransition_quiet a : is_syncTransition a → quiet a.
Proof. by destruct a. Qed.

Lemma historicalSync_quiet a : is_historicalSync a → quiet a.
Proof. by destruct a. Qed.

Lemma transitionPassiveSyncer_heap_length s st :
  same_heap_length st (transitionPassiveSyncer s st).2.
Proof.
  destruct (transitionPassiveSyncer_spec s st) as (_ & _ & _ & _ & Hr).
  unfold same_heap_length. destruct (transitionPassiveSyncer s st).1.
  - destruct Hr as [_ ->]. done.
  - destruct Hr as (_ & _ & ->). apply length_alter.
Qed.

Lemma transitionActiveSyncer_heap_length s st :
  same_heap_length st (transitionActiveSyncer s st).2.
Proof.
  destruct (transitionActiveSyncer_spec s st) as (_ & _ & _ & _ & Hr).
  unfold same_heap_length. destruct (transitionActiveSyncer s st).1.
  - destruct Hr as [_ ->]. done.
  - destruct Hr as (_ & _ & ->). apply length_alter.
Qed.

Lemma promote_heap_length st :
  same_heap_length st (chooseRandomSyncer (inactiveSyncers st)
                         (Some transitionPassiveSyncer) st).2.
Proof.
  apply chooseRandomSyncer_frame; [apply _|done|].
  apply transitionPassiveSyncer_heap_length.
Qed.

Lemma promoteLoop_heap_length n st :
  same_heap_length st (promoteLoop n st).2.
Proof.
  revert st. induction n as [|n IH]; intros st; cbn [promoteLoop]; st_simpl.
  - done.
  - etrans; [apply (promote_heap_length st)|apply IH].
Qed.

Lemma rotate_heap_length st :
  same_heap_length st (rotateActiveSyncerCandidate st).2.
Proof.
  unfold rotateActiveSyncerCandidate. st_simpl.
  pose proof (chooseRandomSyncer_nil_action (activeSyncers st) st) as [E1 _].
  cbn zeta in E1.
  destruct (chooseRandomSyncer (activeSyncers st) None st) as [[A|] st1];
    cbn [fst snd] in *; subst st1; st_simpl; [|done].
  pose proof (chooseRandomSyncer_nil_action (inactiveSyncers st)
    (with_calls (S (calls st)) st)) as [E2 _].
  cbn zeta in E2.
  destruct (chooseRandomSyncer (inactiveSyncers st) None _) as [[B|] st2];
    cbn [fst snd] in *; subst st2; st_simpl; [|done].
  set (st2 := with_calls _ _).
  pose proof (transitionActiveSyncer_heap_length A st2) as H1.
  destruct (transitionActiveSyncer A st2) as [[e|] st3]; st_simpl;
    [unfold same_heap_length in *; subst st2; st_simpl; congruence|].
  pose proof (transitionPassiveSyncer_heap_length B st3) as H2.
  destruct (transitionPassiveSyncer B st3) as [r st4]; st_simpl.
  unfold same_heap_length in *. subst st2. st_simpl. congruence.
Qed.

(** What [removeGossipSyncer] does to a syncer: one [Stop], for the syncer
    it removes. *)
Lemma removeGossipSyncer_lifecycle peer st :
  let st' := (removeGossipSyncer peer st).2 in
  same_heap_length st st' ∧
  match gossipSyncer peer st with
  | None => trace st' = trace st
  | Some s => ∃ d, trace st' = trace st ++ ActStop s :: d ∧ Forall quiet d
  end.
Proof.
  unfold removeGossipSyncer, Stop. st_simpl.
  destruct (gossipSyncer peer st) as [s|]; st_simpl; [|done].
  destruct (inactiveSyncers st !! peer); st_simpl.
  - split; [done|]. by exists [].
  - set (st1 := with_active _ _).
    pose proof (promote_heap_length st1) as Hh.
    destruct (promote_spec st1) as (_ & _ & (d & Ed & Hd) & _).
    change (inactiveSyncers st1) with (inactiveSyncers st) in *.
    split; [exact Hh|]. exists d. split.
    + rewrite Ed. unfold st1. st_simpl. by rewrite <-app_assoc.
    + eapply Forall_impl; [exact Hd|apply syncTransition_quiet].
Qed.

Lemma handleStaleSyncer_lifecycle peer st :
  let st' := (handleStaleSyncer peer st).2 in
  same_heap_length st st' ∧
  match gossipSyncer peer st with
  | None => trace_grows quiet st st'
  | Some s => ∃ d, trace st' = trace st ++ ActStop s :: d ∧ Forall quiet d
  end.
Proof.
  unfold handleStaleSyncer, ResetSyncedSignal. st_simpl.
  destruct (removeGossipSyncer_lifecycle peer st) as [Hh Ht].
  set (st1 := (removeGossipSyncer peer st).2) in *.
  assert (∀ st2, same_heap_length st1 st2 →
    trace_grows quiet (with_trace (trace st1 ++ [ActCloseDone]) st1) st2 →
    same_heap_length st st2 ∧
    match gossipSyncer peer st with
    | None => trace_grows quiet st st2
    | Some s => ∃ d, trace st2 = trace st ++ ActStop s :: d ∧ Forall quiet d
    end) as Hrest.
  { intros st2 Hh2 (d2 & Ed2 & Hd2). split; [by etrans|]. st_simpl.
    destruct (gossipSyncer peer st) as [s|].
    - destruct Ht as (d & Ed & Hd). exists (d ++ ActCloseDone :: d2). split.
      + rewrite Ed2, Ed. by rewrite <-!app_assoc.
      + apply Forall_app. split; [done|]. by constructor.
    - exists (ActCloseDone :: d2). split.
      + rewrite Ed2, Ht. by rewrite <-app_assoc.
      + by constructor. }
  destruct (initialHistoricalSyncer st1) as [initial|].
  2:{ apply Hrest; [done|]. by apply trace_grows_same. }
  case_decide; [apply Hrest; [done|by apply trace_grows_same]|].
  set (st2 := with_trace _ st1).
  destruct (forceHistoricalSync_spec st2) as (_ & _ & Eh & Ht2).
  apply (trace_grows_impl _ quiet) in Ht2; [|apply historicalSync_quiet].
  unfold same_heap in Eh.
  destruct (forceHistoricalSync st2) as [[s|] st3]; cbn [fst snd] in *;
    (apply Hrest;
     [unfold same_heap_length; st_simpl; by rewrite Eh
     |etrans; [exact Ht2|by apply trace_grows_same]]).
Qed.

(** One iteration either starts and stops nothing, or registers a syncer
    and starts it, or removes one and stops it. *)
Lemma handleEvent_lifecycle ev st :
  registry_wf st →
  let st' := (handleEvent ev st).2 in
  (trace_grows quiet st st' ∧ same_heap_length st st' ∧ same_lookup st st') ∨
  (∃ peer d,
     let s := {| addr := length (heap st); cfg := {| peerPub := peer |} |} in
     gossipSyncer peer st = None ∧
     trace st' = trace st ++ ActStart s :: d ∧ Forall quiet d ∧
     length (heap st') = S (length (heap st)) ∧
     gossipSyncer peer st' = Some s ∧
     ∀ p, p ≠ peer → gossipSyncer p st' = gossipSyncer p st) ∨
  (∃ peer s d,
     gossipSyncer peer st = Some s ∧
     trace st' = trace st ++ ActStop s :: d ∧ Forall quiet d ∧
     same_heap_length st st' ∧
     gossipSyncer peer st' = None ∧
     ∀ p, p ≠ peer → gossipSyncer p st' = gossipSyncer p st).
Proof.
  intros Hwf. destruct ev as [peer|peer| | | |s x]; cbn [handleEvent].
  - destruct (gossipSyncer peer st) as [s|] eqn:Hg.
    + left. rewrite (handleNewSyncer_known peer s st Hg). st_simpl.
      split_and!; [|done|done]. exists [ActCloseDone]. split; [done|].
      by repeat constructor.
    + right. left.
      destruct (handleNewSyncer_unknown peer st Hg) as (Eh & Ea & Ei & _ & d & Ed & Hd).
      destruct (handleNewSyncer_registry peer st Hwf) as (_ & Hl & _).
      exists peer, (ActCloseDone :: d). cbn zeta. split_and!.
      * done.
      * done.
      * constructor; [done|]. eapply Forall_impl; [exact Hd|apply historicalSync_quiet].
      * rewrite Eh, length_app. cbn. lia.
      * apply gossipSyncer_None in Hg as [Hi _].
        by eapply gossipSyncer_registered.
      * intros p Hp. apply Hl. by left.
  - destruct (handleStaleSyncer_lifecycle peer st) as [Hh Ht].
    destruct (handleStaleSyncer_registry peer st Hwf) as (_ & _ & Hn & Hl).
    destruct (gossipSyncer peer st) as [s|] eqn:Hg.
    + right. right. destruct Ht as (d & Ed & Hd). by exists peer, s, d.
    + left. split_and!; [done|done|]. intros p.
      destruct (decide (p = peer)) as [->|Hp]; [congruence|by apply Hl].
  - left. destruct (handleInitialHistoricalSyncSignal_registry st) as (_ & Hl & _).
    split_and!; [| |by apply Hl].
    + unfold handleInitialHistoricalSyncSignal. st_simpl.
      destruct (initialHistoricalSyncSignal st); st_simpl; [|reflexivity].
      case_decide; st_simpl; [by apply trace_grows_same|].
      set (st1 := with_completed _ _).
      destruct (promoteLoop_spec
        (Z.to_nat (NumActiveSyncers - Z.of_nat (size (activeSyncers st)))) st1)
        as (_ & _ & _ & _ & Ht).
      apply (trace_grows_impl _ quiet) in Ht; [|apply syncTransition_quiet].
      etrans; [|exact Ht]. by apply trace_grows_same.
    + unfold handleInitialHistoricalSyncSignal. st_simpl.
      destruct (initialHistoricalSyncSignal st); st_simpl; [|reflexivity].
      case_decide; st_simpl; [done|].
      set (st1 := with_completed _ _).
      apply (promoteLoop_heap_length _ st1).
  - left. destruct (rotate_registry st Hwf) as (_ & Hl & _).
    split_and!; [|apply rotate_heap_length|done].
    destruct (rotate_cases st) as [_ [(_ & _ & _ & Et)|(A & B & _ & _ & Hc)]].
    + by apply trace_grows_same.
    + destruct (syncTransitionErr env (S (S (calls st)))).
      { destruct Hc as (_ & _ & Et). eexists. split; [exact Et|by repeat constructor]. }
      destruct (syncTransitionErr env (S (S (S (calls st))))).
      { destruct Hc as (_ & _ & Et). eexists. split; [exact Et|by repeat constructor]. }
      destruct Hc as (_ & _ & Et). eexists. split; [exact Et|by repeat constructor].
  - left. st_simpl. destruct (forceHistoricalSync_spec st) as (Hr & _ & Eh & Ht).
    split_and!.
    + eapply trace_grows_impl; [apply historicalSync_quiet|done].
    + unfold same_heap_length. by rewrite Eh.
    + by apply same_registry_lookup.
  - left. unfold setSyncState. st_simpl. split_and!.
    + by apply trace_grows_same.
    + unfold same_heap_length. st_simpl. apply length_alter.
    + done.
Qed.

Lemma handleEvent_lifecycle_wf ev st :
  registry_wf st → lifecycle_wf st → lifecycle_wf (handleEvent ev st).2.
Proof.
  intros Hwf Hl s. destruct (Hl s) as (Hreg & Hnot & Hle & Hall).
  destruct (handleEvent_lifecycle ev st Hwf)
    as [((d & Ed & Hd) & Hh & Hlk)
       |[(peer & d & Hg & Ed & Hd & Hh & Hnew & Hlk)
        |(peer & s0 & d & Hg & Ed & Hd & Hh & Hgone & Hlk)]].
  - unfold registered. rewrite Ed, Hlk, Hh, starts_app, stops_app.
    destruct (quiet_counts s d Hd) as [-> ->]. rewrite !Nat.add_0_r. done.
  - cbn zeta in *.
    set (s1 := {| addr := length (heap st); cfg := {| peerPub := peer |} |}) in *.
    rewrite Ed, Hh, starts_app, stops_app.
    destruct (counts_cons_start s s1 d) as [-> ->].
    destruct (quiet_counts s d Hd) as [-> ->]. rewrite !Nat.add_0_r.
    destruct (Hl s1) as (Hreg1 & Hnot1 & _ & Hall1).
    assert (starts s1 (trace st) = 0%nat) as Hs1.
    { destruct (starts s1 (trace st)) eqn:E; [done|].
      assert (addr s1 < length (heap st))%nat by (apply Hall1; lia).
      cbn in *. lia. }
    assert (stops s1 (trace st) = 0%nat) as Hp1.
    { rewrite Hnot1; [done|]. unfold registered. cbn. by rewrite Hg. }
    case_decide as Hs.
    + subst s. rewrite Hs1, Hp1. unfold registered. cbn [s1 cfg peerPub addr].
      split_and!; [done|by rewrite Hnew|lia|lia].
    + assert (registered (handleEvent ev st).2 s ↔ registered st s) as Hiff.
      { unfold registered. destruct (decide (peerPub (cfg s) = peer)) as [Hp|Hp].
        - rewrite Hp, Hnew, Hg. split; intros ?; simplify_eq.
        - by rewrite Hlk. }
      rewrite Hiff, !Nat.add_0_r.
      split_and!; [done|done|done|]. intros ?. apply Nat.lt_lt_succ_r. by apply Hall.
  - assert (peerPub (cfg s0) = peer) as Hp0.
    { destruct Hwf as (Ha & Hi & _).
      apply gossipSyncer_Some in Hg as [Hg|[_ Hg]];
        [by apply (Hi peer s0)|by apply (Ha peer s0)]. }
    rewrite Ed, Hh, starts_app, stops_app.
    destruct (counts_cons_stop s s0 d) as [-> ->].
    destruct (quiet_counts s d Hd) as [-> ->]. rewrite !Nat.add_0_r.
    case_decide as Hs.
    + subst s. destruct Hreg as [Hs0 Hp]; [unfold registered; by rewrite Hp0|].
      rewrite Hs0, Hp. unfold registered. rewrite Hp0, Hgone.
      split_and!; [done|done|lia|intros _; apply Hall; lia].
    + assert (registered (handleEvent ev st).2 s ↔ registered st s) as Hiff.
      { unfold registered. destruct (decide (peerPub (cfg s) = peer)) as [Hp|Hp].
        - rewrite Hp, Hgone, Hg. split; intros ?; simplify_eq.
        - by rewrite Hlk. }
      rewrite Hiff, !Nat.add_0_r. done.
Qed.

Lemma reachable_lifecycle st : reachable st → lifecycle_wf st.
Proof.
  apply reachable_ind.
  - intros s. unfold registered. cbn. split_and!; [done|done|lia|lia].
  - intros ev st0 Hr Hl. apply handleEvent_lifecycle_wf; [by apply reachable_wf|done].
Qed.

(** X5.  In every state the loop can reach, no syncer has been started or
    stopped twice, none has been stopped without having been started, and
    the registry holds a syncer exactly when it has been started and not
    stopped: a removed syncer has had its one [Stop]. *)
Theorem syncers_started_and_stopped_once (st : State) (s : GossipSyncer) :
  reachable st →
  (starts s (trace st) ≤ 1)%nat ∧
  (stops s (trace st) ≤ starts s (trace st))%nat ∧
  (registered st s ↔ starts s (trace st) = 1%nat ∧ stops s (trace st) = 0%nat).
Proof.
  intros Hr. destruct (reachable_lifecycle st Hr s) as (Hreg & Hnot & Hle & _).
  destruct (decide (gossipSyncer (peerPub (cfg s)) st = Some s)) as [Hs|Hs];
    fold (registered st s) in Hs.
  - destruct (Hreg Hs) as [E1 E2]. rewrite E1, E2. split_and!; [lia|lia|done].
  - rewrite (Hnot Hs). split_and!; [done|lia|].
    split; [done|]. intros [E1 E2]. lia.
Qed.

(** ** Stopping the manager *)

Lemma stopEach_spec l st :
  let st' := (stopEach l st).2 in
  trace st' = trace st ++ (ActStop <$> l) ∧
  same_registry st st' ∧ same_vars st st' ∧ same_heap st st'.
Proof.
  revert st. induction l as [|s l IH]; intros st; cbn [stopEach].
  - st_simpl. by rewrite app_nil_r.
  - unfold Stop. st_simpl.
    destruct (IH (with_trace (trace st ++ [ActStop s]) st)) as (Et & Hr & Hv & Hh).
    split_and!; [|done|done|done].
    rewrite Et. st_simpl. by rewrite <-app_assoc.
Qed.

Lemma stopSyncers_spec st :
  let st' := (stopSyncers st).2 in
  same_registry st st' ∧ same_vars st st' ∧ same_heap st st' ∧
  ∃ l1 l2,
    l1 ≡ₚ (map_to_list (inactiveSyncers st)).*2 ∧
    l2 ≡ₚ (map_to_list (activeSyncers st)).*2 ∧
    trace st' = trace st ++ (ActStop <$> l1) ++ (ActStop <$> l2).
Proof.
  unfold stopSyncers. st_simpl.
  set (l1 := shuffle _ (map_to_list (inactiveSyncers st)).*2).
  set (st0 := with_calls _ st).
  destruct (stopEach_spec l1 st0) as (Et1 & [Ea1 Ei1] & Hv1 & Hh1).
  set (st1 := (stopEach l1 st0).2) in *.
  set (l2 := shuffle _ (map_to_list (activeSyncers st1)).*2).
  set (st2 := with_calls _ st1).
  destruct (stopEach_spec l2 st2) as (Et2 & [Ea2 Ei2] & Hv2 & Hh2).
  split_and!.
  - split; [by rewrite Ea2|by rewrite Ei2].
  - etrans; [exact Hv1|exact Hv2].
  - etrans; [exact Hh1|exact Hh2].
  - exists l1, l2. split_and!.
    + apply shuffle_Permutation.
    + unfold l2. rewrite shuffle_Permutation. by rewrite Ea1.
    + rewrite Et2. unfold st2. st_simpl. rewrite Et1. unfold st0. st_simpl.
      by rewrite <-app_assoc.
Qed.

Lemma counts_fmap_stop s l :
  stops s (ActStop <$> l) = length (filter (λ x, x = s) l) ∧
  starts s (ActStop <$> l) = 0%nat.
Proof.
  unfold stops, starts. induction l as [|x l [IH1 IH2]]; [done|].
  rewrite fmap_cons, !filter_cons.
  repeat case_decide; simplify_eq; cbn; by rewrite ?IH1, ?IH2.
Qed.

(** A syncer occurs once among the values of a map that holds it, and not
    at all otherwise. *)
Lemma count_values (m : gmap Vertex GossipSyncer) s :
  own_key m →
  length (filter (λ x, x = s) (map_to_list m).*2) =
  if decide (m !! peerPub (cfg s) = Some s) then 1%nat else 0%nat.
Proof.
  induction m as [|k x m Hk IH] using map_ind.
  - intros _. rewrite map_to_list_empty, lookup_empty. by case_decide.
  - intros Hown. apply map_Forall_insert in Hown as [Hx Hown]; [|done].
    rewrite map_to_list_insert by done. rewrite fmap_cons, filter_cons.
    cbn [snd]. specialize (IH Hown).
    destruct (decide (x = s)) as [->|Hxs].
    + cbn [length]. rewrite IH, Hx, lookup_insert_eq, Hk.
      repeat case_decide; simplify_eq; done.
    + rewrite IH. destruct (decide (peerPub (cfg s) = k)) as [<-|Hne].
      * rewrite lookup_insert_eq, Hk.
        repeat case_decide; simplify_eq; done.
      * rewrite lookup_insert_ne by done. done.
Qed.

Lemma count_Permutation (l l' : list GossipSyncer) s :
  l ≡ₚ l' →
  length (filter (λ x, x = s) l) = length (filter (λ x, x = s) l').
Proof. by intros ->. Qed.

(** X6.  [Stop] stops every syncer the registry still holds, and no
    other: after it, every syncer that has ever been started has been
    stopped exactly once, whether it was removed by a deregister event
    before or stopped now.  A second [Stop] does nothing, so no syncer is
    stopped twice. *)
Theorem stop_stops_every_syncer_once (m : Manager) (s : GossipSyncer) :
  reachable (loop m) →
  stopped m = false →
  let m' := SyncManager_Stop m in
  stops s (trace (loop m')) = starts s (trace (loop m')) ∧
  starts s (trace (loop m')) = starts s (trace (loop m)) ∧
  (starts s (trace (loop m')) ≤ 1)%nat ∧
  SyncManager_Stop m' = m'.
Proof.
  intros Hr Hstop. unfold SyncManager_Stop. rewrite Hstop. cbn.
  destruct (stopSyncers_spec (loop m)) as (_ & _ & _ & l1 & l2 & Hp1 & Hp2 & Et).
  pose proof (reachable_wf _ Hr) as (Ha & Hi & Hd).
  destruct (reachable_lifecycle _ Hr s) as (Hreg & Hnot & Hle & _).
  rewrite Et, !starts_app, !stops_app.
  destruct (counts_fmap_stop s l1) as [-> ->].
  destruct (counts_fmap_stop s l2) as [-> ->].
  rewrite (count_Permutation _ _ s Hp1), (count_Permutation _ _ s Hp2).
  rewrite !count_values by done. rewrite !Nat.add_0_r.
  split_and!; [|done|done|done].
  unfold registered in *.
  destruct (decide (inactiveSyncers (loop m) !! peerPub (cfg s) = Some s)) as [Hin|Hin].
  - rewrite decide_False.
    2:{ rewrite (map_disjoint_Some_r _ _ _ _ Hd Hin). done. }
    destruct Hreg as [-> ->]; [|done]. apply gossipSyncer_Some. by left.
  - destruct (decide (activeSyncers (loop m) !! peerPub (cfg s) = Some s)) as [Hac|Hac].
    + destruct Hreg as [-> ->]; [|done]. apply gossipSyncer_Some. right.
      split; [|done]. by eapply map_disjoint_Some_l.
    + rewrite Hnot; [lia|]. intros [?|[_ ?]]%gossipSyncer_Some; done.
Qed.

(** ** Promotion when the syncers accept *)

Lemma syncStateOf_heap st st' s :
  heap st' = heap st → syncStateOf st' s = syncStateOf st s.
Proof. unfold syncStateOf. by intros ->. Qed.

Lemma syncStateOf_setSyncType st st' s t a :
  heap st' = alter (λ f, SyncerFields t (state f)) a (heap st) →
  syncStateOf st' s = syncStateOf st s.
Proof.
  unfold syncStateOf. intros ->. rewrite list_lookup_alter.
  case_decide; [subst a|done]. by destruct (heap st !! addr s).
Qed.

Lemma viableCount_ext st st' m :
  (∀ s, syncStateOf st' s = syncStateOf st s) →
  viableCount st' m = viableCount st m.
Proof.
  intros Hs. unfold viableCount. f_equal. apply map_filter_ext.
  intros k s _. cbn. by rewrite Hs.
Qed.

Lemma viableCount_0 st m :
  viableCount st m = 0%nat ↔ ∀ s, ¬ viable st m s.
Proof.
  unfold viableCount. rewrite map_size_empty_iff, map_empty. split.
  - intros Hn s [[k Hk] Hs].
    specialize (Hn k). apply map_lookup_filter_None in Hn as [Hn|Hn];
      [congruence|]. by apply (Hn s).
  - intros Hn k. apply map_lookup_filter_None. right. intros s Hk Hs.
    apply (Hn s). split; [by exists k|done].
Qed.

Lemma chooseFrom_accepting (act : GossipSyncer → M (option error)) l st :
  (∀ s st, (act s st).1 = None) →
  let r := chooseFrom (Some act) l st in
  match r.1 with
  | Some s => s ∈ l ∧ syncStateOf st s = Some chansSynced ∧ r.2 = (act s st).2
  | None => (∀ s, s ∈ l → syncStateOf st s ≠ Some chansSynced) ∧ r.2 = st
  end.
Proof.
  intros Hact. induction l as [|s l IH]; cbn [chooseFrom]; st_simpl.
  - split; [|done]. intros s Hs. by apply elem_of_nil in Hs.
  - unfold syncState. st_simpl. case_decide as Hs.
    + specialize (Hact s st). destruct (act s st) as [r st1] eqn:E.
      cbn [fst snd] in *. subst r. st_simpl. rewrite ?E.
      split_and!; [left|done|done].
    + cbn zeta in IH. destruct (chooseFrom (Some act) l st).1 as [s'|].
      * destruct IH as (? & ? & ?). split_and!; [by right|done|done].
      * destruct IH as [IH ?]. split; [|done].
        intros s' [->|Hin]%elem_of_cons; [done|by apply IH].
Qed.

(** With syncers that accept every transition, a promotion moves a viable
    inactive syncer whenever there is one. *)
Lemma promote_accepting st :
  (∀ n, syncTransitionErr env n = None) →
  registry_wf st →
  let st' := (chooseRandomSyncer (inactiveSyncers st)
                (Some transitionPassiveSyncer) st).2 in
  registry_wf st' ∧
  size (activeSyncers st') =
    (size (activeSyncers st) + Nat.min 1 (viableCount st (inactiveSyncers st)))%nat ∧
  viableCount st' (inactiveSyncers st') =
    (viableCount st (inactiveSyncers st) - 1)%nat.
Proof.
  intros Hacc Hwf st'.
  assert (registry_wf st') as Hwf' by by apply promote_spec.
  split; [done|]. subst st'. unfold chooseRandomSyncer in *. st_simpl.
  set (st0 := with_calls (S (calls st)) st) in *.
  set (l := shuffle _ _) in *.
  assert (∀ s st, (transitionPassiveSyncer s st).1 = None) as Hact.
  { intros s st1. destruct (transitionPassiveSyncer_spec s st1) as (-> & _).
    apply Hacc. }
  pose proof (chooseFrom_accepting transitionPassiveSyncer l st0 Hact) as Hc.
  cbn zeta in Hc.
  destruct (chooseFrom (Some transitionPassiveSyncer) l st0) as [[s|] st1];
    cbn [fst snd] in *.
  - destruct Hc as (Hin & Hs & ->).
    apply elem_of_range in Hin.
    destruct (viable_inactive_key st s Hwf Hin) as [Hi Ha].
    destruct (transitionPassiveSyncer_spec s st0) as (Er & _ & _ & _ & Hr).
    rewrite (Hact s st0) in Hr. destruct Hr as (Ea & Ei & Eh).
    assert (viableCount st (inactiveSyncers st) ≠ 0%nat) as Hv.
    { intros Hv. apply (proj1 (viableCount_0 _ _) Hv s). by split. }
    split.
    + rewrite Ea. subst st0. st_simpl. rewrite map_size_insert_None by done. lia.
    + rewrite Ei. subst st0. st_simpl.
      rewrite (viableCount_ext st _).
      2:{ intros s'. by eapply (syncStateOf_setSyncType (with_calls (S (calls st)) st)). }
      unfold viableCount. rewrite map_filter_delete.
      assert (filter (λ ks, syncStateOf st ks.2 = Some chansSynced)
                (inactiveSyncers st) !! peerPub (cfg s) = Some s) as Hf
        by by apply map_lookup_filter_Some.
      pose proof (size_delete_Some _ _ _ Hf). lia.
  - destruct Hc as [Hno ->]. st_simpl.
    assert (viableCount st (inactiveSyncers st) = 0%nat) as Hv0.
    { apply viableCount_0. intros s [Hin Hs].
      apply (Hno s); [by apply elem_of_range|done]. }
    split; [subst st0; st_simpl; lia|].
    transitivity (viableCount st (inactiveSyncers st));
      [by apply viableCount_ext|lia].
Qed.

Lemma promoteLoop_accepting n st :
  (∀ n, syncTransitionErr env n = None) →
  registry_wf st →
  size (activeSyncers (promoteLoop n st).2) =
    (size (activeSyncers st) + Nat.min n (viableCount st (inactiveSyncers st)))%nat.
Proof.
  intros Hacc. revert st. induction n as [|n IH]; intros st Hwf;
    cbn [promoteLoop]; st_simpl; [lia|].
  destruct (promote_accepting st Hacc Hwf) as (Hwf1 & Hs & Hv).
  rewrite IH, Hs, Hv by done. lia.
Qed.

(** X7.  When the initial historical sync signal fires and the syncers
    accept their transitions, the loop fills the free active slots: it
    promotes as many inactive syncers in the [chansSynced] state as there
    are free slots, or all of them when there are fewer. *)
Theorem signal_fills_free_slots (st : State) :
  (∀ n, syncTransitionErr env n = None) →
  reachable st →
  is_Some (initialHistoricalSyncSignal st) →
  let st' := (handleEvent EvInitialHistoricalSyncSignal st).2 in
  initialHistoricalSyncCompleted st' = true ∧
  Z.of_nat (size (activeSyncers st')) =
    Z.of_nat (size (activeSyncers st)) +
    Z.min (Z.max 0 (NumActiveSyncers - Z.of_nat (size (activeSyncers st))))
          (Z.of_nat (viableCount st (inactiveSyncers st))).
Proof.
  intros Hacc Hr [g Hg] st'. pose proof (reachable_wf st Hr) as Hwf.
  split.
  { destruct (handleEvent_completed EvInitialHistoricalSyncSignal st)
      as [Ec|(_ & _ & Ec)]; [|done].
    revert Ec. subst st'. cbn [handleEvent].
    unfold handleInitialHistoricalSyncSignal. st_simpl. rewrite Hg. st_simpl.
    case_decide; st_simpl; [done|].
    set (st1 := with_completed _ _).
    destruct (promoteLoop_spec
      (Z.to_nat (NumActiveSyncers - Z.of_nat (size (activeSyncers st)))) st1)
      as ((_ & -> & _) & _). done. }
  subst st'. cbn [handleEvent].
  unfold handleInitialHistoricalSyncSignal. st_simpl. rewrite Hg. st_simpl.
  case_decide as Hn; st_simpl; [lia|].
  set (st1 := with_completed _ _).
  rewrite (promoteLoop_accepting _ st1 Hacc Hwf).
  change (activeSyncers st1) with (activeSyncers st).
  change (inactiveSyncers st1) with (inactiveSyncers st).
  rewrite (viableCount_ext st st1) by done. lia.
Qed.

(** ** Deregistration *)

Lemma handleStaleSyncer_after_remove peer st :
  same_registry (removeGossipSyncer peer st).2 (handleStaleSyncer peer st).2.
Proof.
  unfold handleStaleSyncer, ResetSyncedSignal. st_simpl.
  set (st1 := (removeGossipSyncer peer st).2).
  destruct (initialHistoricalSyncer st1) as [initial|]; [|done].
  case_decide; [done|].
  set (st2 := with_trace _ st1).
  destruct (forceHistoricalSync_spec st2) as ([Ea Ei] & _).
  destruct (forceHistoricalSync st2) as [[s|] st3]; split; st_simpl;
    by rewrite ?Ea, ?Ei.
Qed.

(** X8.  Deregistering a registered peer removes that peer and no other:
    its lookup fails afterwards, every other peer keeps its syncer, the
    removed syncer gets its one [Stop] and no other syncer is stopped; the
    number of active syncers does not grow, and the active map is not
    touched when the peer was inactive. *)
Theorem deregistration_removes_only_that_peer
    (peer : Vertex) (s : GossipSyncer) (st : State) :
  reachable st →
  gossipSyncer peer st = Some s →
  let st' := (handleEvent (EvStaleSyncer peer) st).2 in
  gossipSyncer peer st' = None ∧
  (∀ p, p ≠ peer → gossipSyncer p st' = gossipSyncer p st) ∧
  stops s (trace st') = 1%nat ∧
  (∀ s', s' ≠ s → stops s' (trace st') = stops s' (trace st)) ∧
  (size (activeSyncers st') ≤ size (activeSyncers st))%nat ∧
  (inactiveSyncers st !! peer = Some s → activeSyncers st' = activeSyncers st).
Proof.
  intros Hr Hg st'. subst st'. cbn [handleEvent].
  pose proof (reachable_wf st Hr) as Hwf.
  destruct (handleStaleSyncer_registry peer st Hwf) as (_ & Hs & Hn & Hl).
  destruct (handleStaleSyncer_lifecycle peer st) as [_ Ht]. rewrite Hg in Ht.
  destruct Ht as (d & Ed & Hd).
  destruct (reachable_started st Hr peer s Hg) as [_ Hp].
  destruct (reachable_lifecycle st Hr s) as (Hreg & _).
  destruct Hreg as [_ H0]; [unfold registered; by rewrite Hp|].
  split_and!; [done|done| | |done|].
  - rewrite Ed, stops_app. destruct (counts_cons_stop s s d) as [-> _].
    destruct (quiet_counts s d Hd) as [_ ->]. rewrite H0.
    by rewrite decide_True.
  - intros s' Hne. rewrite Ed, stops_app.
    destruct (counts_cons_stop s' s d) as [-> _].
    destruct (quiet_counts s' d Hd) as [_ ->].
    rewrite decide_False by done. lia.
  - intros Hi. destruct (handleStaleSyncer_after_remove peer st) as [-> _].
    unfold removeGossipSyncer, Stop. st_simpl. rewrite Hg. st_simpl.
    by rewrite Hi.
Qed.

(** X9.  "In the event of an active GossipSyncer being disconnected, a
    passive GossipSyncer, if any, will take its place": when the syncers
    accept their transitions and an active peer is deregistered, the
    number of active syncers stays the same if some inactive syncer is in
    the [chansSynced] state, and drops by one otherwise. *)
Theorem disconnected_active_syncer_is_replaced
    (peer : Vertex) (s : GossipSyncer) (st : State) :
  (∀ n, syncTransitionErr env n = None) →
  reachable st →
  activeSyncers st !! peer = Some s →
  let st' := (handleEvent (EvStaleSyncer peer) st).2 in
  S (size (activeSyncers st')) =
    (size (activeSyncers st) +
     Nat.min 1 (viableCount st (inactiveSyncers st)))%nat.
Proof.
  intros Hacc Hr Ha st'. subst st'. cbn [handleEvent].
  pose proof (reachable_wf st Hr) as Hwf. pose proof Hwf as (Hoa & Hoi & Hd).
  assert (inactiveSyncers st !! peer = None) as Hi
    by by eapply map_disjoint_Some_l.
  destruct (handleStaleSyncer_after_remove peer st) as [-> _].
  unfold removeGossipSyncer, Stop. st_simpl.
  assert (gossipSyncer peer st = Some s) as -> by (apply gossipSyncer_Some; by right).
  st_simpl. rewrite Hi. st_simpl.
  set (st1 := with_active _ _).
  assert (registry_wf st1) as Hwf1.
  { split_and!; [by apply map_Forall_delete|done|by apply map_disjoint_delete_l]. }
  destruct (promote_accepting st1 Hacc Hwf1) as (_ & Hs & _).
  change (inactiveSyncers st1) with (inactiveSyncers st) in *.
  rewrite Hs. rewrite (viableCount_ext st st1) by done.
  unfold st1. st_simpl. pose proof (size_delete_Some _ _ _ Ha). lia.
Qed.

(** ** Forced historical syncs, candidate by candidate *)

Lemma chooseFrom_historicalSync l st :
  let r := chooseFrom (Some historicalSync) l st in
  ∃ d, trace r.2 = trace st ++ d ∧ heap r.2 = heap st ∧
    match r.1 with
    | Some s =>
        s ∈ l ∧ syncStateOf st s = Some chansSynced ∧
        ∃ d0, d = d0 ++ [ActHistoricalSync s None] ∧ Forall is_refused d0
    | None =>
        Forall is_refused d ∧
        ∀ s, s ∈ l → syncStateOf st s = Some chansSynced →
             ∃ e, ActHistoricalSync s (Some e) ∈ d
    end.
Proof.
  revert st. induction l as [|s l IH]; intros st; cbn [chooseFrom]; st_simpl.
  - exists []. rewrite app_nil_r. split_and!; [done|done|constructor|].
    intros s Hs. by apply elem_of_nil in Hs.
  - unfold syncState. st_simpl. case_decide as Hs.
    + destruct (historicalSync_spec s st) as (Er & _ & _ & Eh & _ & Et).
      destruct (historicalSync s st) as [[e|] st1] eqn:E; cbn [fst snd] in *.
      * destruct (IH st1) as (d & Ed & Ehd & Hm).
        exists (ActHistoricalSync s (Some e) :: d). split_and!.
        -- rewrite Ed, Et. by rewrite <-app_assoc.
        -- by rewrite Ehd.
        -- destruct (chooseFrom (Some historicalSync) l st1).1 as [s'|].
           ++ destruct Hm as (Hin & Hv & d0 & -> & Hd0).
              split_and!; [by right|by rewrite <-(syncStateOf_heap st st1)|].
              exists (ActHistoricalSync s (Some e) :: d0). split; [done|].
              by constructor.
           ++ destruct Hm as [Hd Hall]. split; [by constructor|].
              intros s' [->|Hin]%elem_of_cons Hv.
              ** exists e. left.
              ** destruct (Hall s' Hin) as [e' He'];
                   [by rewrite (syncStateOf_heap st st1)|].
                 exists e'. by right.
      * exists [ActHistoricalSync s None].
        split; [done|]. split; [done|]. split; [left|]. split; [done|].
        exists []. split; [done|constructor].
    + destruct (IH st) as (d & Ed & Ehd & Hm). exists d.
      split_and!; [done|done|].
      destruct (chooseFrom (Some historicalSync) l st).1 as [s'|].
      * destruct Hm as (Hin & Hv & Hd). split_and!; [by right|done|done].
      * destruct Hm as [Hd Hall]. split; [done|].
        intros s' [->|Hin]%elem_of_cons Hv; [done|by apply Hall].
Qed.

(** X10.  [forceHistoricalSync] asks the syncers in the [chansSynced]
    state one after the other until one accepts.  The syncer it returns is
    such a syncer, it accepted, and it was the last one asked, all the
    others asked before having refused; it returns nil only after every
    syncer in the [chansSynced] state has been asked and has refused. *)
Theorem forceHistoricalSync_asks_until_accepted (st : State) :
  let r := forceHistoricalSync st in
  ∃ d, trace r.2 = trace st ++ d ∧
    match r.1 with
    | Some s =>
        viable st (gossipSyncers st) s ∧
        ∃ d0, d = d0 ++ [ActHistoricalSync s None] ∧ Forall is_refused d0
    | None =>
        Forall is_refused d ∧
        ∀ s, viable st (gossipSyncers st) s →
             ∃ e, ActHistoricalSync s (Some e) ∈ d
    end.
Proof.
  unfold forceHistoricalSync, chooseRandomSyncer. st_simpl.
  set (st0 := with_calls _ st). set (l := shuffle _ _).
  destruct (chooseFrom_historicalSync l st0) as (d & Ed & _ & Hm).
  exists d. split; [done|].
  destruct (chooseFrom (Some historicalSync) l st0).1 as [s|].
  - destruct Hm as (Hin & Hv & Hd). split; [|done].
    split; [by apply elem_of_range in Hin|done].
  - destruct Hm as [Hd Hall]. split; [done|].
    intros s [Hin Hv]. apply Hall; [by apply elem_of_range|done].
Qed.

(** ** [chooseRandomSyncer] without an action *)

(** X11.  Without an action, [chooseRandomSyncer] returns a syncer of the
    map that is in the [chansSynced] state whenever there is one, in
    whatever order the map is visited, and nil only when there is none; it
    does nothing to the registry or to any syncer. *)
Theorem chooseRandomSyncer_returns_a_viable_syncer
    (m : gmap Vertex GossipSyncer) (st : State) :
  let r := chooseRandomSyncer m None st in
  (r.1 = None ↔ ∀ s, ¬ viable st m s) ∧
  (∀ s, r.1 = Some s → viable st m s) ∧
  same_registry st r.2 ∧ same_vars st r.2 ∧
  heap r.2 = heap st ∧ trace r.2 = trace st.
Proof.
  destruct (chooseRandomSyncer_nil_action m st) as [E Hr]. cbn zeta.
  rewrite E. st_simpl. split_and!; try done.
  - destruct (chooseRandomSyncer m None st).1 as [s|].
    + split; [done|]. intros Hn. by destruct (Hn s).
    + done.
  - intros s Hs. by rewrite Hs in Hr.
Qed.

(** ** Every request is acknowledged *)

Lemma handleNewSyncer_done peer st :
  doneClosed (trace st) (trace (handleNewSyncer peer st).2) = true.
Proof.
  destruct (gossipSyncer peer st) as [s|] eqn:Hg.
  - rewrite (handleNewSyncer_known peer s st Hg). st_simpl.
    apply doneClosed_app. left.
  - destruct (handleNewSyncer_unknown peer st Hg) as (_ & _ & _ & _ & d & -> & _).
    apply doneClosed_app. right. left.
Qed.

Lemma handleStaleSyncer_done peer st :
  doneClosed (trace st) (trace (handleStaleSyncer peer st).2) = true.
Proof.
  destruct (handleStaleSyncer_lifecycle peer st) as [_ Ht].
  destruct (removeGossipSyncer_trace peer st) as (d1 & Ed1 & _).
  unfold handleStaleSyncer, ResetSyncedSignal in *. st_simpl.
  set (st1 := (removeGossipSyncer peer st).2) in *.
  assert (∀ st2, trace_grows (λ _, True)
            (with_trace (trace st1 ++ [ActCloseDone]) st1) st2 →
          doneClosed (trace st) (trace st2) = true) as Hrest.
  { intros st2 (d2 & Ed2 & _). rewrite Ed2. st_simpl. rewrite Ed1.
    rewrite <-!app_assoc. apply doneClosed_app.
    apply elem_of_app. right. left. }
  destruct (initialHistoricalSyncer st1) as [initial|];
    [|by apply Hrest, trace_grows_same].
  case_decide; [by apply Hrest, trace_grows_same|].
  set (st2 := with_trace _ st1).
  destruct (forceHistoricalSync_spec st2) as (_ & _ & _ & Ht2).
  apply trace_grows_weaken in Ht2.
  destruct (forceHistoricalSync st2) as [[s|] st3]; cbn [fst snd] in *;
    apply Hrest; (etrans; [exact Ht2|by apply trace_grows_same]).
Qed.

(** X12.  The loop acknowledges every request: whatever the state and
    whatever the syncers answer, the handler of a register or deregister
    request closes its done channel, so [InitSyncState] returns nil unless
    the manager is quitting, in which case it returns
    [ErrSyncManagerExiting], and [PruneSyncState] always returns; neither
    is left waiting. *)
Theorem requests_are_acknowledged
    (first second : selectCase) (peer : Vertex) (st : State) :
  (InitSyncState first second peer st).1 =
    match first, second with
    | caseProceed, caseProceed => Returns None
    | _, _ => Returns (Some ErrSyncManagerExiting)
    end ∧
  (PruneSyncState first second peer st).1 = Returns None.
Proof.
  unfold InitSyncState, PruneSyncState. st_simpl.
  destruct first, second; st_simpl; try done.
  by rewrite handleNewSyncer_done, handleStaleSyncer_done.
Qed.

End SyncManager.

(** * The watchtower policy *)

Section Policy.
Import wtpolicy.

Lemma wrap64_id z : int64 z → wrap64 z = z.
Proof.
  unfold int64, wrap64. intros Hz.
  rewrite Z.mod_small by lia. lia.
Qed.

Lemma ComputeRewardAmount_exact total base rate :
  uint32 base → uint32 rate → int64 total → base <= total →
  (total - base) * rate + RewardScale < 2 ^ 63 →
  ComputeRewardAmount total base rate =
    base + ((total - base) * rate + RewardScale - 1) / RewardScale.
Proof.
  unfold uint32, int64, ComputeRewardAmount, RewardScale.
  intros Hb Hr Ht Hle Hno.
  destruct (Z.gtb_spec base total) as [?|_]; [lia|].
  assert (0 <= (total - base) * rate) by nia.
  rewrite (wrap64_id (total - base)) by (unfold int64; lia).
  rewrite (wrap64_id ((total - base) * rate)) by (unfold int64; lia).
  rewrite (wrap64_id (_ + 1000000)) by (unfold int64; lia).
  rewrite (wrap64_id (_ - 1)) by (unfold int64; lia).
  rewrite Z.quot_div_nonneg by lia.
  apply wrap64_id. unfold int64.
  assert (0 <= ((total - base) * rate + 1000000 - 1) / 1000000 <= 2^63 / 1000000).
  { split; [apply Z.div_pos; lia|]. apply Z.div_le_mono; lia. }
  change (2^63/1000000) with 9223372036854 in *. lia.
Qed.

(** X13.  [ComputeRewardAmount] is the base plus the rate, in millionths,
    of what is left of the total after the base, rounded up to a whole
    satoshi: as long as the product does not overflow an [int64], the
    proportional part is the least number of satoshis that is at least the
    exact share, and with a rate of at most one million the reward does
    not exceed the total. *)
Theorem reward_amount_rounds_up total base rate :
  uint32 base → uint32 rate → int64 total → base <= total →
  (total - base) * rate + RewardScale < 2 ^ 63 →
  let proportional := ComputeRewardAmount total base rate - base in
  (total - base) * rate <= proportional * RewardScale ∧
  (proportional - 1) * RewardScale < (total - base) * rate ∧
  (rate <= RewardScale → ComputeRewardAmount total base rate <= total).
Proof.
  intros Hb Hr Ht Hle Hno. cbv zeta.
  rewrite ComputeRewardAmount_exact by done.
  unfold uint32, RewardScale in *.
  set (a := (total - base) * rate) in *.
  assert (0 <= a) by (unfold a; nia).
  pose proof (Z.div_mod (a + 1000000 - 1) 1000000 ltac:(lia)) as Hdm.
  pose proof (Z.mod_pos_bound (a + 1000000 - 1) 1000000 ltac:(lia)) as Hm.
  set (q := (a + 1000000 - 1) / 1000000) in *.
  split_and!; [lia|lia|]. intros Hrate.
  assert (a <= (total - base) * 1000000) by (unfold a; nia).
  lia.
Qed.

Lemma ComputeRewardAmount_bounds total base rate :
  uint32 base → uint32 rate → 0 <= total < 2 ^ 62 →
  (total - base) * rate + RewardScale < 2 ^ 63 →
  base <= ComputeRewardAmount total base rate < 2 ^ 33 + 2 ^ 44 ∧
  (ComputeRewardAmount total base rate <= total → base <= total).
Proof.
  intros Hb Hr Ht Hno.
  destruct (Z.le_gt_cases base total) as [Hle|Hgt].
  - rewrite ComputeRewardAmount_exact by (done || unfold int64; lia).
    unfold uint32, RewardScale in *.
    assert (0 <= (total - base) * rate) by nia.
    assert (0 <= ((total - base) * rate + 1000000 - 1) / 1000000
            <= 2^63 / 1000000).
    { split; [apply Z.div_pos; lia|]. apply Z.div_le_mono; lia. }
    change (2^63/1000000) with 9223372036854 in *. lia.
  - unfold ComputeRewardAmount.
    destruct (Z.gtb_spec base total); [|lia].
    unfold uint32 in *. lia.
Qed.

Lemma ComputeAltruistOutput_cases x p totalAmt txWeight :
  int64 totalAmt → 0 <= FeeForWeight x (SweepFeeRate p) txWeight →
  match ComputeAltruistOutput x p totalAmt txWeight with
  | (sweepAmt, None) =>
      sweepAmt + FeeForWeight x (SweepFeeRate p) txWeight = totalAmt ∧
      lnwallet.DefaultDustLimit (rules x) < sweepAmt ∧
      FeeForWeight x (SweepFeeRate p) txWeight <= totalAmt
  | (sweepAmt, Some ErrFeeExceedsInputs) =>
      sweepAmt = 0 ∧ totalAmt < FeeForWeight x (SweepFeeRate p) txWeight
  | (sweepAmt, Some ErrCreatesDust) =>
      sweepAmt = 0 ∧ FeeForWeight x (SweepFeeRate p) txWeight <= totalAmt ∧
      totalAmt - FeeForWeight x (SweepFeeRate p) txWeight
        <= lnwallet.DefaultDustLimit (rules x)
  | (_, Some ErrRewardExceedsInputs) => False
  end.
Proof.
  unfold int64. intros Ht Hf. unfold ComputeAltruistOutput.
  set (txFee := FeeForWeight _ _ _) in *.
  set (dustLimit := lnwallet.DefaultDustLimit _).
  destruct (Z.gtb_spec txFee totalAmt) as [?|?]; [lia|].
  rewrite wrap64_id by (unfold int64; lia).
  destruct (Z.leb_spec (totalAmt - txFee) dustLimit); lia.
Qed.

Lemma ComputeRewardOutputs_cases x p totalAmt txWeight :
  uint32 (RewardBase p) → uint32 (RewardRate p) →
  0 <= totalAmt < 2 ^ 62 → 0 <= FeeForWeight x (SweepFeeRate p) txWeight →
  (totalAmt - RewardBase p) * RewardRate p + RewardScale < 2 ^ 63 →
  match ComputeRewardOutputs x p totalAmt txWeight with
  | (sweepAmt, rewardAmt, None) =>
      sweepAmt + rewardAmt + FeeForWeight x (SweepFeeRate p) txWeight
        = totalAmt ∧
      lnwallet.DefaultDustLimit (rules x) < sweepAmt ∧
      rewardAmt = ComputeRewardAmount totalAmt (RewardBase p) (RewardRate p) ∧
      RewardBase p <= rewardAmt ∧ RewardBase p <= totalAmt ∧
      rewardAmt + FeeForWeight x (SweepFeeRate p) txWeight <= totalAmt
  | (sweepAmt, rewardAmt, Some ErrFeeExceedsInputs) =>
      sweepAmt = 0 ∧ rewardAmt = 0 ∧
      totalAmt < FeeForWeight x (SweepFeeRate p) txWeight
  | (sweepAmt, rewardAmt, Some ErrRewardExceedsInputs) =>
      sweepAmt = 0 ∧ rewardAmt = 0 ∧
      FeeForWeight x (SweepFeeRate p) txWeight <= totalAmt ∧
      totalAmt <
        ComputeRewardAmount totalAmt (RewardBase p) (RewardRate p)
          + FeeForWeight x (SweepFeeRate p) txWeight
  | (sweepAmt, rewardAmt, Some ErrCreatesDust) =>
      sweepAmt = 0 ∧ rewardAmt = 0 ∧
      ComputeRewardAmount totalAmt (RewardBase p) (RewardRate p)
        + FeeForWeight x (SweepFeeRate p) txWeight <= totalAmt ∧
      totalAmt - ComputeRewardAmount totalAmt (RewardBase p) (RewardRate p)
        - FeeForWeight x (SweepFeeRate p) txWeight
        <= lnwallet.DefaultDustLimit (rules x)
  end.
Proof.
  intros Hb Hr Ht Hf Hno. unfold ComputeRewardOutputs.
  set (txFee := FeeForWeight _ _ _) in *.
  set (dustLimit := lnwallet.DefaultDustLimit _).
  destruct (Z.gtb_spec txFee totalAmt) as [?|Hfee]; [lia|].
  destruct (ComputeRewardAmount_bounds totalAmt (RewardBase p) (RewardRate p))
    as (Hr1 & Hr2); [done..|].
  set (rewardAmt := ComputeRewardAmount _ _ _) in *.
  rewrite (wrap64_id (rewardAmt + txFee)) by (unfold int64, uint32 in *; lia).
  destruct (Z.gtb_spec (rewardAmt + txFee) totalAmt) as [?|Hrew]; [lia|].
  rewrite (wrap64_id (totalAmt - rewardAmt)) by (unfold int64, uint32 in *; lia).
  rewrite (wrap64_id (_ - txFee)) by (unfold int64, uint32 in *; lia).
  destruct (Z.leb_spec (totalAmt - rewardAmt - txFee) dustLimit);
    [lia|]. split_and!; lia.
Qed.

(** X14.  [ComputeAltruistOutput], for a total in the [int64] range and a
    fee that is not negative: it succeeds exactly when the fee is covered
    and what is left is above the dust limit; the output and the fee then
    add up to the total.  On an error the amount is zero; the error is
    [ErrFeeExceedsInputs] exactly when the fee exceeds the total, and never
    [ErrRewardExceedsInputs]. *)
Theorem altruist_output_conserves_funds x p totalAmt txWeight :
  int64 totalAmt → 0 <= FeeForWeight x (SweepFeeRate p) txWeight →
  let txFee := FeeForWeight x (SweepFeeRate p) txWeight in
  let dustLimit := lnwallet.DefaultDustLimit (rules x) in
  let r := ComputeAltruistOutput x p totalAmt txWeight in
  (r.2 = None ↔ txFee <= totalAmt ∧ dustLimit < totalAmt - txFee) ∧
  (r.2 = None → r.1 + txFee = totalAmt ∧ dustLimit < r.1) ∧
  (r.2 ≠ None → r.1 = 0) ∧
  (r.2 = Some ErrFeeExceedsInputs ↔ totalAmt < txFee) ∧
  r.2 ≠ Some ErrRewardExceedsInputs.
Proof.
  intros Ht Hf. cbv zeta.
  pose proof (ComputeAltruistOutput_cases x p totalAmt txWeight Ht Hf) as Hc.
  destruct (ComputeAltruistOutput x p totalAmt txWeight) as [s [[]|]];
    cbn [fst snd]; split_and!; try split; try done; try lia;
    intros; exfalso; lia.
Qed.

(** X15.  [ComputeRewardOutputs] takes the fee, then the reward, then
    checks for dust.  When it succeeds the sweep amount, the reward and
    the fee add up to the total, the sweep amount is above the dust limit
    and the reward is that of [ComputeRewardAmount], at least the base.
    On an error both amounts are zero, and the error tells which check
    failed: the fee exceeds the total; or else the reward and the fee
    together exceed it; or else what is left is dust. *)
Theorem reward_outputs_conserve_funds x p totalAmt txWeight :
  uint32 (RewardBase p) → uint32 (RewardRate p) →
  0 <= totalAmt < 2 ^ 62 → 0 <= FeeForWeight x (SweepFeeRate p) txWeight →
  (totalAmt - RewardBase p) * RewardRate p + RewardScale < 2 ^ 63 →
  let txFee := FeeForWeight x (SweepFeeRate p) txWeight in
  let dustLimit := lnwallet.DefaultDustLimit (rules x) in
  let reward := ComputeRewardAmount totalAmt (RewardBase p) (RewardRate p) in
  let '(sweepAmt, rewardAmt, err) := ComputeRewardOutputs x p totalAmt txWeight in
  (err = None →
     sweepAmt + rewardAmt + txFee = totalAmt ∧ dustLimit < sweepAmt ∧
     rewardAmt = reward ∧ RewardBase p <= rewardAmt) ∧
  (err ≠ None → sweepAmt = 0 ∧ rewardAmt = 0) ∧
  (err = Some ErrFeeExceedsInputs ↔ totalAmt < txFee) ∧
  (err = Some ErrRewardExceedsInputs ↔
     txFee <= totalAmt ∧ totalAmt < reward + txFee) ∧
  (err = Some ErrCreatesDust ↔
     reward + txFee <= totalAmt ∧ totalAmt - reward - txFee <= dustLimit).
Proof.
  intros Hb Hr Ht Hf Hno. cbv zeta.
  pose proof (ComputeRewardOutputs_cases x p totalAmt txWeight Hb Hr Ht Hf Hno)
    as Hc.
  destruct (ComputeRewardAmount_bounds totalAmt (RewardBase p) (RewardRate p))
    as ([Hr1 _] & _); [done..|]. unfold uint32 in Hb.
  destruct (ComputeRewardOutputs x p totalAmt txWeight) as [[s r] [[]|]];
    split_and!; try split; try done; try lia;
    intros; exfalso; lia.
Qed.

(** X16.  [ComputeJusticeTxOuts] builds the outputs the policy asks for:
    with the reward flag, the victim's output followed by the tower's, the
    reward being at least the base; without it, the victim's output alone.
    The scripts are the ones passed in, the values and the fee add up to
    the total, and the victim's output is above the dust limit.  On an
    error no output is returned, and only a policy with the reward flag
    can fail with [ErrRewardExceedsInputs]. *)
Theorem justice_outputs_match_policy x p totalAmt txWeight
    (sweepPkScript rewardPkScript : list Byte.byte) :
  uint32 (RewardBase p) → uint32 (RewardRate p) →
  0 <= totalAmt < 2 ^ 62 → 0 <= FeeForWeight x (SweepFeeRate p) txWeight →
  (totalAmt - RewardBase p) * RewardRate p + RewardScale < 2 ^ 63 →
  let txFee := FeeForWeight x (SweepFeeRate p) txWeight in
  let dustLimit := lnwallet.DefaultDustLimit (rules x) in
  match ComputeJusticeTxOuts x p totalAmt txWeight sweepPkScript rewardPkScript with
  | (outputs, None) =>
      ∃ sweepAmt, dustLimit < sweepAmt ∧
        if Has x (BlobType p) (FlagReward x) then
          ∃ rewardAmt,
            outputs = [ {| Value := sweepAmt; PkScript := sweepPkScript |};
                        {| Value := rewardAmt; PkScript := rewardPkScript |} ] ∧
            RewardBase p <= rewardAmt ∧
            sweepAmt + rewardAmt + txFee = totalAmt
        else
          outputs = [ {| Value := sweepAmt; PkScript := sweepPkScript |} ] ∧
          sweepAmt + txFee = totalAmt
  | (outputs, Some e) =>
      outputs = [] ∧
      (e = ErrRewardExceedsInputs → Has x (BlobType p) (FlagReward x) = true)
  end.
Proof.
  intros Hb Hr Ht Hf Hno. cbv zeta. unfold ComputeJusticeTxOuts.
  destruct (Has x (BlobType p) (FlagReward x)).
  - pose proof (ComputeRewardOutputs_cases x p totalAmt txWeight Hb Hr Ht Hf Hno)
      as Hspec.
    destruct (ComputeRewardOutputs x p totalAmt txWeight) as [[s r] [e|]].
    + done.
    + destruct Hspec as (? & ? & ? & ? & ? & ?). exists s. split; [done|].
      exists r. done.
  - assert (int64 totalAmt) as Ht' by (unfold int64; lia).
    pose proof (ComputeAltruistOutput_cases x p totalAmt txWeight Ht' Hf)
      as Hspec.
    destruct (ComputeAltruistOutput x p totalAmt txWeight) as [s [e|]].
    + split; [done|]. intros ->. done.
    + destruct Hspec as (? & ? & ?). exists s. done.
Qed.

End Policy.

(** * Concrete runs *)

(** C1.  The specification has [attemptInitialHistoricalSync] true exactly
    when [initialHistoricalSyncer] is unset and the initial historical sync
    has not completed.  The loop keeps one half of it ([reachable_bootstrap])
    and breaks the other:
    - Register a peer, which accepts the initial historical sync, and
      deregister it: with no syncer left to replace it, the loop sets
      [attemptInitialHistoricalSync] again but leaves
      [initialHistoricalSyncer] (and its signal) pointing at the syncer it
      has just removed and stopped.
    - From there the variable can come to name a registered peer while
      [attemptInitialHistoricalSync] is still true: peer 1 comes back and
      peer 2 arrives, both refusing the historical sync, and peer 1 leaves
      again; its key is that of the stale syncer, so a replacement is
      looked for and peer 2, accepting this time, becomes the initial
      historical syncer. *)
Theorem stale_initial_historical_syncer :
  (let st := syncerHandler accepting 3
               [EvNewSyncer 1%N; EvStaleSyncer 1%N] newSyncManager in
   attemptInitialHistoricalSync st = true ∧
   initialHistoricalSyncCompleted st = false ∧
   initialHistoricalSyncer st =
     Some {| addr := 0; cfg := {| peerPub := 1%N |} |} ∧
   initialHistoricalSyncSignal st =
     Some {| addr := 0; cfg := {| peerPub := 1%N |} |} ∧
   gossipSyncer 1%N st = None ∧
   ActStop {| addr := 0; cfg := {| peerPub := 1%N |} |} ∈ trace st) ∧
  (let st := syncerHandler (refusing [2; 3]%nat) 3
               [EvNewSyncer 1%N; EvStaleSyncer 1%N; EvNewSyncer 1%N;
                EvNewSyncer 2%N; EvStaleSyncer 1%N] newSyncManager in
   attemptInitialHistoricalSync st = true ∧
   initialHistoricalSyncCompleted st = false ∧
   initialHistoricalSyncer st =
     Some {| addr := 2; cfg := {| peerPub := 2%N |} |} ∧
   gossipSyncer 2%N st = Some {| addr := 2; cfg := {| peerPub := 2%N |} |}).
Proof.
  cbv zeta. split.
  - split_and!; [by vm_compute..|].
    apply list_elem_of_In. vm_compute. tauto.
  - split_and!; by vm_compute.
Qed.


(** ** The theorems at work on concrete runs *)

Lemma active_syncers_bounded_witness :
  0 <= 3 ∧
  Z.of_nat (size (activeSyncers (syncerHandler accepting 3
    [EvNewSyncer 1%N; EvInitialHistoricalSyncSignal; EvNewSyncer 2%N;
     EvNewSyncer 3%N; EvNewSyncer 4%N; EvNewSyncer 5%N; EvRotateTick]
    newSyncManager))) <= 3.
Proof.
  split; [lia|]. apply active_syncers_bounded. lia.
Defined.

Lemma new_syncer_classification_witness :
  activeSyncers (syncerHandler accepting 3
    [EvNewSyncer 1%N; EvInitialHistoricalSyncSignal] newSyncManager) !! 2%N = None ∧
  inactiveSyncers (syncerHandler accepting 3
    [EvNewSyncer 1%N; EvInitialHistoricalSyncSignal] newSyncManager) !! 2%N = None ∧
  syncTypeOf
    (handleEvent accepting 3 (EvNewSyncer 2%N)
       (syncerHandler accepting 3
          [EvNewSyncer 1%N; EvInitialHistoricalSyncSignal] newSyncManager)).2
    {| addr := 1; cfg := {| peerPub := 2%N |} |} = Some ActiveSync.
Proof.
  split; [reflexivity|]. split; [reflexivity|].
  destruct (new_syncer_classification accepting 3 2%N
    (syncerHandler accepting 3
       [EvNewSyncer 1%N; EvInitialHistoricalSyncSignal] newSyncManager))
    as (_ & _ & Hactive & _); [reflexivity|reflexivity|].
  destruct Hactive as [Htype _]; [reflexivity|vm_compute; reflexivity|].
  exact Htype.
Defined.

Lemma rotation_swaps_one_pair_witness :
  reachable accepting 3 (syncerHandler accepting 3
    [EvNewSyncer 1%N; EvInitialHistoricalSyncSignal; EvNewSyncer 2%N;
     EvNewSyncer 3%N; EvNewSyncer 4%N; EvNewSyncer 5%N] newSyncManager) ∧
  size (activeSyncers (handleEvent accepting 3 EvRotateTick
    (syncerHandler accepting 3
       [EvNewSyncer 1%N; EvInitialHistoricalSyncSignal; EvNewSyncer 2%N;
        EvNewSyncer 3%N; EvNewSyncer 4%N; EvNewSyncer 5%N] newSyncManager)).2)
  = size (activeSyncers (syncerHandler accepting 3
    [EvNewSyncer 1%N; EvInitialHistoricalSyncSignal; EvNewSyncer 2%N;
     EvNewSyncer 3%N; EvNewSyncer 4%N; EvNewSyncer 5%N] newSyncManager)).
Proof.
  assert (reachable accepting 3 (syncerHandler accepting 3
    [EvNewSyncer 1%N; EvInitialHistoricalSyncSignal; EvNewSyncer 2%N;
     EvNewSyncer 3%N; EvNewSyncer 4%N; EvNewSyncer 5%N] newSyncManager)) as Hr.
  { eexists. reflexivity. }
  split; [exact Hr|].
  destruct (rotation_swaps_one_pair accepting 3 _ Hr) as [_ Hswap].
  destruct Hswap as (A & B & _ & _ & _ & _ & _ & Hboth).
  - exists {| addr := 0; cfg := {| peerPub := 1%N |} |}.
    split; [exists 1%N|]; vm_compute; reflexivity.
  - exists {| addr := 3; cfg := {| peerPub := 4%N |} |}.
    split; [exists 4%N|]; vm_compute; reflexivity.
  - cbn [accepting syncTransitionErr] in Hboth.
    destruct Hboth as (_ & _ & _ & Hsize & _). exact Hsize.
Defined.

Lemma known_peer_registration_is_idempotent_witness :
  (is_Some (activeSyncers (syncerHandler accepting 3 [EvNewSyncer 1%N]
              newSyncManager) !! 1%N) ∨
   is_Some (inactiveSyncers (syncerHandler accepting 3 [EvNewSyncer 1%N]
              newSyncManager) !! 1%N)) ∧
  InitSyncState accepting 3 caseProceed caseProceed 1%N
    (syncerHandler accepting 3 [EvNewSyncer 1%N] newSyncManager) =
  (Returns None,
   (handleEvent accepting 3 (EvNewSyncer 1%N)
      (syncerHandler accepting 3 [EvNewSyncer 1%N] newSyncManager)).2).
Proof.
  assert (is_Some (activeSyncers (syncerHandler accepting 3 [EvNewSyncer 1%N]
              newSyncManager) !! 1%N) ∨
    is_Some (inactiveSyncers (syncerHandler accepting 3 [EvNewSyncer 1%N]
              newSyncManager) !! 1%N)) as Hknown.
  { right. eexists. vm_compute. reflexivity. }
  split; [exact Hknown|].
  apply (known_peer_registration_is_idempotent accepting 3 1%N _ Hknown).
Defined.

Lemma registered_peer_is_observable_witness :
  reachable accepting 3 (newSyncManager (Vertex := N)) ∧
  (InitSyncState accepting 3 caseProceed caseProceed 1%N newSyncManager).1
    = Returns None ∧
  ∃ s, gossipSyncer 1%N
         (InitSyncState accepting 3 caseProceed caseProceed 1%N
            newSyncManager).2 = Some s.
Proof.
  assert (reachable accepting 3 (newSyncManager (Vertex := N))) as Hr.
  { exists []. reflexivity. }
  assert ((InitSyncState accepting 3 caseProceed caseProceed 1%N
             newSyncManager).1 = Returns None) as Hret.
  { vm_compute. reflexivity. }
  split; [exact Hr|]. split; [exact Hret|].
  destruct (registered_peer_is_observable accepting 3
    caseProceed caseProceed 1%N newSyncManager Hr Hret)
    as (s & open & before & closed & rest & post & Hrest).
  destruct Hrest as (_ & _ & _ & _ & _ & _ & _ & _ & _ & _ & Hlookup).
  exists s. apply (Hlookup []). apply not_elem_of_nil.
Defined.

Lemma unknown_peer_deregistration_is_noop_witness :
  activeSyncers (newSyncManager (Vertex := N)) !! 1%N = None ∧
  inactiveSyncers (newSyncManager (Vertex := N)) !! 1%N = None ∧
  PruneSyncState accepting caseProceed caseProceed 1%N newSyncManager =
  (Returns None, (handleEvent accepting 3 (EvStaleSyncer 1%N) newSyncManager).2).
Proof.
  split; [reflexivity|]. split; [reflexivity|].
  apply (unknown_peer_deregistration_is_noop accepting 3 1%N
    newSyncManager); reflexivity.
Defined.

Lemma gossipSyncers_is_the_registry_witness :
  reachable accepting 3 (syncerHandler accepting 3
    [EvNewSyncer 1%N; EvInitialHistoricalSyncSignal; EvNewSyncer 2%N;
     EvNewSyncer 3%N; EvNewSyncer 4%N] newSyncManager) ∧
  size (gossipSyncers (syncerHandler accepting 3
    [EvNewSyncer 1%N; EvInitialHistoricalSyncSignal; EvNewSyncer 2%N;
     EvNewSyncer 3%N; EvNewSyncer 4%N] newSyncManager)) = 4%nat.
Proof.
  assert (reachable accepting 3 (syncerHandler accepting 3
    [EvNewSyncer 1%N; EvInitialHistoricalSyncSignal; EvNewSyncer 2%N;
     EvNewSyncer 3%N; EvNewSyncer 4%N] newSyncManager)) as Hr.
  { eexists. reflexivity. }
  split; [exact Hr|].
  destruct (gossipSyncers_is_the_registry accepting 3 _ Hr) as [_ Hsize].
  rewrite Hsize. vm_compute. reflexivity.
Defined.

Lemma initial_sync_stays_completed_witness :
  initialHistoricalSyncCompleted (syncerHandler accepting 3
    [EvNewSyncer 1%N; EvInitialHistoricalSyncSignal] newSyncManager) = true ∧
  initialHistoricalSyncCompleted (syncerHandler accepting 3
    [EvStaleSyncer 1%N; EvNewSyncer 2%N]
    (syncerHandler accepting 3
       [EvNewSyncer 1%N; EvInitialHistoricalSyncSignal] newSyncManager)) = true.
Proof.
  split; [reflexivity|].
  apply (initial_sync_stays_completed accepting 3). reflexivity.
Defined.

Lemma no_active_syncer_before_completion_witness :
  reachable accepting 3 (syncerHandler accepting 3
    [EvNewSyncer 1%N; EvNewSyncer 2%N] newSyncManager) ∧
  initialHistoricalSyncCompleted (syncerHandler accepting 3
    [EvNewSyncer 1%N; EvNewSyncer 2%N] newSyncManager) = false ∧
  activeSyncers (syncerHandler accepting 3
    [EvNewSyncer 1%N; EvNewSyncer 2%N] newSyncManager) = ∅.
Proof.
  assert (reachable accepting 3 (syncerHandler accepting 3
    [EvNewSyncer 1%N; EvNewSyncer 2%N] newSyncManager)) as Hr.
  { eexists. reflexivity. }
  split; [exact Hr|]. split; [reflexivity|].
  apply (no_active_syncer_before_completion accepting 3 _ Hr). reflexivity.
Defined.

Lemma syncers_started_and_stopped_once_witness :
  reachable accepting 3 (syncerHandler accepting 3
    [EvNewSyncer 1%N; EvStaleSyncer 1%N; EvNewSyncer 1%N] newSyncManager) ∧
  (stops {| addr := 0; cfg := {| peerPub := 1%N |} |}
     (trace (syncerHandler accepting 3
        [EvNewSyncer 1%N; EvStaleSyncer 1%N; EvNewSyncer 1%N] newSyncManager))
   ≤ starts {| addr := 0; cfg := {| peerPub := 1%N |} |}
     (trace (syncerHandler accepting 3
        [EvNewSyncer 1%N; EvStaleSyncer 1%N; EvNewSyncer 1%N] newSyncManager))
   ≤ 1)%nat.
Proof.
  assert (reachable accepting 3 (syncerHandler accepting 3
    [EvNewSyncer 1%N; EvStaleSyncer 1%N; EvNewSyncer 1%N] newSyncManager)) as Hr.
  { eexists. reflexivity. }
  split; [exact Hr|].
  destruct (syncers_started_and_stopped_once accepting 3 _
    {| addr := 0; cfg := {| peerPub := 1%N |} |} Hr) as (Hstart & Hstop & _).
  split; [exact Hstop|exact Hstart].
Defined.

Lemma stop_stops_every_syncer_once_witness :
  reachable accepting 3 (syncerHandler accepting 3
    [EvNewSyncer 1%N; EvInitialHistoricalSyncSignal; EvNewSyncer 2%N]
    newSyncManager) ∧
  stops {| addr := 1; cfg := {| peerPub := 2%N |} |}
    (trace (loop (SyncManager_Stop accepting
       {| stopped := false; quit := false;
          loop := syncerHandler accepting 3
            [EvNewSyncer 1%N; EvInitialHistoricalSyncSignal; EvNewSyncer 2%N]
            newSyncManager |}))) =
  starts {| addr := 1; cfg := {| peerPub := 2%N |} |}
    (trace (loop (SyncManager_Stop accepting
       {| stopped := false; quit := false;
          loop := syncerHandler accepting 3
            [EvNewSyncer 1%N; EvInitialHistoricalSyncSignal; EvNewSyncer 2%N]
            newSyncManager |}))).
Proof.
  assert (reachable accepting 3 (syncerHandler accepting 3
    [EvNewSyncer 1%N; EvInitialHistoricalSyncSignal; EvNewSyncer 2%N]
    newSyncManager)) as Hr.
  { eexists. reflexivity. }
  split; [exact Hr|].
  destruct (stop_stops_every_syncer_once accepting 3
    {| stopped := false; quit := false;
       loop := syncerHandler accepting 3
         [EvNewSyncer 1%N; EvInitialHistoricalSyncSignal; EvNewSyncer 2%N]
         newSyncManager |}
    {| addr := 1; cfg := {| peerPub := 2%N |} |} Hr) as [Hall _];
    [reflexivity|].
  exact Hall.
Defined.

Lemma signal_fills_free_slots_witness :
  (∀ n, syncTransitionErr accepting n = None) ∧
  reachable accepting 1 (syncerHandler accepting 1
    [EvNewSyncer 1%N; EvNewSyncer 2%N] newSyncManager) ∧
  is_Some (initialHistoricalSyncSignal (syncerHandler accepting 1
    [EvNewSyncer 1%N; EvNewSyncer 2%N] newSyncManager)) ∧
  Z.of_nat (size (activeSyncers (handleEvent accepting 1
    EvInitialHistoricalSyncSignal
    (syncerHandler accepting 1
       [EvNewSyncer 1%N; EvNewSyncer 2%N] newSyncManager)).2)) = 1.
Proof.
  assert (reachable accepting 1 (syncerHandler accepting 1
    [EvNewSyncer 1%N; EvNewSyncer 2%N] newSyncManager)) as Hr.
  { eexists. reflexivity. }
  assert (is_Some (initialHistoricalSyncSignal (syncerHandler accepting 1
    [EvNewSyncer 1%N; EvNewSyncer 2%N] newSyncManager))) as Hs.
  { eexists. vm_compute. reflexivity. }
  split; [reflexivity|]. split; [exact Hr|]. split; [exact Hs|].
  destruct (signal_fills_free_slots accepting 1 _ (λ n, eq_refl) Hr Hs)
    as [_ Hsize].
  rewrite Hsize. vm_compute. reflexivity.
Defined.

Lemma deregistration_removes_only_that_peer_witness :
  reachable accepting 3 (syncerHandler accepting 3
    [EvNewSyncer 1%N; EvNewSyncer 2%N] newSyncManager) ∧
  gossipSyncer 2%N (syncerHandler accepting 3
    [EvNewSyncer 1%N; EvNewSyncer 2%N] newSyncManager) =
    Some {| addr := 1; cfg := {| peerPub := 2%N |} |} ∧
  gossipSyncer 2%N (handleEvent accepting 3 (EvStaleSyncer 2%N)
    (syncerHandler accepting 3
       [EvNewSyncer 1%N; EvNewSyncer 2%N] newSyncManager)).2 = None ∧
  stops {| addr := 1; cfg := {| peerPub := 2%N |} |}
    (trace (handleEvent accepting 3 (EvStaleSyncer 2%N)
      (syncerHandler accepting 3
         [EvNewSyncer 1%N; EvNewSyncer 2%N] newSyncManager)).2) = 1%nat.
Proof.
  assert (reachable accepting 3 (syncerHandler accepting 3
    [EvNewSyncer 1%N; EvNewSyncer 2%N] newSyncManager)) as Hr.
  { eexists. reflexivity. }
  split; [exact Hr|]. split; [reflexivity|].
  destruct (deregistration_removes_only_that_peer accepting 3 2%N
    {| addr := 1; cfg := {| peerPub := 2%N |} |} _ Hr)
    as (Hnone & _ & Hstop & _); [reflexivity|].
  split; [exact Hnone|exact Hstop].
Defined.

Lemma disconnected_active_syncer_is_replaced_witness :
  (∀ n, syncTransitionErr accepting n = None) ∧
  reachable accepting 1 (syncerHandler accepting 1
    [EvNewSyncer 1%N; EvInitialHistoricalSyncSignal; EvNewSyncer 2%N]
    newSyncManager) ∧
  activeSyncers (syncerHandler accepting 1
    [EvNewSyncer 1%N; EvInitialHistoricalSyncSignal; EvNewSyncer 2%N]
    newSyncManager) !! 1%N =
    Some {| addr := 0; cfg := {| peerPub := 1%N |} |} ∧
  size (activeSyncers (handleEvent accepting 1 (EvStaleSyncer 1%N)
    (syncerHandler accepting 1
       [EvNewSyncer 1%N; EvInitialHistoricalSyncSignal; EvNewSyncer 2%N]
       newSyncManager)).2) = 1%nat.
Proof.
  assert (reachable accepting 1 (syncerHandler accepting 1
    [EvNewSyncer 1%N; EvInitialHistoricalSyncSignal; EvNewSyncer 2%N]
    newSyncManager)) as Hr.
  { eexists. reflexivity. }
  split; [reflexivity|]. split; [exact Hr|]. split; [reflexivity|].
  pose proof (disconnected_active_syncer_is_replaced accepting 1 1%N
    {| addr := 0; cfg := {| peerPub := 1%N |} |} _ (λ n, eq_refl) Hr eq_refl)
    as Hsize.
  apply Nat.succ_inj. etrans; [exact Hsize|]. vm_compute. reflexivity.
Defined.

Lemma reward_amount_rounds_up_witness :
  wtpolicy.uint32 100 ∧ wtpolicy.uint32 10000 ∧ wtpolicy.int64 1000000 ∧
  100 <= 1000000 ∧
  (1000000 - 100) * 10000 + wtpolicy.RewardScale < 2 ^ 63 ∧
  wtpolicy.ComputeRewardAmount 1000000 100 10000 <= 1000000.
Proof.
  assert (wtpolicy.uint32 100) as Hb by (unfold wtpolicy.uint32; lia).
  assert (wtpolicy.uint32 10000) as Hr by (unfold wtpolicy.uint32; lia).
  assert (wtpolicy.int64 1000000) as Ht by (unfold wtpolicy.int64; lia).
  assert ((1000000 - 100) * 10000 + wtpolicy.RewardScale < 2 ^ 63) as Hno
    by (unfold wtpolicy.RewardScale; lia).
  split_and!; [exact Hb|exact Hr|exact Ht|lia|exact Hno|].
  destruct (reward_amount_rounds_up 1000000 100 10000 Hb Hr Ht) as (_ & _ & Hle);
    [lia|exact Hno|].
  apply Hle. unfold wtpolicy.RewardScale. lia.
Defined.

Lemma altruist_output_conserves_funds_witness :
  wtpolicy.int64 1000000 ∧
  0 <= wtpolicy.FeeForWeight wtpolicy.sampleExternals
         (wtpolicy.SweepFeeRate (wtpolicy.DefaultPolicy wtpolicy.sampleExternals))
         500 ∧
  (wtpolicy.ComputeAltruistOutput wtpolicy.sampleExternals
     (wtpolicy.DefaultPolicy wtpolicy.sampleExternals) 1000000 500).1 + 1500
    = 1000000.
Proof.
  assert (wtpolicy.int64 1000000) as Ht by (unfold wtpolicy.int64; lia).
  assert (0 <= wtpolicy.FeeForWeight wtpolicy.sampleExternals
         (wtpolicy.SweepFeeRate (wtpolicy.DefaultPolicy wtpolicy.sampleExternals))
         500) as Hf by (vm_compute; discriminate).
  split; [exact Ht|]. split; [exact Hf|].
  destruct (altruist_output_conserves_funds wtpolicy.sampleExternals
    (wtpolicy.DefaultPolicy wtpolicy.sampleExternals) 1000000 500 Ht Hf)
    as (_ & Hok & _).
  destruct Hok as [Hsum _]; [reflexivity|]. exact Hsum.
Defined.

Lemma reward_outputs_conserve_funds_witness :
  wtpolicy.uint32 100 ∧ wtpolicy.uint32 10000 ∧
  0 <= 1000000 < 2 ^ 62 ∧
  0 <= wtpolicy.FeeForWeight wtpolicy.sampleExternals 3000 500 ∧
  (1000000 - 100) * 10000 + wtpolicy.RewardScale < 2 ^ 63 ∧
  wtpolicy.ComputeRewardOutputs wtpolicy.sampleExternals
    {| wtpolicy.BlobType := 3; wtpolicy.MaxUpdates := 1024;
       wtpolicy.RewardBase := 100; wtpolicy.RewardRate := 10000;
       wtpolicy.SweepFeeRate := 3000 |} 1000000 500
    = (988401, 10099, None) ∧
  988401 + 10099 + 1500 = 1000000.
Proof.
  assert (wtpolicy.uint32 100) as Hb by (unfold wtpolicy.uint32; lia).
  assert (wtpolicy.uint32 10000) as Hr by (unfold wtpolicy.uint32; lia).
  assert (0 <= 1000000 < 2 ^ 62) as Ht by lia.
  assert (0 <= wtpolicy.FeeForWeight wtpolicy.sampleExternals 3000 500) as Hf
    by (vm_compute; discriminate).
  assert ((1000000 - 100) * 10000 + wtpolicy.RewardScale < 2 ^ 63) as Hno
    by (unfold wtpolicy.RewardScale; lia).
  split_and!; [exact Hb|exact Hr|lia|lia|exact Hf|exact Hno|reflexivity|].
  pose proof (reward_outputs_conserve_funds wtpolicy.sampleExternals
    {| wtpolicy.BlobType := 3; wtpolicy.MaxUpdates := 1024;
       wtpolicy.RewardBase := 100; wtpolicy.RewardRate := 10000;
       wtpolicy.SweepFeeRate := 3000 |} 1000000 500 Hb Hr Ht Hf Hno) as Hspec.
  destruct Hspec as [Hok _]. destruct Hok as [Hsum _]; [reflexivity|].
  exact Hsum.
Defined.

Lemma justice_outputs_match_policy_witness :
  wtpolicy.uint32 100 ∧ wtpolicy.uint32 10000 ∧
  0 <= 1000000 < 2 ^ 62 ∧
  0 <= wtpolicy.FeeForWeight wtpolicy.sampleExternals 3000 500 ∧
  (1000000 - 100) * 10000 + wtpolicy.RewardScale < 2 ^ 63 ∧
  ∃ sweepAmt rewardAmt,
    wtpolicy.ComputeJusticeTxOuts wtpolicy.sampleExternals
      {| wtpolicy.BlobType := 3; wtpolicy.MaxUpdates := 1024;
         wtpolicy.RewardBase := 100; wtpolicy.RewardRate := 10000;
         wtpolicy.SweepFeeRate := 3000 |} 1000000 500 [] [] =
    ([ {| wtpolicy.Value := sweepAmt; wtpolicy.PkScript := [] |};
       {| wtpolicy.Value := rewardAmt; wtpolicy.PkScript := [] |} ], None) ∧
    sweepAmt + rewardAmt + 1500 = 1000000.
Proof.
  assert (wtpolicy.uint32 100) as Hb by (unfold wtpolicy.uint32; lia).
  assert (wtpolicy.uint32 10000) as Hr by (unfold wtpolicy.uint32; lia).
  assert (0 <= 1000000 < 2 ^ 62) as Ht by lia.
  assert (0 <= wtpolicy.FeeForWeight wtpolicy.sampleExternals 3000 500) as Hf
    by (vm_compute; discriminate).
  assert ((1000000 - 100) * 10000 + wtpolicy.RewardScale < 2 ^ 63) as Hno
    by (unfold wtpolicy.RewardScale; lia).
  split_and!; [exact Hb|exact Hr|lia|lia|exact Hf|exact Hno|].
  pose proof (justice_outputs_match_policy wtpolicy.sampleExternals
    {| wtpolicy.BlobType := 3; wtpolicy.MaxUpdates := 1024;
       wtpolicy.RewardBase := 100; wtpolicy.RewardRate := 10000;
       wtpolicy.SweepFeeRate := 3000 |} 1000000 500 [] [] Hb Hr Ht Hf Hno)
    as Hspec.
  destruct Hspec as (sweepAmt & _ & rewardAmt & Hout & _ & Hsum).
  exists sweepAmt, rewardAmt. split; [|exact Hsum].
  rewrite <-Hout. reflexivity.
Defined.
